(** * Florence 4C mailbox configurator: state store, packing, reorder,
      numbering and snapping

    A shallow embedding of the domain logic of the Angular/Konva
    configurator.  The modelled code, by source file:

    - [src/app/core/models/configurator.models.ts]: the data model
      (lines 49-225) and [KonvaStateService] (lines 355-1124), in particular
      [addLevel] 461, [removeLevel] 492, [setActiveLevel] 528, [addWall] 577,
      [removeWall] 606, [setActiveWall] 644, [addFrame] 692, [removeFrame]
      713, [updateWallFrames] 748, [loadStateFromProject] 928,
      [exportStateForProject] 989, [setState] 1090;
    - the door catalogue ([DOOR_CONFIGS], [getDoorUnits], [getDoorCategory]),
      imported by the components as [core/constants/door-configs];
    - [cabinet-editor-modal.component.ts], the cabinet editor:
      [initializeSlots] 149, [normalizeDoorPositions] 184,
      [denormalizeDoorPositions] 211, [placeDoorInSlots] 241, [trySwapDoors]
      796, [findDoorOccupyingSlot] 857, [deleteSelectedDoor] 882,
      [checkEmptySlotHover] 1270, [handleDropOnCabinet] 1377,
      [createDoorAtSlot] 1449, [replaceDoors] 1466;
    - [konva-drawer-factory.ts], which also holds the class
      [KonvaConfiguratorComponent]: [getSnapPointsForGroup] 753,
      [findNearestSnapPoint] 838, [handleMeasureClick] 857,
      [updateAutoNumbering] 1352, the [dragend] handler of a frame group
      2548 and [reorderFrames] 2695.

    JavaScript numbers are modelled by [Z] where the code only ever holds
    integers (ids, counters, array indices) and by [Q] where halves occur
    (door units such as 4.5, positions, [width / 2]): small dyadic
    rationals, which IEEE doubles represent exactly.  The snap engine of
    the measuring tool, which takes square roots of pixel distances, is
    modelled on binary64 floating-point numbers.  Object identity is
    modelled by the index of the object in the array that owns it.
    Drawing, timers and storage are left out; the clock value and the
    generated ids that reach the state are parameters. *)

From Stdlib Require Import Floats.
From Stdlib Require Import List ZArith QArith Qround String Ascii Bool.
From Stdlib Require Import Lia Lqa Permutation DecimalString.
From Stdlib Require DecimalZ.
From Stdlib Require Import Sorted.
Import ListNotations.

Set Implicit Arguments.

Open Scope string_scope.
Open Scope list_scope.
Open Scope Z_scope.

(* ================================================================== *)
(** ** Data model ([configurator.models.ts]) *)
(* ================================================================== *)

(** [column?: 'left' | 'right'] *)
Inductive Column : Type := Left | Right.

Definition Column_eqb (a b : Column) : bool :=
  match a, b with
  | Left, Left | Right, Right => true
  | _, _ => false
  end.

(** [interface Door]; an absent optional field is [None]. *)
Record Door : Type := mkDoor {
  position : Q;
  door_type : string;
  substitute : option string;
  label : option string;
  column : option Column
}.

(** [interface Frame] (the UI-only flags [isSelected], [isDragging],
    [isValid], [validationErrors] are never read by the modelled code). *)
Record Frame : Type := mkFrame {
  id : string;
  frame_id : string;
  frame_door_type : string;
  width : Q;
  height : Q;
  bottom : Q;
  grid_offset : Q;
  doors : list Door
}.

(** [interface Wall] *)
Record Wall : Type := mkWall {
  wall_id : Z;
  wall_name : string;
  frames : list Frame
}.

(** [interface Level] *)
Record Level : Type := mkLevel {
  level_id : Z;
  level_name : string;
  walls : list Wall;
  expanded : option bool
}.

(** [interface AppConfig]; the string unions are plain strings at run time
    ([loadStateFromProject] stores them [as any]). *)
Record AppConfig : Type := mkAppConfig {
  install_type : string;
  kit_color_value : string;
  kit_color_name : string;
  depot_color : option string;
  ada_mode : string;
  delivery_mode : string;
  app_mode : string;
  door_id_type : string;
  door_id_font : option string;
  lock_type : string
}.

(** [module_mode: 'frame' | 'substitute'] *)
Inductive ModuleMode : Type := ModeFrame | ModeSubstitute.

(** [interface ConfiguratorState] *)
Record ConfiguratorState : Type := mkState {
  config : AppConfig;
  levels : list Level;
  active_level_id : Z;
  active_wall_id : Z;
  tenant_num_start : option Z;
  parcel_num_start : option Z;
  configuration_number_array : list (string * string);
  offsets_z : list Q;
  height_lock_config : bool;
  height_lock_wall : bool;
  locked_row : option string;
  module_mode : ModuleMode;
  selected_door_id : option string;
  job_name : string;
  project_cookie_id : string;
  project_id : option Z;
  created_at : option string;
  updated_at : option string
}.

(** Functional record updates, standing for the object spreads
    [{ ...state, field: value }]. *)
Definition with_levels (s : ConfiguratorState) (l : list Level) :=
  mkState (config s) l (active_level_id s) (active_wall_id s)
    (tenant_num_start s) (parcel_num_start s) (configuration_number_array s)
    (offsets_z s) (height_lock_config s) (height_lock_wall s) (locked_row s)
    (module_mode s) (selected_door_id s) (job_name s) (project_cookie_id s)
    (project_id s) (created_at s) (updated_at s).

Definition with_active_level_id (s : ConfiguratorState) (i : Z) :=
  mkState (config s) (levels s) i (active_wall_id s)
    (tenant_num_start s) (parcel_num_start s) (configuration_number_array s)
    (offsets_z s) (height_lock_config s) (height_lock_wall s) (locked_row s)
    (module_mode s) (selected_door_id s) (job_name s) (project_cookie_id s)
    (project_id s) (created_at s) (updated_at s).

Definition with_active_wall_id (s : ConfiguratorState) (i : Z) :=
  mkState (config s) (levels s) (active_level_id s) i
    (tenant_num_start s) (parcel_num_start s) (configuration_number_array s)
    (offsets_z s) (height_lock_config s) (height_lock_wall s) (locked_row s)
    (module_mode s) (selected_door_id s) (job_name s) (project_cookie_id s)
    (project_id s) (created_at s) (updated_at s).

Definition with_config (s : ConfiguratorState) (c : AppConfig) :=
  mkState c (levels s) (active_level_id s) (active_wall_id s)
    (tenant_num_start s) (parcel_num_start s) (configuration_number_array s)
    (offsets_z s) (height_lock_config s) (height_lock_wall s) (locked_row s)
    (module_mode s) (selected_door_id s) (job_name s) (project_cookie_id s)
    (project_id s) (created_at s) (updated_at s).

Definition with_tenant_num_start (s : ConfiguratorState) (v : option Z) :=
  mkState (config s) (levels s) (active_level_id s) (active_wall_id s)
    v (parcel_num_start s) (configuration_number_array s)
    (offsets_z s) (height_lock_config s) (height_lock_wall s) (locked_row s)
    (module_mode s) (selected_door_id s) (job_name s) (project_cookie_id s)
    (project_id s) (created_at s) (updated_at s).

Definition with_parcel_num_start (s : ConfiguratorState) (v : option Z) :=
  mkState (config s) (levels s) (active_level_id s) (active_wall_id s)
    (tenant_num_start s) v (configuration_number_array s)
    (offsets_z s) (height_lock_config s) (height_lock_wall s) (locked_row s)
    (module_mode s) (selected_door_id s) (job_name s) (project_cookie_id s)
    (project_id s) (created_at s) (updated_at s).

Definition with_configuration_number_array (s : ConfiguratorState)
    (m : list (string * string)) :=
  mkState (config s) (levels s) (active_level_id s) (active_wall_id s)
    (tenant_num_start s) (parcel_num_start s) m
    (offsets_z s) (height_lock_config s) (height_lock_wall s) (locked_row s)
    (module_mode s) (selected_door_id s) (job_name s) (project_cookie_id s)
    (project_id s) (created_at s) (updated_at s).

Definition with_module_mode (s : ConfiguratorState) (m : ModuleMode) :=
  mkState (config s) (levels s) (active_level_id s) (active_wall_id s)
    (tenant_num_start s) (parcel_num_start s) (configuration_number_array s)
    (offsets_z s) (height_lock_config s) (height_lock_wall s) (locked_row s)
    m (selected_door_id s) (job_name s) (project_cookie_id s)
    (project_id s) (created_at s) (updated_at s).

Definition with_updated_at (s : ConfiguratorState) (t : option string) :=
  mkState (config s) (levels s) (active_level_id s) (active_wall_id s)
    (tenant_num_start s) (parcel_num_start s) (configuration_number_array s)
    (offsets_z s) (height_lock_config s) (height_lock_wall s) (locked_row s)
    (module_mode s) (selected_door_id s) (job_name s) (project_cookie_id s)
    (project_id s) (created_at s) t.

Definition with_walls (l : Level) (ws : list Wall) : Level :=
  mkLevel (level_id l) (level_name l) ws (expanded l).

Definition with_frames (w : Wall) (fs : list Frame) : Wall :=
  mkWall (wall_id w) (wall_name w) fs.

Definition with_doors (f : Frame) (ds : list Door) : Frame :=
  mkFrame (id f) (frame_id f) (frame_door_type f) (width f) (height f)
    (bottom f) (grid_offset f) ds.

Definition with_id (f : Frame) (i : string) : Frame :=
  mkFrame i (frame_id f) (frame_door_type f) (width f) (height f)
    (bottom f) (grid_offset f) (doors f).

Definition with_position (d : Door) (p : Q) : Door :=
  mkDoor p (door_type d) (substitute d) (label d) (column d).

Definition with_label (d : Door) (l : option string) : Door :=
  mkDoor (position d) (door_type d) (substitute d) l (column d).

(* ================================================================== *)
(** ** JavaScript strings *)
(* ================================================================== *)

(** [String(n)] and [`${n}`] for an integer [n]: its decimal numeral. *)
Definition String_of_number (n : Z) : string :=
  NilZero.string_of_int (Z.to_int n).

(** [toLowerCase] / [toUpperCase] on the ASCII letters, the only letters
    door-type codes are made of. *)
Definition lowerChar (c : ascii) : ascii :=
  let n := N_of_ascii c in
  if ((65 <=? n) && (n <=? 90))%N then ascii_of_N (n + 32) else c.

Definition upperChar (c : ascii) : ascii :=
  let n := N_of_ascii c in
  if ((97 <=? n) && (n <=? 122))%N then ascii_of_N (n - 32) else c.

Fixpoint mapString (f : ascii -> ascii) (s : string) : string :=
  match s with
  | EmptyString => EmptyString
  | String c r => String (f c) (mapString f r)
  end.

Definition toLowerCase (s : string) : string := mapString lowerChar s.
Definition toUpperCase (s : string) : string := mapString upperChar s.

(** [s.startsWith(p)] *)
Definition startsWith (s p : string) : bool := String.prefix p s.

(** [array.includes(s)] on an array of strings *)
Definition includes (l : list string) (s : string) : bool :=
  existsb (String.eqb s) l.

(* ================================================================== *)
(** ** A result type for code that may throw *)
(* ================================================================== *)

(** [Throw] stands for an uncaught JavaScript exception ([throw new Error]
    or a [TypeError] on reading a property of [undefined]); the store is
    then left as it was. *)
Inductive result (A : Type) : Type :=
| Ok (a : A)
| Throw.

Arguments Throw {A}.

Definition bind {A B : Type} (r : result A) (k : A -> result B) : result B :=
  match r with
  | Ok a => k a
  | Throw => Throw
  end.

Notation "x <- r ;; k" := (bind r (fun x => k))
  (at level 61, r at next level, right associativity).

(** [Array.prototype.map] with a callback that may throw. *)
Fixpoint mapR {A B : Type} (f : A -> result B) (l : list A)
  : result (list B) :=
  match l with
  | [] => Ok []
  | a :: r => b <- f a ;; bs <- mapR f r ;; Ok (b :: bs)
  end.

(* ================================================================== *)
(** ** KonvaStateService ([configurator.models.ts]) *)
(* ================================================================== *)

Definition DEFAULT_CONFIG : AppConfig :=
  mkAppConfig "recessed" "0xdbe0eb_tbd" "TBD" None "all" "usps" "standard"
    "tbd" None "Standard".

Definition INITIAL_STATE : ConfiguratorState :=
  mkState DEFAULT_CONFIG
    [ mkLevel 0 "Level 1" [ mkWall 0 "Wall 1" [] ] (Some true) ]
    0 0 None None [] [] false false None ModeFrame None "" "" None None None.

(** [setState]: the caller passes [{ ...state, changes }]; the store stamps
    [updated_at] with the clock value [now]. *)
Definition setState (now : string) (newState : ConfiguratorState)
  : ConfiguratorState :=
  with_updated_at newState (Some now).

(** [levels.find(l => l.level_id === levelId)] *)
Definition getLevel (s : ConfiguratorState) (levelId : Z) : option Level :=
  find (fun l => level_id l =? levelId) (levels s).

Definition getActiveLevel (s : ConfiguratorState) : option Level :=
  getLevel s (active_level_id s).

(** [level?.walls.find(w => w.wall_id === wallId) || null] *)
Definition getWall (s : ConfiguratorState) (levelId wallId : Z)
  : option Wall :=
  match getLevel s levelId with
  | Some l => find (fun w => wall_id w =? wallId) (walls l)
  | None => None
  end.

Definition getActiveWall (s : ConfiguratorState) : option Wall :=
  match getActiveLevel s with
  | Some l => find (fun w => wall_id w =? active_wall_id s) (walls l)
  | None => None
  end.

(** [ids.length > 0 ? Math.max(...ids) + 1 : 0] *)
Definition nextId (ids : list Z) : Z :=
  match ids with
  | [] => 0
  | x :: r => fold_left Z.max r x + 1
  end.

(** [x || 0] on an optional number: [undefined] and [0] both give [0]. *)
Definition orZero (x : option Z) : Z :=
  match x with
  | Some v => if v =? 0 then 0 else v
  | None => 0
  end.

(** [level?.walls[0]?.wall_id] *)
Definition firstWallId (l : option Level) : option Z :=
  match l with
  | Some lv => match walls lv with
               | w :: _ => Some (wall_id w)
               | [] => None
               end
  | None => None
  end.

Definition allWallIds (ls : list Level) : list Z :=
  flat_map (fun l => map wall_id (walls l)) ls.

Definition addLevel (now : string) (s : ConfiguratorState)
  : Level * ConfiguratorState :=
  let lvls := levels s in
  let newLevelId := nextId (map level_id lvls) in
  let newWallId := nextId (allWallIds lvls) in
  let newWall := mkWall newWallId "" [] in
  let newLevel :=
    mkLevel newLevelId
      ("Level " ++ String_of_number (newLevelId + 1))%string
      [newWall] (Some true) in
  (newLevel, setState now (with_levels s (lvls ++ [newLevel]))).

Definition removeLevel (now : string) (levelId : Z) (s : ConfiguratorState)
  : result (bool * ConfiguratorState) :=
  let lvls := levels s in
  if levelId =? 0 then Ok (false, s)
  else if (Z.of_nat (List.length lvls) <=? 1) then Ok (false, s)
  else
    let newLevels := filter (fun l => negb (level_id l =? levelId)) lvls in
    newActiveLevelId <-
      (if active_level_id s =? levelId then
         match newLevels with
         | l0 :: _ => Ok (level_id l0)
         | [] => Throw
         end
       else Ok (active_level_id s)) ;;
    let newActiveLevel :=
      find (fun l => level_id l =? newActiveLevelId) newLevels in
    let newActiveWallId := orZero (firstWallId newActiveLevel) in
    Ok (true,
        setState now
          (with_active_wall_id
             (with_active_level_id (with_levels s newLevels) newActiveLevelId)
             newActiveWallId)).

Definition setActiveLevel (now : string) (levelId : Z)
    (s : ConfiguratorState) : result ConfiguratorState :=
  match getLevel s levelId with
  | None => Throw
  | Some level =>
      let newActiveWallId := orZero (firstWallId (Some level)) in
      Ok (setState now
            (with_active_wall_id (with_active_level_id s levelId)
               newActiveWallId))
  end.

Definition addWall (now : string) (levelId : Z) (s : ConfiguratorState)
  : result (Wall * ConfiguratorState) :=
  let lvls := levels s in
  match find (fun l => level_id l =? levelId) lvls with
  | None => Throw
  | Some _ =>
      let newWallId := nextId (allWallIds lvls) in
      let newWall := mkWall newWallId "" [] in
      let updatedLevels :=
        map (fun l => if level_id l =? levelId
                      then with_walls l (walls l ++ [newWall]) else l) lvls in
      Ok (newWall, setState now (with_levels s updatedLevels))
  end.

Definition removeWall (now : string) (levelId wallId : Z)
    (s : ConfiguratorState) : result (bool * ConfiguratorState) :=
  let lvls := levels s in
  match find (fun l => level_id l =? levelId) lvls with
  | None => Ok (false, s)
  | Some level =>
      if Z.of_nat (List.length (walls level)) <=? 1 then Ok (false, s)
      else
        updatedLevels <-
          mapR (fun l =>
                  if level_id l =? levelId then
                    let newWalls :=
                      filter (fun w => negb (wall_id w =? wallId)) (walls l) in
                    (* the callback's own [newActiveWallId] is computed and
                       dropped; reading [newWalls[0].wall_id] throws on an
                       empty array *)
                    _ <- (if active_wall_id s =? wallId then
                            match newWalls with
                            | w0 :: _ => Ok (wall_id w0)
                            | [] => Throw
                            end
                          else Ok (active_wall_id s)) ;;
                    Ok (with_walls l newWalls)
                  else Ok l) lvls ;;
        let updatedLevel :=
          find (fun l => level_id l =? levelId) updatedLevels in
        let keeps :=
          match updatedLevel with
          | Some ul =>
              match find (fun w => wall_id w =? active_wall_id s) (walls ul)
              with Some _ => true | None => false end
          | None => false
          end in
        let newActiveWallId :=
          if keeps then active_wall_id s
          else orZero (firstWallId updatedLevel) in
        Ok (true,
            setState now
              (with_active_wall_id (with_levels s updatedLevels)
                 newActiveWallId))
  end.

(** The [for ... of levels] loop of [setActiveWall]: the first level that
    owns a wall with the given id. *)
Definition findLevelOfWall (wallId : Z) (ls : list Level) : option Level :=
  find (fun l => match find (fun w => wall_id w =? wallId) (walls l) with
                 | Some _ => true
                 | None => false
                 end) ls.

Definition setActiveWall (now : string) (wallId : Z) (s : ConfiguratorState)
  : result ConfiguratorState :=
  match findLevelOfWall wallId (levels s) with
  | None => Throw
  | Some foundLevel =>
      Ok (setState now
            (with_active_wall_id
               (with_active_level_id s (level_id foundLevel)) wallId))
  end.

Definition mapWalls (f : Wall -> Wall) (ls : list Level) : list Level :=
  map (fun l => with_walls l (map f (walls l))) ls.

(** [addFrame]: [newId] is the value of [generateId()]. *)
Definition addFrame (now newId : string) (wallId : Z) (frame : Frame)
    (s : ConfiguratorState) : Frame * ConfiguratorState :=
  let newFrame := with_id frame newId in
  let lvls :=
    mapWalls (fun w => if wall_id w =? wallId
                       then with_frames w (frames w ++ [newFrame]) else w)
      (levels s) in
  (newFrame, setState now (with_levels s lvls)).

Definition removeFrame (now : string) (wallId : Z) (frameId : string)
    (s : ConfiguratorState) : ConfiguratorState :=
  let lvls :=
    mapWalls (fun w => if wall_id w =? wallId
                       then with_frames w
                              (filter (fun f => negb (String.eqb (id f) frameId))
                                 (frames w))
                       else w)
      (levels s) in
  setState now (with_levels s lvls).

Definition updateWallFrames (now : string) (wallId : Z) (fs : list Frame)
    (s : ConfiguratorState) : ConfiguratorState :=
  let lvls :=
    mapWalls (fun w => if wall_id w =? wallId then with_frames w fs else w)
      (levels s) in
  setState now (with_levels s lvls).

Definition setTenantNumStart (now : string) (v : option Z)
    (s : ConfiguratorState) : ConfiguratorState :=
  setState now (with_tenant_num_start s v).

Definition setParcelNumStart (now : string) (v : option Z)
    (s : ConfiguratorState) : ConfiguratorState :=
  setState now (with_parcel_num_start s v).

(** The mutation operations of the store, as commands. *)
Inductive StoreOp : Type :=
| OpAddLevel
| OpRemoveLevel (levelId : Z)
| OpAddWall (levelId : Z)
| OpRemoveWall (levelId wallId : Z)
| OpSetActiveLevel (levelId : Z)
| OpSetActiveWall (wallId : Z)
| OpAddFrame (newId : string) (wallId : Z) (frame : Frame)
| OpRemoveFrame (wallId : Z) (frameId : string).

(** One call on the store; a call that throws leaves the state alone. *)
Definition applyOp (now : string) (op : StoreOp) (s : ConfiguratorState)
  : ConfiguratorState :=
  match op with
  | OpAddLevel => snd (addLevel now s)
  | OpRemoveLevel l =>
      match removeLevel now l s with Ok (_, s') => s' | Throw => s end
  | OpAddWall l =>
      match addWall now l s with Ok (_, s') => s' | Throw => s end
  | OpRemoveWall l w =>
      match removeWall now l w s with Ok (_, s') => s' | Throw => s end
  | OpSetActiveLevel l =>
      match setActiveLevel now l s with Ok s' => s' | Throw => s end
  | OpSetActiveWall w =>
      match setActiveWall now w s with Ok s' => s' | Throw => s end
  | OpAddFrame i w f => snd (addFrame now i w f s)
  | OpRemoveFrame w f => removeFrame now w f s
  end.

(** States reachable from [INITIAL_STATE] by the mutation operations. *)
Inductive reachable : ConfiguratorState -> Prop :=
| reach_init : reachable INITIAL_STATE
| reach_step : forall now op s,
    reachable s -> reachable (applyOp now op s).

(** The active pointers are valid: the active level exists and the active
    wall is one of its walls. *)
Definition activePointersValid (s : ConfiguratorState) : bool :=
  match getActiveLevel s with
  | Some l => existsb (fun w => wall_id w =? active_wall_id s) (walls l)
  | None => false
  end.

(** A sequence of calls. *)
Definition runOps (now : string) (ops : list StoreOp) (s : ConfiguratorState)
  : ConfiguratorState :=
  fold_left (fun st op => applyOp now op st) ops s.


(* ------------------------------------------------------------------ *)
(** *** Project snapshots: [loadStateFromProject], [exportStateForProject] *)

(** The persisted project snapshot, the argument of [loadStateFromProject]
    and the value of [exportStateForProject]; every field is optional. *)
Record ProjectSnapshot : Type := mkSnapshot {
  projectLevels : option (list Level);
  activeLevelId : option Z;
  activeWallId : option Z;
  installType : option string;
  kitColorValue : option string;
  kitColorName : option string;
  depotColor : option string;
  adaMode : option string;
  deliveryMode : option string;
  appMode : option string;
  doorIdType : option string;
  doorIdFont : option string;
  lockType : option string;
  tenantNumStart : option Z;
  parcelNumStart : option Z;
  configurationNumberArray : option (list (string * string));
  moduleMode : option ModuleMode
}.

(** JavaScript truthiness of an optional string: [undefined] and the empty
    string are falsy. *)
Definition truthy (o : option string) : bool :=
  match o with
  | Some v => negb (String.eqb v "")
  | None => false
  end.

(** [if (field) config.x = field]: a truthy field of the snapshot replaces
    the current value, anything else keeps it. *)
Definition orKeep (field : option string) (current : string) : string :=
  match field with
  | Some v => if String.eqb v "" then current else v
  | None => current
  end.

Definition orKeepOpt (field : option string) (current : option string)
  : option string :=
  if truthy field then field else current.

(** [{ ...INITIAL_STATE }] handed to [setState]: the keys of the literal
    replace the current ones, the keys it does not mention are kept. *)
Definition resetForNewProject (now : string) (s : ConfiguratorState)
  : ConfiguratorState :=
  mkState DEFAULT_CONFIG (levels INITIAL_STATE)
    (active_level_id INITIAL_STATE) (active_wall_id INITIAL_STATE)
    (tenant_num_start s) (parcel_num_start s) [] [] false false
    (locked_row s) ModeFrame (selected_door_id s) "" ""
    (project_id s) (created_at s) (Some now).

(** [updateConfig({ depot_color })] *)
Definition updateConfig_depot_color (now : string) (c : string)
    (s : ConfiguratorState) : ConfiguratorState :=
  let cfg := config s in
  setState now
    (with_config s
       (mkAppConfig (install_type cfg) (kit_color_value cfg)
          (kit_color_name cfg) (Some c) (ada_mode cfg) (delivery_mode cfg)
          (app_mode cfg) (door_id_type cfg) (door_id_font cfg)
          (lock_type cfg))).

(** [loadStateFromProject]; it publishes the new state without going
    through [setState], so [updated_at] is not touched. *)
Definition loadStateFromProject (projectState : ProjectSnapshot)
    (s : ConfiguratorState) : ConfiguratorState :=
  let loadedLevels :=
    match projectLevels projectState with
    | Some ls => if (0 <? Z.of_nat (List.length ls)) then ls
                 else levels INITIAL_STATE
    | None => levels INITIAL_STATE
    end in
  let c := config s in
  let cfg :=
    mkAppConfig
      (orKeep (installType projectState) (install_type c))
      (orKeep (kitColorValue projectState) (kit_color_value c))
      (orKeep (kitColorName projectState) (kit_color_name c))
      (orKeepOpt (depotColor projectState) (depot_color c))
      (orKeep (adaMode projectState) (ada_mode c))
      (orKeep (deliveryMode projectState) (delivery_mode c))
      (orKeep (appMode projectState) (app_mode c))
      (orKeep (doorIdType projectState) (door_id_type c))
      (orKeepOpt (doorIdFont projectState) (door_id_font c))
      (orKeep (lockType projectState) (lock_type c)) in
  mkState cfg loadedLevels
    (match activeLevelId projectState with
     | Some i => i | None => active_level_id INITIAL_STATE end)
    (match activeWallId projectState with
     | Some i => i | None => active_wall_id INITIAL_STATE end)
    (tenantNumStart projectState)
    (parcelNumStart projectState)
    (match configurationNumberArray projectState with
     | Some m => m | None => [] end)
    (offsets_z s) (height_lock_config s) (height_lock_wall s) (locked_row s)
    (match moduleMode projectState with
     | Some m => m | None => ModeFrame end)
    (selected_door_id s) (job_name s) (project_cookie_id s)
    (project_id s) (created_at s) (updated_at s).

Definition exportStateForProject (s : ConfiguratorState) : ProjectSnapshot :=
  let c := config s in
  mkSnapshot (Some (levels s))
    (Some (active_level_id s)) (Some (active_wall_id s))
    (Some (install_type c)) (Some (kit_color_value c))
    (Some (kit_color_name c)) (depot_color c)
    (Some (ada_mode c)) (Some (delivery_mode c)) (Some (app_mode c))
    (Some (door_id_type c)) (door_id_font c) (Some (lock_type c))
    (tenant_num_start s) (parcel_num_start s)
    (Some (configuration_number_array s))
    (Some (module_mode s)).

Definition isSome {A : Type} (o : option A) : bool :=
  match o with Some _ => true | None => false end.

(** An optional config string of a snapshot is well formed when it is absent
    or non-empty. *)
Definition absentOrTruthy (o : option string) : bool :=
  match o with
  | Some v => negb (String.eqb v "")
  | None => true
  end.

(** A well-formed persisted snapshot: the shape [exportStateForProject]
    writes for a store with at least one level and non-empty required
    config strings. *)
Definition validSnapshot (x : ProjectSnapshot) : bool :=
  match projectLevels x with
  | Some (_ :: _) => true
  | _ => false
  end
  && isSome (activeLevelId x) && isSome (activeWallId x)
  && truthy (installType x) && truthy (kitColorValue x)
  && truthy (kitColorName x) && absentOrTruthy (depotColor x)
  && truthy (adaMode x) && truthy (deliveryMode x) && truthy (appMode x)
  && truthy (doorIdType x) && absentOrTruthy (doorIdFont x)
  && truthy (lockType x)
  && isSome (configurationNumberArray x) && isSome (moduleMode x).

(* ================================================================== *)
(** ** The door catalogue ([door-configs.ts]) *)
(* ================================================================== *)

Inductive DoorCategory : Type :=
| CatTenant | CatParcel | CatMaster | CatSpecial.

(** [interface DoorConfig], without the drawing instructions ([elements],
    [special], [hasGradient], [showTypeText]). *)
Record DoorConfig : Type := mkDoorConfig {
  name : string;
  displayName : string;
  units : Q;
  category : DoorCategory;
  uspsApproved : bool
}.

Definition DOOR_CONFIGS : list (string * DoorConfig) :=
  [ ("sd", mkDoorConfig "sd" "Single Door" 1 CatTenant true);
    ("dd", mkDoorConfig "dd" "Double Door" 2 CatTenant true);
    ("td", mkDoorConfig "td" "Triple Door" 3 CatTenant true);
    ("qd", mkDoorConfig "qd" "Quadruple Door" 4 CatTenant true);
    ("qud", mkDoorConfig "qud" "Quintuple Door" 5 CatTenant true);
    ("p2", mkDoorConfig "p2" "Parcel 2-Door" 2 CatParcel true);
    ("p3", mkDoorConfig "p3" "Parcel 3-Door" 3 CatParcel true);
    ("p4", mkDoorConfig "p4" "Parcel 4-Door" 4 CatParcel true);
    ("p5", mkDoorConfig "p5" "Parcel 5-Door" 5 CatParcel true);
    ("p6", mkDoorConfig "p6" "Parcel 6-Door" 6 CatParcel true);
    ("sp", mkDoorConfig "sp" "Spare Parcel" (9 # 2) CatParcel true);
    ("md", mkDoorConfig "md" "Master Door" 1 CatMaster true);
    ("mdsd", mkDoorConfig "mdsd" "Master + Single Door" 2 CatMaster true);
    ("s", mkDoorConfig "s" "Slot" 1 CatSpecial false);
    ("bs", mkDoorConfig "bs" "Bit Slot" 1 CatSpecial false);
    ("ms", mkDoorConfig "ms" "Mail Slot" 1 CatSpecial true);
    ("bms", mkDoorConfig "bms" "Bit Mail Slot" 1 CatSpecial true);
    ("hopd", mkDoorConfig "hopd" "Hopper Door" (5 # 2) CatSpecial false);
    ("hopbp", mkDoorConfig "hopbp" "Hopper Bin Parcel" (15 # 2) CatSpecial false);
    ("hopsp10", mkDoorConfig "hopsp10" "Hopper Spacer 1" 1 CatSpecial false);
    ("hopsp20", mkDoorConfig "hopsp20" "Hopper Spacer 2" 2 CatSpecial false);
    ("hopsp30", mkDoorConfig "hopsp30" "Hopper Spacer 3" 3 CatSpecial false);
    ("hopsp40", mkDoorConfig "hopsp40" "Hopper Spacer 4" 4 CatSpecial false);
    ("hopsp50", mkDoorConfig "hopsp50" "Hopper Spacer 5" 5 CatSpecial false);
    ("hopsp55", mkDoorConfig "hopsp55" "Hopper Spacer 5.5" (11 # 2) CatSpecial false);
    ("tds1", mkDoorConfig "tds1" "Triple Door Small 1" 2 CatSpecial false);
    ("td5", mkDoorConfig "td5" "Triple Door 5" 5 CatSpecial false);
    ("td5p", mkDoorConfig "td5p" "Triple Door 5 with Parcel" (11 # 2) CatSpecial false);
    ("tdh5", mkDoorConfig "tdh5" "Triple Door High 5" 5 CatSpecial false);
    ("tdh5p", mkDoorConfig "tdh5p" "Triple Door High 5 with Parcel" (11 # 2) CatSpecial false);
    ("tdh6", mkDoorConfig "tdh6" "Triple Door High 6" 6 CatSpecial false);
    ("tdh8", mkDoorConfig "tdh8" "Triple Door High 8" 8 CatSpecial false);
    ("tdh8p", mkDoorConfig "tdh8p" "Triple Door High 8 with Parcel" 8 CatSpecial false);
    ("tdh9", mkDoorConfig "tdh9" "Triple Door High 9" 9 CatSpecial false);
    ("td6", mkDoorConfig "td6" "Triple Door 6" 6 CatSpecial false);
    ("tdh10", mkDoorConfig "tdh10" "Triple Door High 10" 10 CatSpecial false);
    ("tdh11", mkDoorConfig "tdh11" "Triple Door High 11" 11 CatSpecial false) ].

(** [DOOR_CONFIGS[name]] *)
Fixpoint lookupConfig (table : list (string * DoorConfig)) (key : string)
  : option DoorConfig :=
  match table with
  | [] => None
  | (k, c) :: r => if String.eqb k key then Some c else lookupConfig r key
  end.

Definition getDoorConfig (nm : string) : option DoorConfig :=
  lookupConfig DOOR_CONFIGS nm.

(** [config?.units ?? 1] *)
Definition getDoorUnits (nm : string) : Q :=
  match getDoorConfig nm with
  | Some c => units c
  | None => 1%Q
  end.

(** [config?.category ?? 'special'] *)
Definition getDoorCategory (nm : string) : DoorCategory :=
  match getDoorConfig nm with
  | Some c => category c
  | None => CatSpecial
  end.

(* ================================================================== *)
(** ** Auto numbering ([updateAutoNumbering]) *)
(* ================================================================== *)

(** [['md', 'bms', 'ms', 'om'].includes(doorType)] *)
Definition isSkippedDoor (doorType : string) : bool :=
  includes ["md"; "bms"; "ms"; "om"] doorType.

Definition isTenantDoor (doorType : string) : bool :=
  String.eqb doorType "sd" || String.eqb doorType "dd"
  || String.eqb doorType "td" || String.eqb doorType "qd"
  || String.eqb doorType "qud" || startsWith doorType "htsd".

(** The regular expression [/^p\d*/] matches every string that starts with
    [p], since [\d*] also matches no digit at all. *)
Definition isParcelDoor (doorType : string) : bool :=
  negb (isTenantDoor doorType)
  && (startsWith doorType "p" || String.eqb doorType "sp"
      || String.eqb doorType "lp" || String.eqb doorType "hopper"
      || String.eqb doorType "bin" || startsWith doorType "hop"
      || startsWith doorType "td").

(** The two running counters [tenantCounter], [parcelCounter]: whole
    numbers; [counter++] adds exactly one as long as the counter stays
    within [-2^53, 2^53], the range in which doubles count exactly. *)
Record Counters : Type := mkCounters {
  tenantCounter : Z;
  parcelCounter : Z
}.

(** The closure [processDoor]: it writes the label of one door and advances
    one of the captured counters. *)
Definition processDoor (c : Counters) (door : Door) : Counters * Door :=
  let doorType := toLowerCase (door_type door) in
  if isSkippedDoor doorType then (c, with_label door None)
  else if isParcelDoor doorType then
    (mkCounters (tenantCounter c) (parcelCounter c + 1),
     with_label door
       (Some (String_of_number (parcelCounter c) ++ "P")%string))
  else
    (mkCounters (tenantCounter c + 1) (parcelCounter c),
     with_label door (Some (String_of_number (tenantCounter c)))).

(** [frame.doors.filter(d => d.column === 'left' || !d.column)] and
    [frame.doors.filter(d => d.column === 'right')], as predicates. *)
Definition inLeftColumn (d : Door) : bool :=
  match column d with
  | Some Right => false
  | _ => true
  end.

Definition inRightColumn (d : Door) : bool :=
  match column d with
  | Some Right => true
  | _ => false
  end.

(** [selection.forEach(processDoor)] where [selection] is a filtered view of
    [frame.doors]: the selected objects are mutated in array order, the
    array itself keeps its order. *)
Fixpoint processDoors (sel : Door -> bool) (c : Counters) (ds : list Door)
  : Counters * list Door :=
  match ds with
  | [] => (c, [])
  | d :: r =>
      if sel d then
        let '(c1, d') := processDoor c d in
        let '(c2, r') := processDoors sel c1 r in
        (c2, d' :: r')
      else
        let '(c2, r') := processDoors sel c r in
        (c2, d :: r')
  end.

(** The body of [frames.forEach]: left column first, then right column. *)
Definition numberFrame (c : Counters) (f : Frame) : Counters * Frame :=
  let '(c1, ds1) := processDoors inLeftColumn c (doors f) in
  let '(c2, ds2) := processDoors inRightColumn c1 ds1 in
  (c2, with_doors f ds2).

Fixpoint numberFrames (c : Counters) (fs : list Frame)
  : Counters * list Frame :=
  match fs with
  | [] => (c, [])
  | f :: r =>
      let '(c1, f') := numberFrame c f in
      let '(c2, r') := numberFrames c1 r in
      (c2, f' :: r')
  end.

(** [updateAutoNumbering] for the component fields [tenantStart] and
    [parcelStart]; the second component is the new [nextNumber] ([None]
    when the method returns early and leaves it alone). *)
Definition updateAutoNumbering (now : string) (tenantStart parcelStart : Z)
    (s : ConfiguratorState) : ConfiguratorState * option Z :=
  match getActiveWall s with
  | None => (s, None)
  | Some wall =>
      let s1 := setTenantNumStart now (Some tenantStart) s in
      let s2 := setParcelNumStart now (Some parcelStart) s1 in
      let '(c, fs) :=
        numberFrames (mkCounters tenantStart parcelStart) (frames wall) in
      (updateWallFrames now (wall_id wall) fs s2, Some (tenantCounter c))
  end.

(** The labels of the doors of a wall, frame by frame. *)
Definition wallLabels (w : option Wall) : list (list (option string)) :=
  match w with
  | Some wl => map (fun f => map label (doors f)) (frames wl)
  | None => []
  end.

(** The store of the numbering scenario: one frame on the active wall whose
    left column holds [sd], [p2], [sd] in that order. *)
Definition numberingScenarioFrame : Frame :=
  mkFrame "" "4C-demo" "sd" 17 21 0 15
    [ mkDoor 0 "sd" None None (Some Left);
      mkDoor 1 "p2" None None (Some Left);
      mkDoor 2 "sd" None None (Some Left) ].

Definition numberingScenarioStore : ConfiguratorState :=
  snd (addFrame "t0" "frame_1" 0 numberingScenarioFrame INITIAL_STATE).

(** Doors of a selection that take a tenant number, resp. a parcel number. *)
Definition takesTenantNumber (sel : Door -> bool) (d : Door) : bool :=
  sel d && negb (isSkippedDoor (toLowerCase (door_type d)))
  && negb (isParcelDoor (toLowerCase (door_type d))).

Definition takesParcelNumber (sel : Door -> bool) (d : Door) : bool :=
  sel d && negb (isSkippedDoor (toLowerCase (door_type d)))
  && isParcelDoor (toLowerCase (door_type d)).

Definition countDoors (p : Door -> bool) (ds : list Door) : Z :=
  Z.of_nat (List.length (filter p ds)).

(** The catalogue categories agree with the numbering classifier on tenant
    and parcel doors. *)
Definition categoryMatchesNumbering (entry : string * DoorConfig) : bool :=
  let nm := toLowerCase (fst entry) in
  match category (snd entry) with
  | CatParcel => isParcelDoor nm && negb (isSkippedDoor nm)
  | CatTenant => negb (isParcelDoor nm) && negb (isSkippedDoor nm)
  | _ => true
  end.

(* ================================================================== *)
(** ** Snap points of the measuring tool *)
(* ================================================================== *)

Definition Qltb (a b : Q) : bool := negb (Qle_bool b a).

(** [type: 'corner' | 'midpoint' | 'center'] *)
Inductive SnapType : Type := Corner | Midpoint | Center.

(** The measuring tool works on pixel coordinates and takes a square root:
    its numbers are modelled as what they are, IEEE 754 binary64 values
    ([float]). *)

(** [interface SnapPoint] *)
Record SnapPoint : Type := mkSnapPoint {
  snap_x : float;
  snap_y : float;
  snap_type : SnapType
}.

(** [Konva.Vector2d] *)
Record Vector2d : Type := mkVector2d {
  vec_x : float;
  vec_y : float
}.

(** What the reorder handlers read of a frame's [Konva.Group]: its bounding
    box and the [frameIndex] attribute. *)
Record Group : Type := mkGroup {
  group_x : Q;
  group_y : Q;
  group_width : Q;
  group_height : Q;
  frameIndex : option Z
}.

(** What the snap engine reads of a [Konva.Group]: [group.x()],
    [group.y()], [group.width()] and [group.height()]. *)
Record GroupBox : Type := mkGroupBox {
  box_x : float;
  box_y : float;
  box_width : float;
  box_height : float
}.

Definition SNAP_THRESHOLD : float := 30.

Definition getSnapPointsForGroup (group : GroupBox) : list SnapPoint :=
  let x := box_x group in
  let y := box_y group in
  let width := box_width group in
  let height := box_height group in
  [ mkSnapPoint x y Corner;
    mkSnapPoint (x + width) y Corner;
    mkSnapPoint x (y + height) Corner;
    mkSnapPoint (x + width) (y + height) Corner;
    mkSnapPoint (x + width / 2) y Midpoint;
    mkSnapPoint (x + width / 2) (y + height) Midpoint;
    mkSnapPoint x (y + height / 2) Midpoint;
    mkSnapPoint (x + width) (y + height / 2) Midpoint;
    mkSnapPoint (x + width / 2) (y + height / 2) Center ]%float.

(** A frame group of 17 by 21 inches at scale 6, placed at (50, 100). *)
Definition snapScenarioGroup : GroupBox := mkGroupBox 50 100 102 126.

(** A second group of the same size, right of the first. *)
Definition snapScenarioNeighbour : GroupBox := mkGroupBox 152 100 102 126.

Definition SnapType_eqb (a b : SnapType) : bool :=
  match a, b with
  | Corner, Corner | Midpoint, Midpoint | Center, Center => true
  | _, _ => false
  end.

(** The coordinates of the snap points of one type, in array order. *)
Definition pointsOfType (t : SnapType) (points : list SnapPoint)
  : list (float * float) :=
  map (fun p => (snap_x p, snap_y p))
    (filter (fun p => SnapType_eqb (snap_type p) t) points).

(** First lines of [handleMeasureClick]: the snap points of all frame
    groups of the layer. *)
Definition allSnapPoints (groups : list GroupBox) : list SnapPoint :=
  flat_map getSnapPointsForGroup groups.

(** Whole numbers of magnitude up to 1000: adding and subtracting [2^52]
    leaves exactly the whole numbers as they are. *)
Definition smallWholeNumber (d : float) : bool :=
  (PrimFloat.abs d <=? 1000)%float
  && ((PrimFloat.abs d + 0x1p52) - 0x1p52 =? PrimFloat.abs d)%float.

(** The one thing the scenarios need of the engine's [Math.pow]: the square
    of a small whole number, which is a double, is returned as it is. *)
Definition squaresSmallWholeNumbers (Math_pow : float -> float -> float)
  : Prop :=
  forall d, smallWholeNumber d = true -> (Math_pow d 2 = d * d)%float.

Section SnapEngine.

(** [Math.pow]: the language leaves its result implementation-approximated
    and engines differ in the last bit, so the function of the engine is a
    parameter.  Arithmetic, [<] and [Math.sqrt] are the IEEE 754
    operations. *)
Variable Math_pow : float -> float -> float.

(** [Math.sqrt(Math.pow(pos.x - point.x, 2) + Math.pow(pos.y - point.y, 2))],
    the distance as the loop computes it. *)
Definition snapDistance (pos : Vector2d) (point : SnapPoint) : float :=
  PrimFloat.sqrt (Math_pow (vec_x pos - snap_x point) 2
                  + Math_pow (vec_y pos - snap_y point) 2)%float.

(** One turn of the [for ... of points] loop on [(nearest, minDist)]. *)
Definition snapStep (pos : Vector2d) (acc : option SnapPoint * float)
    (point : SnapPoint) : option SnapPoint * float :=
  let dist := snapDistance pos point in
  if (dist <? snd acc)%float then (Some point, dist) else acc.

Definition findNearestSnapPoint (pos : Vector2d) (points : list SnapPoint)
  : option Vector2d :=
  match fst (fold_left (snapStep pos) points (None, SNAP_THRESHOLD)) with
  | None => None
  | Some nearest => Some (mkVector2d (snap_x nearest) (snap_y nearest))
  end.

(** The nearest snap point of all frame groups of the layer. *)
Definition snapCursor (groups : list GroupBox) (pos : Vector2d)
  : option Vector2d :=
  findNearestSnapPoint pos (allSnapPoints groups).

(** [snapped || pos] *)
Definition clickPos (groups : list GroupBox) (pos : Vector2d) : Vector2d :=
  match snapCursor groups pos with
  | Some p => p
  | None => pos
  end.

(** The loop invariant of [findNearestSnapPoint] after the points [seen]:
    without a remembered point [minDist] is still [bound] and no point seen
    is closer than that; with one, [minDist] is its distance, which is
    below [bound], every point seen before it is farther away (or its
    distance is not a number) and no point seen after it is closer. *)
Definition snapInv (pos : Vector2d) (bound : float) (seen : list SnapPoint)
    (acc : option SnapPoint * float) : Prop :=
  match fst acc with
  | None =>
      snd acc = bound
      /\ forall q, In q seen -> (snapDistance pos q <? bound)%float = false
  | Some p =>
      snd acc = snapDistance pos p
      /\ (snapDistance pos p <? bound)%float = true
      /\ exists before after,
           seen = before ++ p :: after
           /\ (forall q, In q before ->
                 (snapDistance pos q <=? snapDistance pos p)%float = false)
           /\ (forall q, In q after ->
                 (snapDistance pos q <? snapDistance pos p)%float = false)
  end.

End SnapEngine.

(** [Math.pow(d, 2)] as an engine that multiplies computes it; every call
    of the model has the exponent 2. *)
Definition squareByProduct (d exponent : float) : float := (d * d)%float.

(* ================================================================== *)
(** ** JavaScript arrays: [sort] and [splice] *)
(* ================================================================== *)

(** [array.sort((a, b) => key(a) - key(b))]: a stable sort by [key]
    (insertion from the right keeps equal keys in array order). *)
Fixpoint insertBy {A : Type} (key : A -> Q) (a : A) (l : list A) : list A :=
  match l with
  | [] => [a]
  | b :: r => if Qle_bool (key a) (key b) then a :: b :: r
              else b :: insertBy key a r
  end.

Definition sortBy {A : Type} (key : A -> Q) (l : list A) : list A :=
  fold_right (insertBy key) [] l.

(** The actual start index of [splice(start, ...)]: a negative start counts
    from the end, and the result is clamped to the array. *)
Definition spliceStart (len start : Z) : nat :=
  Z.to_nat (if start <? 0 then Z.max (len + start) 0 else Z.min start len).

(** [array.splice(start, 1)]: the removed elements and what is left. *)
Definition spliceOut {A : Type} (l : list A) (start : Z)
  : list A * list A :=
  let k := spliceStart (Z.of_nat (List.length l)) start in
  (firstn 1 (skipn k l), firstn k l ++ skipn (S k) l).

(** [array.splice(start, 0, item)] *)
Definition spliceIn {A : Type} (l : list A) (start : Z) (item : A) : list A :=
  let k := spliceStart (Z.of_nat (List.length l)) start in
  firstn k l ++ item :: skipn k l.

(* ================================================================== *)
(** ** Reordering frames by drag and drop *)
(* ================================================================== *)

(** The loop of the [dragend] handler: the index of the first sibling whose
    horizontal midpoint lies right of [x], or the number of siblings. *)
Fixpoint findInsertIndex (x : Q) (otherGroups : list Group) (i : Z) : Z :=
  match otherGroups with
  | [] => i
  | other :: r =>
      if Qltb x (group_x other + group_width other / 2)%Q then i
      else findInsertIndex x r (i + 1)
  end.

(** [newIndex] as the [dragend] handler computes it for the dragged [group]
    and the other children of the layer. *)
Definition dragendIndex (group : Group) (siblings : list Group) : Z :=
  let x := group_x group in
  let otherGroups :=
    sortBy group_x (filter (fun g => isSome (frameIndex g)) siblings) in
  findInsertIndex x otherGroups 0.

Definition reorderFrames (now : string) (oldIndex newIndex : Z)
    (s : ConfiguratorState) : ConfiguratorState :=
  match getActiveWall s with
  | None => s
  | Some activeWall =>
      let '(removed, rest) := spliceOut (frames activeWall) oldIndex in
      match removed with
      | [] => s
      | moved :: _ =>
          updateWallFrames now (wall_id activeWall)
            (spliceIn rest newIndex moved) s
      end
  end.

(** The [dragend] handler of a frame group; [dragStartIndex] was recorded at
    [dragstart]. *)
Definition dragend (now : string) (dragStartIndex : Z) (group : Group)
    (siblings : list Group) (s : ConfiguratorState) : ConfiguratorState :=
  reorderFrames now dragStartIndex (dragendIndex group siblings) s.

(** The reorder scenario: frames A, B, C on the active wall, their groups at
    x = 0, 100, 220, each 100 wide; A is dragged until its group sits at
    [x]. *)
Definition reorderFrame (i : string) : Frame :=
  mkFrame i "4C-demo" "sd" (100 / 6) 21 0 15 [].

Definition reorderScenarioStore : ConfiguratorState :=
  updateWallFrames "t0" 0
    [reorderFrame "A"; reorderFrame "B"; reorderFrame "C"] INITIAL_STATE.

Definition reorderScenarioSiblings : list Group :=
  [ mkGroup 100 0 100 126 (Some 1); mkGroup 220 0 100 126 (Some 2) ].

Definition reorderScenarioDrop (x : Q) : list string :=
  match getActiveWall
          (dragend "t1" 0 (mkGroup x 0 100 126 (Some 0))
             reorderScenarioSiblings reorderScenarioStore) with
  | Some w => map id (frames w)
  | None => []
  end.

(* ================================================================== *)
(** ** The cabinet editor ([cabinet-editor-modal.component.ts]) *)
(* ================================================================== *)

(** A method of the editor mutates the component and may then die with a
    [TypeError]; either way the component is left in some state. *)
Inductive outcome (A : Type) : Type :=
| Done (a : A)
| Crashed (a : A).

Definition stateOf {A : Type} (o : outcome A) : A :=
  match o with
  | Done a => a
  | Crashed a => a
  end.

Definition andThen {A B : Type} (o : outcome A) (wrap : A -> B)
    (k : A -> outcome B) : outcome B :=
  match o with
  | Done a => k a
  | Crashed a => Crashed (wrap a)
  end.

(** [forEach] with a body that may crash: the first crash ends the loop. *)
Fixpoint forEachO {A S : Type} (body : S -> A -> outcome S) (l : list A)
    (s : S) : outcome S :=
  match l with
  | [] => Done s
  | a :: r =>
      match body s a with
      | Done s' => forEachO body r s'
      | Crashed s' => Crashed s'
      end
  end.

(** [Math.min(a, b)] and [Math.max(a, b)] *)
Definition Math_min (a b : Q) : Q := if Qle_bool a b then a else b.
Definition Math_max (a b : Q) : Q := if Qle_bool a b then b else a.

(** [Math.round(x)]: the nearest integer, halves rounded up. *)
Definition Math_round (x : Q) : Z := Qfloor (x + (1 # 2))%Q.

(** The array element addressed by a number: only a non-negative whole
    number names an element, [slots[2.5]] and [slots[-1]] are [undefined]. *)
Definition arrayIndex (q : Q) : option nat :=
  if Qeq_bool (inject_Z (Qfloor q)) q && (0 <=? Qfloor q)
  then Some (Z.to_nat (Qfloor q))
  else None.

Fixpoint updateAt {A : Type} (k : nat) (f : A -> A) (l : list A) : list A :=
  match l, k with
  | [], _ => []
  | a :: r, O => f a :: r
  | a :: r, S k' => a :: updateAt k' f r
  end.

(** The integers [i >= 0] with [i < bound], the values the counter of
    [for (let i = 0; i < bound; i++)] takes. *)
Definition countUpTo (bound : Q) : list Z :=
  map Z.of_nat (seq 0 (Z.to_nat (Qceiling bound))).

(** The doors of an array together with their array index, which stands for
    the identity of the door object. *)
Definition indexed {A : Type} (l : list A) : list (nat * A) :=
  combine (seq 0 (List.length l)) l.

(** [door.column || 'left'] *)
Definition doorColumn (d : Door) : Column :=
  match column d with
  | Some c => c
  | None => Left
  end.

(** [getDoorUnits(door.door_type.toLowerCase())] *)
Definition doorUnits (d : Door) : Q :=
  getDoorUnits (toLowerCase (door_type d)).

(** The keys of [highlightedDoors] and [invalidDoors].  The source builds
    the strings [`${position}-${column}`] and [`empty-${slot}-${column}`];
    they are kept here by their components, two keys being the same string
    exactly when the components agree. *)
Inductive DoorId : Type :=
| DoorAt (pos : Q) (col : Column)
| EmptyAt (slot : Z) (col : Column).

Definition DoorId_eqb (a b : DoorId) : bool :=
  match a, b with
  | DoorAt p c, DoorAt q d => Qeq_bool p q && Column_eqb c d
  | EmptyAt i c, EmptyAt j d => (i =? j) && Column_eqb c d
  | _, _ => false
  end.

(** [id.startsWith('empty-')] *)
Definition isEmptyId (i : DoorId) : bool :=
  match i with
  | EmptyAt _ _ => true
  | DoorAt _ _ => false
  end.

Definition getDoorId (door : Door) : DoorId :=
  DoorAt (position door) (doorColumn door).

(** [ids.includes(id)], [set.has(id)] *)
Definition hasId (ids : list DoorId) (i : DoorId) : bool :=
  existsb (DoorId_eqb i) ids.

(** [set.add(id)]: a [Set] keeps insertion order and no duplicates. *)
Definition addId (ids : list DoorId) (i : DoorId) : list DoorId :=
  if hasId ids i then ids else ids ++ [i].

(** [interface Slot] *)
Record Slot : Type := mkSlot {
  unitIndex : Z;
  slot_column : Column;
  slot_door : option Door;
  isOccupiedByAbove : bool
}.

(** The fields of [CabinetEditorModalComponent] the packing code uses. *)
Record Editor : Type := mkEditor {
  frame : Frame;
  leftSlots : list Slot;
  rightSlots : list Slot;
  totalUnits : Z;
  highlightedDoors : list DoorId;
  invalidDoors : list DoorId
}.

Definition DOOR_UNIT : Q := 7 # 2.

Definition with_frame_doors (e : Editor) (ds : list Door) : Editor :=
  mkEditor (with_doors (frame e) ds) (leftSlots e) (rightSlots e)
    (totalUnits e) (highlightedDoors e) (invalidDoors e).

Definition with_slots (e : Editor) (c : Column) (sl : list Slot) : Editor :=
  match c with
  | Left => mkEditor (frame e) sl (rightSlots e) (totalUnits e)
              (highlightedDoors e) (invalidDoors e)
  | Right => mkEditor (frame e) (leftSlots e) sl (totalUnits e)
               (highlightedDoors e) (invalidDoors e)
  end.

Definition with_marks (e : Editor) (hl inv : list DoorId) : Editor :=
  mkEditor (frame e) (leftSlots e) (rightSlots e) (totalUnits e) hl inv.

(** [column === 'left' ? this.leftSlots : this.rightSlots] *)
Definition slotsOf (e : Editor) (c : Column) : list Slot :=
  match c with
  | Left => leftSlots e
  | Right => rightSlots e
  end.

Definition getLeftDoors (e : Editor) : list Door :=
  filter inLeftColumn (doors (frame e)).

Definition getRightDoors (e : Editor) : list Door :=
  filter inRightColumn (doors (frame e)).

(** [Array.from({ length: n }, (_, i) => empty slot i)] *)
Definition emptySlots (c : Column) (n : Z) : list Slot :=
  map (fun i => mkSlot (Z.of_nat i) c None false) (seq 0 (Z.to_nat n)).

(** One turn of the loop of [placeDoorInSlots]. *)
Definition placeUnit (door : Door) (slots : list Slot) (i : Z)
  : outcome (list Slot) :=
  let unit := (position door + inject_Z i)%Q in
  if Qltb unit (inject_Z (Z.of_nat (List.length slots))) then
    match arrayIndex unit with
    | Some k =>
        Done (updateAt k
                (fun sl => mkSlot (unitIndex sl) (slot_column sl)
                             (if i =? 0 then Some door else None) (0 <? i))
                slots)
    | None => Crashed slots
    end
  else Done slots.

Definition placeDoorInSlots (door : Door) (c : Column) (e : Editor)
  : outcome Editor :=
  match forEachO (placeUnit door) (countUpTo (doorUnits door)) (slotsOf e c)
  with
  | Done sl => Done (with_slots e c sl)
  | Crashed sl => Crashed (with_slots e c sl)
  end.

Definition initializeSlots (e : Editor) : outcome Editor :=
  let total := Math_round (height (frame e) / DOOR_UNIT) in
  let e0 :=
    mkEditor (frame e) (emptySlots Left total) (emptySlots Right total)
      total (highlightedDoors e) (invalidDoors e) in
  andThen
    (forEachO (fun st door => placeDoorInSlots door Left st)
       (getLeftDoors e0) e0)
    (fun st => st)
    (fun e1 =>
       forEachO (fun st door => placeDoorInSlots door Right st)
         (getRightDoors e1) e1).

(** [getEmptySlots] and [hasEmptySlots] *)
Definition getEmptySlots (e : Editor) (c : Column) : list nat :=
  map fst
    (filter (fun p => negb (isSome (slot_door (snd p)))
                      && negb (isOccupiedByAbove (snd p)))
       (indexed (slotsOf e c))).

Definition hasEmptySlots (e : Editor) : bool :=
  negb (Nat.eqb (List.length (getEmptySlots e Left)) 0)
  || negb (Nat.eqb (List.length (getEmptySlots e Right)) 0).

Definition canSave (e : Editor) : bool := negb (hasEmptySlots e).

(* ------------------------------------------------------------------ *)
(** *** Normalizing and denormalizing door positions *)

(** The door objects of one column, as references into [frame.doors]. *)
Definition columnRefs (sel : Door -> bool) (ds : list Door)
  : list (nat * Door) :=
  filter (fun r => sel (snd r)) (indexed ds).

(** The loop [doors.forEach(door => { door.position = currentUnit;
    currentUnit += units })]: the position written to each door object. *)
Fixpoint assignUnits (currentUnit : Q) (refs : list (nat * Door))
  : list (nat * Q) :=
  match refs with
  | [] => []
  | (i, door) :: r =>
      (i, currentUnit) :: assignUnits (currentUnit + doorUnits door)%Q r
  end.

(** Performing the writes on the objects of the array. *)
Definition writePositions (writes : list (nat * Q)) (ds : list Door)
  : list Door :=
  fold_left (fun acc w => updateAt (fst w) (fun d => with_position d (snd w)) acc)
    writes ds.

(** [normalizeDoorPositions] on [frame.doors]: both columns are filtered and
    sorted first, then the left and the right column are renumbered. *)
Definition normalizeDoorPositions (ds : list Door) : list Door :=
  let leftDoors :=
    sortBy (fun r => position (snd r)) (columnRefs inLeftColumn ds) in
  let rightDoors :=
    sortBy (fun r => position (snd r)) (columnRefs inRightColumn ds) in
  writePositions (assignUnits 0 rightDoors)
    (writePositions (assignUnits 0 leftDoors) ds).

(** [posMap.set(door.position, index)] for the doors of a sorted column. *)
Definition buildPosMap (sorted : list Door) : list (Q * Z) :=
  map (fun r => (position (snd r), Z.of_nat (fst r))) (indexed sorted).

(** [posMap.get(p)]: the value of the last [set] for the key. *)
Definition posMapGet (m : list (Q * Z)) (p : Q) : option Z :=
  option_map snd (find (fun kv => Qeq_bool (fst kv) p) (rev m)).

(** [denormalizeDoorPositions] on [frame.doors]. *)
Definition denormalizeDoorPositions (ds : list Door) : list Door :=
  let leftPosMap := buildPosMap (sortBy position (filter inLeftColumn ds)) in
  let rightPosMap := buildPosMap (sortBy position (filter inRightColumn ds)) in
  map (fun door =>
         let posMap := match doorColumn door with
                       | Left => leftPosMap
                       | Right => rightPosMap
                       end in
         match posMapGet posMap (position door) with
         | Some sequentialPos => with_position door (inject_Z sequentialPos)
         | None => door
         end) ds.

(** Two doors of one column occupy the unit ranges
    [[position, position + units)]; the ranges are disjoint when one ends
    before the other starts. *)
Definition rangesDisjointb (a b : Door) : bool :=
  Qle_bool (position a + doorUnits a) (position b)
  || Qle_bool (position b + doorUnits b) (position a).

(** No two distinct doors of a column overlap. *)
Definition noOverlap (ds : list Door) : Prop :=
  forall i j a b,
    i <> j -> nth_error ds i = Some a -> nth_error ds j = Some b ->
    doorColumn a = doorColumn b -> rangesDisjointb a b = true.

Fixpoint noOverlapb (ds : list Door) : bool :=
  match ds with
  | [] => true
  | a :: r =>
      forallb (fun b => negb (Column_eqb (doorColumn a) (doorColumn b))
                        || rangesDisjointb a b) r
      && noOverlapb r
  end.

(* ------------------------------------------------------------------ *)
(** *** Swapping, deleting, creating and replacing doors *)

(** [trySwapDoors(door1, door2)] for the door objects at the array indices
    [i1] and [i2]. *)
Definition trySwapDoors (i1 i2 : nat) (e : Editor) : outcome (bool * Editor) :=
  let ds := doors (frame e) in
  match nth_error ds i1, nth_error ds i2 with
  | Some door1, Some door2 =>
      let door1Units := doorUnits door1 in
      let door2Units := doorUnits door2 in
      let door1Column := match column door1 with Some c => c | None => Left end in
      let door2Column := match column door2 with Some c => c | None => Right end in
      if negb (Column_eqb door1Column door2Column) then Done (false, e)
      else
        let door1Position := position door1 in
        let door2Position := position door2 in
        let door1NewEnd := (door2Position + door1Units - 1)%Q in
        let door2NewEnd := (door1Position + door2Units - 1)%Q in
        if Qle_bool (inject_Z (totalUnits e)) door1NewEnd
           || Qle_bool (inject_Z (totalUnits e)) door2NewEnd
        then Done (false, e)
        else
          let columnDoors :=
            filter (fun r => Column_eqb (doorColumn (snd r)) door1Column)
              (indexed ds) in
          let minPos := Math_min door1Position door2Position in
          let maxPos := Math_max (door1Position + door1Units - 1)%Q
                          (door2Position + door2Units - 1)%Q in
          let blocked :=
            existsb
              (fun r =>
                 let d := snd r in
                 if Nat.eqb (fst r) i1 || Nat.eqb (fst r) i2 then false
                 else
                   let dEnd := (position d + doorUnits d - 1)%Q in
                   (Qle_bool minPos (position d) && Qle_bool (position d) maxPos)
                   || (Qle_bool minPos dEnd && Qle_bool dEnd maxPos))
              columnDoors in
          if blocked then Done (false, e)
          else
            let ds1 := updateAt i1 (fun d => with_position d door2Position) ds in
            let ds2 := updateAt i2 (fun d => with_position d door1Position) ds1 in
            match initializeSlots (with_frame_doors e ds2) with
            | Done e' => Done (true, e')
            | Crashed e' => Crashed (true, e')
            end
  | _, _ => Done (false, e)
  end.

(** [deleteSelectedDoor] for the selected door object at array index [i]. *)
Definition deleteSelectedDoor (i : nat) (e : Editor) : outcome Editor :=
  let ds := doors (frame e) in
  initializeSlots
    (with_frame_doors e (map snd (filter (fun r => negb (Nat.eqb (fst r) i))
                                    (indexed ds)))).

Definition createDoorAtSlot (slotIndex : Z) (c : Column) (doorType : string)
    (e : Editor) : outcome Editor :=
  let newDoor :=
    mkDoor (inject_Z slotIndex) (toUpperCase doorType) None None
      (match c with Right => Some Right | Left => None end) in
  initializeSlots (with_frame_doors e (doors (frame e) ++ [newDoor])).

(** The accumulation loop of [replaceDoors]: the lowest position and the
    units set free. *)
Definition freedByRemoval (firstDoor : Door) (doorsToRemove : list Door)
  : Q * Q :=
  fold_left
    (fun acc door =>
       (Math_min (fst acc) (position door), (snd acc + doorUnits door)%Q))
    doorsToRemove (position firstDoor, 0%Q).

Definition replaceDoors (firstDoor : Door) (newDoorType : string)
    (doorIdsToRemove : list DoorId) (e : Editor) : outcome Editor :=
  let ds := doors (frame e) in
  let newDoorUnits := getDoorUnits newDoorType in
  let doorsToRemoveObjects :=
    filter (fun door => hasId doorIdsToRemove (getDoorId door)) ds in
  let '(minPosition, totalFreedSlots) :=
    freedByRemoval firstDoor doorsToRemoveObjects in
  if Qltb totalFreedSlots newDoorUnits then Done e
  else
    let updatedDoors :=
      filter (fun door => negb (hasId doorIdsToRemove (getDoorId door))) ds in
    let newDoor :=
      mkDoor minPosition (toUpperCase newDoorType) (substitute firstDoor)
        (label firstDoor) (column firstDoor) in
    initializeSlots (with_frame_doors e (updatedDoors ++ [newDoor])).

(* ------------------------------------------------------------------ *)
(** *** Hovering over empty slots and dropping a palette door *)

(** [findDoorOccupyingSlot]: walk down from the slot to the first slot that
    holds a door.  [slots[i]] exists for every [0 <= i <= slotIndex] when
    [slotIndex] is a slot of the column. *)
Fixpoint findDoorOccupyingSlot (slots : list Slot) (slotIndex : nat)
  : option Door :=
  match nth_error slots slotIndex with
  | Some (mkSlot _ _ (Some d) _) => Some d
  | _ => match slotIndex with
         | O => None
         | S k => findDoorOccupyingSlot slots k
         end
  end.

(** The values of [i] in [for (let i = start; i < start + units &&
    i < totalUnits; i++)]: both bounds only ever turn false, so the loop
    visits the integers from [start] below both of them. *)
Definition scannedUnits (start : Z) (draggedUnits : Q) (total : Z) : list Z :=
  map (fun k => start + Z.of_nat k)
    (seq 0 (Z.to_nat (Z.min (Qceiling draggedUnits) (total - start)))).

(** One turn of the scanning loop of [checkEmptySlotHover]; the state is
    [availableSlots] and the doors added to [affectedDoors].  Reading
    [slots[i].door] of a missing slot is a [TypeError]. *)
Definition scanUnit (slots : list Slot) (acc : Z * list Door) (i : Z)
  : outcome (Z * list Door) :=
  match (if i <? 0 then None else nth_error slots (Z.to_nat i)) with
  | None => Crashed acc
  | Some slot =>
      match slot_door slot, isOccupiedByAbove slot with
      | None, false => Done (fst acc + 1, snd acc)
      | Some d, _ => Done (fst acc + 1, snd acc ++ [d])
      | None, true =>
          match findDoorOccupyingSlot slots (Z.to_nat i) with
          | Some d => Done (fst acc + 1, snd acc ++ [d])
          | None => Done (fst acc + 1, snd acc)
          end
      end
  end.

(** The test [availableSlots === draggedUnits && startSlotIndex +
    draggedUnits <= this.totalUnits]. *)
Definition placementFits (availableSlots : Z) (startSlotIndex : Z)
    (draggedUnits : Q) (total : Z) : bool :=
  Qeq_bool (inject_Z availableSlots) draggedUnits
  && Qle_bool (inject_Z startSlotIndex + draggedUnits) (inject_Z total).

Definition checkEmptySlotHover (startSlotIndex : Z) (c : Column)
    (draggedName : string) (e : Editor) : outcome Editor :=
  let draggedUnits := getDoorUnits draggedName in
  let slots := slotsOf e c in
  match forEachO (scanUnit slots)
          (scannedUnits startSlotIndex draggedUnits (totalUnits e)) (0, [])
  with
  | Crashed _ => Crashed e
  | Done (availableSlots, affectedDoors) =>
      let ids := map getDoorId affectedDoors in
      let marker :=
        match affectedDoors with
        | [] => [EmptyAt startSlotIndex c]
        | _ => []
        end in
      if placementFits availableSlots startSlotIndex draggedUnits
           (totalUnits e)
      then Done (with_marks e
                   (fold_left addId (ids ++ marker) (highlightedDoors e))
                   (invalidDoors e))
      else Done (with_marks e (highlightedDoors e)
                   (fold_left addId (ids ++ marker) (invalidDoors e)))
  end.

(** [checkCabinetDoorHover] when the pointer is over no door but over the
    slot [startSlotIndex] of column [c]: both sets are cleared, then the
    empty-slot check runs. *)
Definition hoverEmptySlot (startSlotIndex : Z) (c : Column)
    (draggedName : string) (e : Editor) : outcome Editor :=
  checkEmptySlotHover startSlotIndex c draggedName (with_marks e [] []).

(** The door shapes on the cabinet layer after [renderCabinet]: the left
    column in array order, then the right column. *)
Definition cabinetShapes (e : Editor) : list Door :=
  getLeftDoors e ++ getRightDoors e.

Definition handleDropOnCabinet (draggedName : string) (e : Editor)
  : outcome (bool * Editor) :=
  let hl := highlightedDoors e in
  let ret (b : bool) (o : outcome Editor) : outcome (bool * Editor) :=
    match o with
    | Done e' => Done (b, e')
    | Crashed e' => Crashed (b, e')
    end in
  let replaceHighlighted :=
    match find (fun door => hasId hl (getDoorId door)) (cabinetShapes e) with
    | None => Done (false, e)
    | Some firstDoor => ret true (replaceDoors firstDoor draggedName hl e)
    end in
  match hl with
  | [] => Done (false, e)
  | _ =>
      if existsb (hasId (invalidDoors e)) hl then Done (false, e)
      else
        match filter isEmptyId hl with
        | EmptyAt slotIndex c :: _ =>
            let actualDoorIds := filter (fun i => negb (isEmptyId i)) hl in
            match actualDoorIds with
            | [] => ret true (createDoorAtSlot slotIndex c draggedName e)
            | _ =>
                match find (fun door => hasId actualDoorIds (getDoorId door))
                        (cabinetShapes e) with
                | Some firstDoor =>
                    ret true (replaceDoors firstDoor draggedName
                                actualDoorIds e)
                | None => replaceHighlighted
                end
            end
        | _ => replaceHighlighted
        end
  end.

(** Opening the editor on a frame ([ngOnChanges]): positions are
    normalized, then the slots are built. *)
Definition openEditor (f : Frame) : outcome Editor :=
  initializeSlots
    (mkEditor (with_doors f (normalizeDoorPositions (doors f))) [] [] 0 [] []).

(** The units a list of doors occupies. *)
Definition sumUnits (ds : list Door) : Q :=
  fold_left (fun acc door => (acc + doorUnits door)%Q) ds 0%Q.

(** An editor on a frame three units high whose left column holds a double
    door at 0 and a single door at 2. *)
Definition replaceScenarioFrame : Frame :=
  mkFrame "f1" "4C-demo" "sd" 17 (21 # 2) 0 15
    [ mkDoor 0 "dd" None None (Some Left);
      mkDoor 2 "sd" None None (Some Left) ].

Definition replaceScenarioEditor : Editor :=
  stateOf (initializeSlots (mkEditor replaceScenarioFrame [] [] 0 [] [])).

(** A number of units is whole when it equals its own ceiling. *)
Definition isWholeNumber (q : Q) : bool :=
  Qeq_bool (inject_Z (Qceiling q)) q.

(** The packing scenario: an editor on a frame six units high whose left
    column holds a double door at 0 and a single door at 2. *)
Definition packingScenarioFrame : Frame :=
  mkFrame "f1" "4C-demo" "sd" 17 21 0 15
    [ mkDoor 0 "dd" None None (Some Left);
      mkDoor 2 "sd" None None (Some Left) ].

Definition packingScenarioEditor : Editor :=
  stateOf (initializeSlots (mkEditor packingScenarioFrame [] [] 0 [] [])).

(** Hovering a palette door over slot [slot] of the left column of the
    scenario and releasing it there. *)
Definition packingScenarioDrop (doorName : string) (slot : Z)
  : outcome (bool * Editor) :=
  handleDropOnCabinet doorName
    (stateOf (hoverEmptySlot slot Left doorName packingScenarioEditor)).

(** A column of six units with a double door on units 2 and 3 only. *)
Definition overlapScenarioEditor : Editor :=
  stateOf (initializeSlots
             (mkEditor
                (mkFrame "f2" "4C-demo" "sd" 17 21 0 15
                   [ mkDoor 2 "dd" None None (Some Left) ])
                [] [] 0 [] [])).

(** The filter that selects the column of a door. *)
Definition columnOf (d : Door) : Door -> bool :=
  if inLeftColumn d then inLeftColumn else inRightColumn.

(** A left column as the editor holds it: a double door on units 0 and 1
    and a single door on unit 2. *)
Definition stackedColumn : list Door :=
  [ mkDoor 0 "dd" None None (Some Left);
    mkDoor 2 "sd" None None (Some Left) ].

(** A column of three units filled by a single door on unit 0 and a double
    door on units 1 and 2. *)
Definition swapScenarioEditor : Editor :=
  stateOf (initializeSlots
             (mkEditor
                (mkFrame "f3" "4C-demo" "sd" 17 (21 # 2) 0 15
                   [ mkDoor 0 "sd" None None (Some Left);
                     mkDoor 1 "dd" None None (Some Left) ])
                [] [] 0 [] [])).

(** The shape [initializeSlots] gives to the editor: both slot arrays have
    [totalUnits] entries. *)
Definition slotsReady (n : nat) (total : Z) (e : Editor) : Prop :=
  List.length (leftSlots e) = n /\ List.length (rightSlots e) = n
  /\ totalUnits e = total.


(** The level ids of a store, and the part of the pointer invariant the
    code does keep: level 0 is present and the active level exists. *)
Definition levelIds (s : ConfiguratorState) : list Z :=
  map level_id (levels s).

Definition activeLevelKept (s : ConfiguratorState) : Prop :=
  In 0 (levelIds s) /\ In (active_level_id s) (levelIds s).

(* ================================================================== *)
(** * Further operations of the store, the component and the editor *)
(* ================================================================== *)

(** ** KonvaStateService: structure of the level tree *)

(** The shape the level tree has in every state the mutation operations
    reach: level ids are pairwise distinct, wall ids are distinct across all
    levels, and no level is without a wall. *)
Definition treeWellFormed (ls : list Level) : Prop :=
  NoDup (map level_id ls)
  /\ NoDup (allWallIds ls)
  /\ (forall l, In l ls -> walls l <> []).



(** What the frame operations of the store leave alone: the ids of the
    level tree, the active pointers and their validity. *)
Definition sameTree (s s' : ConfiguratorState) : Prop :=
  levelIds s' = levelIds s
  /\ map (fun l => map wall_id (walls l)) (levels s')
     = map (fun l => map wall_id (walls l)) (levels s)
  /\ active_level_id s' = active_level_id s
  /\ active_wall_id s' = active_wall_id s
  /\ activePointersValid s' = activePointersValid s.

(* ------------------------------------------------------------------ *)
(** ** Numbering: [resetNumbering] and the order of [updateAutoNumbering] *)

(** The body of the inner loop of [resetNumbering]: the label is cleared
    unless the door is one of the special doors. *)
Definition resetDoor (door : Door) : Door :=
  let type := toLowerCase (door_type door) in
  if negb (includes ["md"; "bms"; "ms"; "om"] type)
  then with_label door None
  else door.

(** [resetNumbering] (konva-drawer-factory.ts, line 1429) *)
Definition resetNumbering (now : string) (s : ConfiguratorState)
  : ConfiguratorState :=
  match getActiveWall s with
  | None => s
  | Some wall =>
      let fs :=
        map (fun f => with_doors f (map resetDoor (doors f))) (frames wall) in
      updateWallFrames now (wall_id wall) fs s
  end.

(** The order in which [updateAutoNumbering] visits the doors of a wall:
    frame by frame, the left column in array order, then the right one. *)
Definition processingOrder (fs : list Frame) : list Door :=
  flat_map (fun f => filter inLeftColumn (doors f)
                     ++ filter inRightColumn (doors f)) fs.

Definition everyDoor (d : Door) : bool := true.

(** The labels of the doors that take a tenant number, resp. a parcel
    number, in the given order. *)
Definition tenantLabels (ds : list Door) : list (option string) :=
  map label (filter (takesTenantNumber everyDoor) ds).

Definition parcelLabels (ds : list Door) : list (option string) :=
  map label (filter (takesParcelNumber everyDoor) ds).

(** The labels [fmt start], [fmt (start + 1)], ... of [n] consecutive
    numbers. *)
Definition consecutiveLabels (fmt : Z -> string) (start : Z) (n : nat)
  : list (option string) :=
  map (fun k => Some (fmt (start + Z.of_nat k))) (seq 0 n).

(** The two label formats: [String(tenantCounter)] and
    [`${parcelCounter}P`]. *)
Definition tenantFormat (n : Z) : string := String_of_number n.
Definition parcelFormat (n : Z) : string :=
  (String_of_number n ++ "P")%string.

(** A selector that reads nothing of a door but its column. *)
Definition byColumn (sel : Door -> bool) : Prop :=
  forall d d', column d = column d' -> sel d = sel d'.

(** Two doors that differ at most in their label, and agree on it where
    [decided] holds; two frames that differ at most in the labels of their
    doors. *)
Definition sameDoorButLabel (decided : Door -> bool) (d d' : Door) : Prop :=
  with_label d None = with_label d' None
  /\ (decided d = true -> label d = label d').

Definition sameFrameButLabels (f f' : Frame) : Prop :=
  with_doors f [] = with_doors f' []
  /\ Forall2 (sameDoorButLabel (fun _ => false)) (doors f) (doors f').

(** The largest whole number up to which every whole number is a double:
    below it [counter++] adds exactly one. *)
Definition MAX_SAFE_COUNTER : Z := 2 ^ 53.

(** A wall of two frames with doors in both columns, one of them a master
    door, one with an old label. *)
Definition numberingWallFrames : list Frame :=
  [ mkFrame "f1" "4C-demo" "sd" 17 21 0 15
      [ mkDoor 0 "sd" None None (Some Right);
        mkDoor 0 "p2" None (Some "old") (Some Left);
        mkDoor 2 "md" None None None;
        mkDoor 3 "SD" None None (Some Left) ];
    mkFrame "f2" "4C-demo" "sd" 17 21 0 15
      [ mkDoor 0 "dd" None None None;
        mkDoor 0 "bin" None None (Some Right) ] ].

Definition numberingWallStore : ConfiguratorState :=
  updateWallFrames "t0" 0 numberingWallFrames INITIAL_STATE.

(* ------------------------------------------------------------------ *)
(** ** Canvas statistics ([updateCanvasStats], line 1290) *)

Record CanvasStats : Type := mkCanvasStats {
  tenantCabinets : Z;
  parcelCabinets : Z;
  maxWidth : Q;
  maxHeight : Q
}.

(** The parcel test of [updateCanvasStats]; unlike the one of
    [updateAutoNumbering] it is not guarded by the tenant test. *)
Definition statsParcelDoor (doorType : string) : bool :=
  startsWith doorType "p" || String.eqb doorType "sp"
  || String.eqb doorType "lp" || String.eqb doorType "hopper"
  || String.eqb doorType "bin" || startsWith doorType "hop"
  || startsWith doorType "td".

(** The inner [frame.doors.forEach]: the flags [(hasTenant, hasParcel)]. *)
Definition doorFlags (flags : bool * bool) (door : Door) : bool * bool :=
  let doorType := toLowerCase (door_type door) in
  if includes ["md"; "bms"; "ms"; "om"] doorType then flags
  else if statsParcelDoor doorType then (fst flags, true)
  else (true, snd flags).

Definition frameFlags (f : Frame) : bool * bool :=
  fold_left doorFlags (doors f) (false, false).

(** The body of [wall.frames.forEach]. *)
Definition statsStep (stats : CanvasStats) (f : Frame) : CanvasStats :=
  let w := (maxWidth stats + width f)%Q in
  let h := if Qltb (maxHeight stats) (height f)
           then height f else maxHeight stats in
  let '(hasTenant, hasParcel) := frameFlags f in
  if hasParcel && negb hasTenant then
    mkCanvasStats (tenantCabinets stats) (parcelCabinets stats + 1) w h
  else if hasTenant && negb hasParcel then
    mkCanvasStats (tenantCabinets stats + 1) (parcelCabinets stats) w h
  else
    mkCanvasStats (tenantCabinets stats + 1)
      (if hasParcel then parcelCabinets stats + 1 else parcelCabinets stats)
      w h.

(** The value written to [canvasStats]; [None] is [null]. *)
Definition updateCanvasStats (wall : option Wall) : option CanvasStats :=
  match wall with
  | None => None
  | Some w =>
      match frames w with
      | [] => None
      | fs => Some (fold_left statsStep fs (mkCanvasStats 0 0 0 0))
      end
  end.

(** A door the statistics look at (not one of the special doors), and
    whether a frame holds such a door of the parcel kind, resp. of the
    tenant kind. *)
Definition countedDoor (d : Door) : bool :=
  negb (includes ["md"; "bms"; "ms"; "om"] (toLowerCase (door_type d))).

Definition hasParcelDoor (f : Frame) : bool :=
  existsb (fun d => countedDoor d
                    && statsParcelDoor (toLowerCase (door_type d)))
    (doors f).

Definition hasTenantDoor (f : Frame) : bool :=
  existsb (fun d => countedDoor d
                    && negb (statsParcelDoor (toLowerCase (door_type d))))
    (doors f).

Definition countFrames (p : Frame -> bool) (fs : list Frame) : Z :=
  Z.of_nat (List.length (filter p fs)).

(* ------------------------------------------------------------------ *)
(** ** Counters of the store ([calculateCounters], line 1047) *)

Record ConfiguratorCounters : Type := mkConfiguratorCounters {
  tenant_doors : Z;
  parcel_doors : Z;
  total_width : Q;
  total_height_ft : Z;
  total_height_in : Z
}.

(** The private [isParcelDoor] of the service (line 1120): an exact,
    case-sensitive membership test. *)
Definition serviceIsParcelDoor (doorType : string) : bool :=
  if String.eqb doorType "" then false
  else includes ["p2"; "p3"; "p4"; "p5"; "p6"; "sp"; "lp"] doorType.

(** The running sums [(tenant_doors, parcel_doors, total_width,
    max_height)]. *)
Record CounterSums : Type := mkCounterSums {
  sum_tenant : Z;
  sum_parcel : Z;
  sum_width : Q;
  sum_max_height : Q
}.

Definition countDoor (a : CounterSums) (door : Door) : CounterSums :=
  if serviceIsParcelDoor (door_type door)
     || serviceIsParcelDoor (match substitute door with
                             | Some v => v
                             | None => ""
                             end)
  then mkCounterSums (sum_tenant a) (sum_parcel a + 1)
         (sum_width a) (sum_max_height a)
  else mkCounterSums (sum_tenant a + 1) (sum_parcel a)
         (sum_width a) (sum_max_height a).

Definition countFrame (a : CounterSums) (f : Frame) : CounterSums :=
  let a1 :=
    mkCounterSums (sum_tenant a) (sum_parcel a)
      (sum_width a + width f)%Q
      (Math_max (sum_max_height a) (bottom f + height f)%Q) in
  fold_left countDoor (doors f) a1.

Definition countWall (a : CounterSums) (w : Wall) : CounterSums :=
  fold_left countFrame (frames w) a.

Definition countLevel (a : CounterSums) (l : Level) : CounterSums :=
  fold_left countWall (walls l) a.

(** [x % 12] for a number [x >= 0]. *)
Definition mod12 (x : Q) : Q := (x - 12 * inject_Z (Qfloor (x / 12)))%Q.

Definition calculateCounters (s : ConfiguratorState) : ConfiguratorCounters :=
  let a := fold_left countLevel (levels s) (mkCounterSums 0 0 0 0) in
  mkConfiguratorCounters (sum_tenant a) (sum_parcel a)
    (inject_Z (Math_round (sum_width a * 10)) / 10)%Q
    (Qfloor (sum_max_height a / 12))
    (Math_round (mod12 (sum_max_height a))).

(** All doors of a store. *)
Definition allDoors (s : ConfiguratorState) : list Door :=
  flat_map (fun l => flat_map (fun w => flat_map doors (frames w)) (walls l))
    (levels s).

(** The doors [calculateCounters] counts as parcel doors. *)
Definition countedAsParcel (door : Door) : bool :=
  serviceIsParcelDoor (door_type door)
  || serviceIsParcelDoor (match substitute door with
                          | Some v => v
                          | None => ""
                          end).

(** A store with one frame, 11.5 inches tall, on its only wall. *)
Definition lowFrameStore : ConfiguratorState :=
  snd (addFrame "t" "f" 0 (mkFrame "" "low" "sd" 17 (23 # 2) 0 0 [])
         INITIAL_STATE).

(* ------------------------------------------------------------------ *)
(** ** The measuring tool ([handleMeasureClick], line 857) *)

(** The fields of the measuring tool: the two points of the measurement in
    progress and the group of completed measurements ([None] is [null],
    outside measuring mode), kept as the end points of the lines drawn. *)
Record MeasureTool : Type := mkMeasureTool {
  measureFirstPoint : option Vector2d;
  measureSecondPoint : option Vector2d;
  completedMeasurements : option (list (Vector2d * Vector2d))
}.

(** [completeMeasurement] (line 889): the line from the first to the second
    point joins the completed measurements. *)
Definition completeMeasurement (m : MeasureTool) : MeasureTool :=
  match measureFirstPoint m, measureSecondPoint m, completedMeasurements m
  with
  | Some p1, Some p2, Some done =>
      mkMeasureTool (Some p1) (Some p2) (Some (done ++ [(p1, p2)]))
  | _, _, _ => m
  end.

(** [resetCurrentMeasurement] (line 741) *)
Definition resetCurrentMeasurement (m : MeasureTool) : MeasureTool :=
  mkMeasureTool None None (completedMeasurements m).

(** [handleMeasureClick] (line 857); the [Math.pow] of the engine, which
    the snap search calls, is a parameter. *)
Definition handleMeasureClick (Math_pow : float -> float -> float)
    (groups : list GroupBox) (pos : Vector2d) (m : MeasureTool)
  : MeasureTool :=
  let p := clickPos Math_pow groups pos in
  match measureFirstPoint m with
  | None =>
      mkMeasureTool (Some p) (measureSecondPoint m) (completedMeasurements m)
  | Some first =>
      match measureSecondPoint m with
      | None =>
          completeMeasurement
            (mkMeasureTool (Some first) (Some p) (completedMeasurements m))
      | Some _ =>
          let m' := resetCurrentMeasurement m in
          mkMeasureTool (Some p) (measureSecondPoint m')
            (completedMeasurements m')
      end
  end.

(** The tool right after [toggleMeasureMode] switched measuring on. *)
Definition measureModeEntered : MeasureTool :=
  mkMeasureTool None None (Some []).

Definition measureClicks (Math_pow : float -> float -> float)
    (groups : list GroupBox) (clicks : list Vector2d) (m : MeasureTool)
  : MeasureTool :=
  fold_left (fun st pos => handleMeasureClick Math_pow groups pos st)
    clicks m.

(** Consecutive pairs of a list; a last element without partner is left
    out. *)
Fixpoint pairUp {A : Type} (l : list A) : list (A * A) :=
  match l with
  | a :: r =>
      match r with
      | b :: r' => (a, b) :: pairUp r'
      | [] => []
      end
  | [] => []
  end.

(* ------------------------------------------------------------------ *)
(** ** The cabinet editor: saving *)

(** The comparator of the [sort] in [onSave] (cabinet-editor-modal
    component, line 1526), as the test [compare(a, b) <= 0]: the left
    column comes before the right one, and within a column the lower
    position first. *)
Definition saveOrder (a b : Door) : bool :=
  if negb (Column_eqb (doorColumn a) (doorColumn b)) then
    match doorColumn a with
    | Left => true
    | Right => false
    end
  else Qle_bool (position a) (position b).

(** [array.sort(compare)]: a stable sort, as an insertion sort from the
    right. *)
Fixpoint insertCmp {A : Type} (le : A -> A -> bool) (a : A) (l : list A)
  : list A :=
  match l with
  | [] => [a]
  | b :: r => if le a b then a :: b :: r else b :: insertCmp le a r
  end.

Definition sortCmp {A : Type} (le : A -> A -> bool) (l : list A) : list A :=
  fold_right (insertCmp le) [] l.

(** [onSave]: the editor afterwards and the frame handed to [save.emit]
    ([None] when the save is refused with an alert). *)
Definition onSave (e : Editor) : Editor * option Frame :=
  if negb (canSave e) then (e, None)
  else
    let ds := denormalizeDoorPositions (doors (frame e)) in
    let e' := with_frame_doors e (sortCmp saveOrder ds) in
    (e', Some (frame e')).

(** A frame six units high whose left column holds a spare parcel door
    (4.5 units) below a single door. *)
Definition spareParcelFrame : Frame :=
  mkFrame "f1" "4C-demo" "sd" 17 21 0 15
    [ mkDoor 0 "SP" None None (Some Left);
      mkDoor 1 "SD" None None (Some Left) ].

(* ------------------------------------------------------------------ *)
(** ** The component: saving an edited cabinet, duplicating a cabinet *)

(** [array.findIndex(p)]; [None] is [-1]. *)
Fixpoint findIndex {A : Type} (p : A -> bool) (l : list A) : option nat :=
  match l with
  | [] => None
  | a :: r => if p a then Some O else option_map S (findIndex p r)
  end.

(** [saveEditedCabinet] (konva-drawer-factory.ts, line 2162): the frame
    with the id of [updatedFrame] is replaced on the active wall. *)
Definition saveEditedCabinet (now : string) (updatedFrame : Frame)
    (s : ConfiguratorState) : ConfiguratorState :=
  match getActiveWall s with
  | None => s
  | Some activeWall =>
      match findIndex (fun f => String.eqb (id f) (id updatedFrame))
              (frames activeWall) with
      | Some index =>
          updateWallFrames now (wall_id activeWall)
            (updateAt index (fun _ => updatedFrame) (frames activeWall)) s
      | None => s
      end
  end.

(** The save scenario: the wall holds the frames A, f1, C; the editor is
    opened on f1, whose left column holds three single doors, and the two
    upper ones are swapped before saving. *)
Definition saveScenarioFrame : Frame :=
  mkFrame "f1" "4C-demo" "sd" 17 (21 # 2) 0 15
    [ mkDoor 0 "sd" None (Some "1") (Some Left);
      mkDoor 1 "sd" None (Some "2") (Some Left);
      mkDoor 2 "sd" None (Some "3") (Some Left);
      mkDoor 0 "td" None (Some "4") (Some Right) ].

Definition saveScenarioStore : ConfiguratorState :=
  updateWallFrames "t0" 0
    [reorderFrame "A"; saveScenarioFrame; reorderFrame "C"] INITIAL_STATE.

Definition saveScenarioEditor : Editor :=
  snd (stateOf (trySwapDoors 0 1 (stateOf (openEditor saveScenarioFrame)))).

(** [duplicateCabinet] (line 2116); [newId] is the value of
    [`frame_${Date.now()}`]. *)
Definition duplicateCabinet (now newId frameId : string)
    (s : ConfiguratorState) : ConfiguratorState :=
  match getActiveWall s with
  | None => s
  | Some activeWall =>
      match find (fun f => String.eqb (id f) frameId) (frames activeWall)
      with
      | None => s
      | Some frameToDuplicate =>
          match findIndex (fun f => String.eqb (id f) frameId)
                  (frames activeWall) with
          | None => s
          | Some frameIndex =>
              let newFrame := with_id frameToDuplicate newId in
              updateWallFrames now (wall_id activeWall)
                (spliceIn (frames activeWall) (Z.of_nat frameIndex + 1)
                   newFrame) s
          end
      end
  end.

(* ------------------------------------------------------------------ *)
(** ** Operations that keep the active pointers valid *)

(** Every operation but [removeWall] on a level that is not the active
    one. *)
Definition keepsPointers (s : ConfiguratorState) (op : StoreOp) : bool :=
  match op with
  | OpRemoveWall levelId _ => levelId =? active_level_id s
  | _ => true
  end.

(* ------------------------------------------------------------------ *)
(** ** The cabinet editor: which units the doors cover *)

(** A slot is taken when it holds a door or belongs to the door below. *)
Definition occupied (sl : Slot) : bool :=
  isSome (slot_door sl) || isOccupiedByAbove sl.

(** The door spans the unit [k]: [position <= k < position + units]. *)
Definition coversUnit (d : Door) (k : Z) : bool :=
  Qle_bool (position d) (inject_Z k)
  && Qltb (inject_Z k) (position d + doorUnits d).

Definition unitCovered (ds : list Door) (k : Z) : bool :=
  existsb (fun d => coversUnit d k) ds.

(** The unit [k] is one of the units the loop of [placeDoorInSlots] visits
    for the door. *)
Definition visitsUnit (d : Door) (k : Z) : bool :=
  existsb (fun i => Qeq_bool (position d + inject_Z i) (inject_Z k))
    (countUpTo (doorUnits d)).

(* ------------------------------------------------------------------ *)
(** ** The cabinet editor: opening and saving without an edit *)

(** The doors of a column stacked from the unit [u] upwards: each door is
    moved to the running unit, which then grows by its units. *)
Fixpoint stack (u : Q) (l : list Door) : list Door :=
  match l with
  | [] => []
  | d :: r => with_position d u :: stack (u + doorUnits d)%Q r
  end.

(** The positions of the doors of a column as the store keeps them: the
    index of the door in its column, [0, 1, 2, ...] in array order. *)
Definition sequentialPositions (l : list Door) : Prop :=
  map position l
  = map (fun i => inject_Z (Z.of_nat i)) (seq 0 (List.length l)).


(* ================================================================== *)
(** * Properties *)
(* ================================================================== *)

(** ** The state store *)

Lemma reachable_runOps : forall now ops s,
  reachable s -> reachable (runOps now ops s).
Proof.
  intros now ops; induction ops as [|op ops IH]; intros s Hs; simpl.
  - exact Hs.
  - apply IH. now constructor.
Qed.

Lemma orZero_Some : forall v, orZero (Some v) = v.
Proof.
  intros v; unfold orZero. destruct (Z.eqb_spec v 0); congruence.
Qed.

Lemma find_filter_other : forall (keep : Level -> bool) (i : Z) (ls : list Level),
  (forall l, level_id l = i -> keep l = true) ->
  find (fun l => level_id l =? i) (filter keep ls)
  = find (fun l => level_id l =? i) ls.
Proof.
  intros keep i ls Hk; induction ls as [|l ls IH]; simpl; [reflexivity|].
  destruct (Z.eqb_spec (level_id l) i) as [E|E].
  - rewrite (Hk l E). simpl. now rewrite (proj2 (Z.eqb_eq _ _) E).
  - destruct (keep l); simpl; [|exact IH].
    now rewrite (proj2 (Z.eqb_neq _ _) E).
Qed.

Lemma find_level_In : forall i ls l,
  find (fun l => level_id l =? i) ls = Some l -> In l ls /\ level_id l = i.
Proof.
  intros i ls l H. apply find_some in H. destruct H as [Hin He].
  split; [exact Hin|]. now apply Z.eqb_eq.
Qed.

(** With unique level ids, looking a level up by its id finds that level. *)
Lemma getLevel_of_member : forall s L,
  NoDup (map level_id (levels s)) -> In L (levels s) ->
  getLevel s (level_id L) = Some L.
Proof.
  intros s L. unfold getLevel. induction (levels s) as [|l ls IH]; simpl.
  - intros _ [].
  - intros Hnd [E|Hin].
    + subst l. now rewrite Z.eqb_refl.
    + inversion Hnd as [|x xs Hnotin Hnd']; subst.
      destruct (Z.eqb_spec (level_id l) (level_id L)) as [E|E].
      * exfalso. apply Hnotin. rewrite E. now apply in_map.
      * now apply IH.
Qed.

(** C9.  Removing a wall from a level that has exactly one wall returns
    [false] and leaves the whole state (so also that level's wall list)
    exactly as it was, whatever wall id is passed. *)
Theorem removeWall_only_wall_rejected :
  forall (now : string) (s : ConfiguratorState) (L : Level) (w : Z),
    getLevel s (level_id L) = Some L ->
    List.length (walls L) = 1%nat ->
    removeWall now (level_id L) w s = Ok (false, s).
Proof.
  intros now s L w Hget Hlen. unfold removeWall.
  unfold getLevel in Hget. rewrite Hget, Hlen. reflexivity.
Qed.

Lemma removeWall_only_wall_rejected_witness :
  getLevel INITIAL_STATE 0 = Some (mkLevel 0 "Level 1" [mkWall 0 "Wall 1" []] (Some true))
  /\ removeWall "now" 0 0 INITIAL_STATE = Ok (false, INITIAL_STATE).
Proof.
  split; [reflexivity|].
  exact (@removeWall_only_wall_rejected "now" INITIAL_STATE
           (mkLevel 0 "Level 1" [mkWall 0 "Wall 1" []] (Some true)) 0
           eq_refl eq_refl).
Defined.

(** The same boundary for a level picked out of a store whose level ids are
    unique, as the data model requires. *)
Corollary removeWall_only_wall_rejected_member :
  forall now s L w,
    NoDup (map level_id (levels s)) -> In L (levels s) ->
    List.length (walls L) = 1%nat ->
    removeWall now (level_id L) w s = Ok (false, s).
Proof.
  intros now s L w Hnd Hin Hlen.
  unfold removeWall.
  pose proof (getLevel_of_member s L Hnd Hin) as Hget.
  unfold getLevel in Hget. rewrite Hget, Hlen. reflexivity.
Qed.

(** [removeLevel] succeeds exactly when the level is not level 0 and more
    than one level is present, provided the level is not the active one. *)
Lemma removeLevel_inactive_success : forall now L s,
  L <> 0 -> (2 <= List.length (levels s))%nat -> L <> active_level_id s ->
  exists s', removeLevel now L s = Ok (true, s').
Proof.
  intros now L s H0 Hlen Hact. unfold removeLevel.
  rewrite (proj2 (Z.eqb_neq _ _) H0).
  destruct (Z.leb_spec (Z.of_nat (List.length (levels s))) 1); [lia|].
  rewrite (proj2 (Z.eqb_neq (active_level_id s) L)) by congruence.
  simpl. eexists; reflexivity.
Qed.

(** C10.  A successful [removeLevel L] with [L] not the active level keeps
    [active_level_id] and the active level itself, and rewrites
    [active_wall_id] to the id of the first wall of the active level: if the
    active wall was another wall of that level, a different wall is active
    afterwards although nothing active was deleted. *)
Theorem removeLevel_inactive_resets_active_wall :
  forall (now : string) (s s' : ConfiguratorState) (L : Z)
         (lv : Level) (w : Wall) (ws : list Wall),
    (2 <= List.length (levels s))%nat ->
    removeLevel now L s = Ok (true, s') ->
    L <> active_level_id s ->
    getActiveLevel s = Some lv ->
    walls lv = w :: ws ->
    active_level_id s' = active_level_id s
    /\ getActiveLevel s' = Some lv
    /\ active_wall_id s' = wall_id w
    /\ (active_wall_id s <> wall_id w ->
        active_wall_id s' <> active_wall_id s).
Proof.
  intros now s s' L lv w ws Hlen Hrm Hact Hlv Hw.
  unfold removeLevel in Hrm.
  destruct (L =? 0); [discriminate|].
  destruct (Z.of_nat (List.length (levels s)) <=? 1); [discriminate|].
  rewrite (proj2 (Z.eqb_neq (active_level_id s) L)) in Hrm by congruence.
  simpl in Hrm.
  assert (Hfind :
    find (fun l => level_id l =? active_level_id s)
         (filter (fun l => negb (level_id l =? L)) (levels s)) = Some lv).
  { rewrite find_filter_other; [exact Hlv|].
    intros l El. apply negb_true_iff, Z.eqb_neq. congruence. }
  rewrite Hfind in Hrm. simpl in Hrm. rewrite Hw in Hrm.
  rewrite orZero_Some in Hrm.
  injection Hrm as <-.
  unfold getActiveLevel, getLevel. simpl.
  repeat split; try assumption.
  intros Hne. congruence.
Qed.

Lemma removeLevel_inactive_resets_active_wall_witness :
  let s := runOps "t" [OpAddWall 0; OpSetActiveWall 1; OpAddLevel]
             INITIAL_STATE in
  let s' := match removeLevel "t" 1 s with
            | Ok (_, st) => st
            | Throw => s
            end in
  active_level_id s = 0 /\ active_wall_id s = 1
  /\ removeLevel "t" 1 s = Ok (true, s')
  /\ active_level_id s' = 0 /\ active_wall_id s' = 0.
Proof.
  intros s s'.
  assert (Hrm : removeLevel "t" 1 s = Ok (true, s'))
    by (vm_compute; reflexivity).
  split; [reflexivity|]. split; [reflexivity|]. split; [exact Hrm|].
  destruct (@removeLevel_inactive_resets_active_wall "t" s s' 1
              (mkLevel 0 "Level 1" [mkWall 0 "Wall 1" []; mkWall 1 "" []]
                 (Some true))
              (mkWall 0 "Wall 1" []) [mkWall 1 "" []]
              ltac:(vm_compute; repeat constructor) Hrm
              ltac:(vm_compute; discriminate)
              ltac:(vm_compute; reflexivity) ltac:(vm_compute; reflexivity))
    as (H1 & _ & H3 & _).
  split; [exact H1 | exact H3].
Defined.

(** C1 (the invariant does not hold on the code).  After adding a second
    level, giving it a second wall and removing that wall again, the store
    is in a reachable state whose active level is still level 0 while the
    active wall has become wall 1, a wall of level 1: [removeWall] looks
    for the active wall in the level it edited, not in the active level. *)
Theorem removeWall_other_level_breaks_active_wall :
  let s := runOps "t" [OpAddLevel; OpAddWall 1; OpRemoveWall 1 2]
             INITIAL_STATE in
  reachable s
  /\ active_level_id s = 0
  /\ active_wall_id s = 1
  /\ getWall s 0 1 = None
  /\ (exists wl, getWall s 1 1 = Some wl)
  /\ activePointersValid s = false.
Proof.
  cbv zeta. split.
  - apply reachable_runOps. constructor.
  - repeat split; try reflexivity. eexists; reflexivity.
Qed.

(** *** The active level pointer *)

Lemma getLevel_In_ids : forall s i,
  In i (levelIds s) <-> exists l, getLevel s i = Some l.
Proof.
  intros s i. unfold levelIds, getLevel. split.
  - intros H. apply in_map_iff in H. destruct H as (lv & E & Hin).
    destruct (find (fun x => level_id x =? i) (levels s)) as [lv'|] eqn:F.
    + now exists lv'.
    + exfalso. apply (find_none _ _ F) in Hin.
      apply Z.eqb_neq in Hin. congruence.
  - intros [lv H]. apply find_some in H. destruct H as [Hin E].
    apply Z.eqb_eq in E. apply in_map_iff. now exists lv.
Qed.

Lemma mapWalls_ids : forall f ls,
  map level_id (mapWalls f ls) = map level_id ls.
Proof.
  intros f ls. unfold mapWalls. rewrite map_map. reflexivity.
Qed.

Lemma mapR_ids : forall (f : Level -> result Level) ls ls',
  (forall a b, f a = Ok b -> level_id b = level_id a) ->
  mapR f ls = Ok ls' -> map level_id ls' = map level_id ls.
Proof.
  intros f ls; induction ls as [|a ls IH]; intros ls' Hf H; simpl in H.
  - injection H as <-. reflexivity.
  - destruct (f a) as [b|] eqn:Ea; simpl in H; [|discriminate].
    destruct (mapR f ls) as [bs|] eqn:Er; simpl in H; [|discriminate].
    injection H as <-. simpl. rewrite (Hf a b Ea). f_equal. now apply IH.
Qed.

Lemma filter_ids_In : forall L i ls,
  i <> L -> In i (map level_id ls) ->
  In i (map level_id (filter (fun l => negb (level_id l =? L)) ls)).
Proof.
  intros L i ls Hne H. apply in_map_iff in H. destruct H as (l & E & Hin).
  apply in_map_iff. exists l. split; [exact E|].
  apply filter_In. split; [exact Hin|].
  apply negb_true_iff, Z.eqb_neq. congruence.
Qed.

(** Every call on the store keeps level 0 and keeps the active level
    pointer on an existing level. *)
Lemma applyOp_keeps_active_level : forall now op s,
  activeLevelKept s -> activeLevelKept (applyOp now op s).
Proof.
  intros now op s [H0 Ha]. unfold activeLevelKept, levelIds in *.
  destruct op as [|L|L|L w|L|w|i w f|w f]; cbn [applyOp].
  - (* addLevel *)
    unfold addLevel; simpl. rewrite map_app.
    split; apply in_or_app; now left.
  - (* removeLevel *)
    unfold removeLevel.
    destruct (Z.eqb_spec L 0) as [E0|N0]; [now split|].
    destruct (Z.of_nat (List.length (levels s)) <=? 1); [now split|].
    assert (K0 : In 0 (map level_id
                         (filter (fun l => negb (level_id l =? L)) (levels s))))
      by (apply filter_ids_In; [congruence|exact H0]).
    destruct (Z.eqb_spec (active_level_id s) L) as [Ea|Na].
    + destruct (filter (fun l => negb (level_id l =? L)) (levels s))
        as [|l0 rest] eqn:F; simpl; [now split|].
      split; [exact K0|]. now left.
    + simpl. split; [exact K0|]. apply filter_ids_In; [exact Na|exact Ha].
  - (* addWall *)
    unfold addWall.
    destruct (find (fun l => level_id l =? L) (levels s)) as [found|];
      [|now split].
    simpl. rewrite map_map.
    assert (E : map (fun x => level_id
                       (if level_id x =? L
                        then with_walls x (walls x ++ [mkWall (nextId (allWallIds (levels s))) "" []])
                        else x)) (levels s)
                = map level_id (levels s)).
    { apply map_ext. intros lv. now destruct (level_id lv =? L). }
    rewrite E. now split.
  - (* removeWall *)
    unfold removeWall.
    destruct (find (fun l => level_id l =? L) (levels s)) as [lv|];
      [|now split].
    destruct (Z.of_nat (List.length (walls lv)) <=? 1); [now split|].
    match goal with
    | |- context [mapR ?f (levels s)] =>
        destruct (mapR f (levels s)) as [ls'|] eqn:Em
    end; simpl; [|now split].
    apply mapR_ids in Em.
    + rewrite Em. now split.
    + intros a b Hab. destruct (level_id a =? L); [|congruence].
      destruct (active_wall_id s =? w);
        [destruct (filter _ (walls a)); simpl in Hab; [discriminate|]|];
        simpl in Hab; injection Hab as <-; reflexivity.
  - (* setActiveLevel *)
    unfold setActiveLevel.
    destruct (getLevel s L) as [lv|] eqn:E; [|now split].
    simpl. split; [exact H0|].
    apply (getLevel_In_ids s L). now exists lv.
  - (* setActiveWall *)
    unfold setActiveWall.
    destruct (findLevelOfWall w (levels s)) as [lv|] eqn:E; [|now split].
    simpl. split; [exact H0|].
    unfold findLevelOfWall in E. apply find_some in E.
    apply in_map_iff. exists lv. tauto.
  - (* addFrame *)
    unfold addFrame; simpl. rewrite mapWalls_ids. now split.
  - (* removeFrame *)
    unfold removeFrame; simpl. rewrite mapWalls_ids. now split.
Qed.

(** The half of the pointer invariant that does hold: in every reachable
    state [active_level_id] names an existing level. *)
Lemma reachable_active_level_exists : forall s,
  reachable s -> exists l, getActiveLevel s = Some l.
Proof.
  intros s Hr.
  assert (K : activeLevelKept s).
  { induction Hr as [|now op s Hr IH].
    - split; simpl; now left.
    - now apply applyOp_keeps_active_level. }
  destruct K as [_ Ha]. now apply getLevel_In_ids.
Qed.

(** ** Project snapshots *)

Lemma orKeep_truthy : forall o c,
  truthy o = true -> Some (orKeep o c) = o.
Proof.
  intros [v|] c H; simpl in *; [|discriminate].
  destruct (String.eqb v ""); [discriminate|reflexivity].
Qed.

Lemma orKeepOpt_valid : forall o c,
  absentOrTruthy o = true -> (o = None -> c = None) -> orKeepOpt o c = o.
Proof.
  intros [v|] c H Hc; unfold orKeepOpt; simpl in *.
  - now rewrite H.
  - now rewrite Hc.
Qed.

(** C6 (as the claim states it, refuted).  The snapshot exported from the
    initial store is well formed and has no [depotColor]; loaded into a store
    whose configuration carries a depot colour and exported again, it comes
    back with that colour. *)
Lemma load_export_keeps_stale_depot_color :
  let x := exportStateForProject INITIAL_STATE in
  let s := updateConfig_depot_color "t" "Bronze" INITIAL_STATE in
  validSnapshot x = true
  /\ depotColor x = None
  /\ depotColor (exportStateForProject (loadStateFromProject x s))
     = Some "Bronze"
  /\ exportStateForProject (loadStateFromProject x s) <> x.
Proof.
  cbv zeta. repeat split; try reflexivity.
  intros H. apply (f_equal depotColor) in H. discriminate H.
Qed.

(** The common argument of the round-trip results: split the validity
    check into its conjuncts, take the snapshot apart and let each loaded
    field fall back on the snapshot's own value. *)
Ltac roundtrip_fields Hv :=
  unfold validSnapshot in Hv;
  repeat (apply andb_true_iff in Hv; destruct Hv as [Hv ?]);
  match goal with
  | |- context [loadStateFromProject ?x _] =>
      destruct x as [[[|l ls]|] [al|] [aw|] it kv kn dc am dm apm dt df lt
                     ts ps [cna|] [mm|]]
  end;
  simpl in *; try discriminate;
  unfold exportStateForProject, loadStateFromProject; simpl;
  rewrite !orKeep_truthy by assumption.

(** C6 (amended).  Loading a well-formed snapshot and exporting the store
    again returns the snapshot, provided the optional configuration strings
    the snapshot leaves out ([depotColor], [doorIdFont]) are also absent from
    the configuration the store holds when the snapshot is loaded. *)
Theorem export_load_roundtrip :
  forall (x : ProjectSnapshot) (s : ConfiguratorState),
    validSnapshot x = true ->
    (depotColor x = None -> depot_color (config s) = None) ->
    (doorIdFont x = None -> door_id_font (config s) = None) ->
    exportStateForProject (loadStateFromProject x s) = x.
Proof.
  intros x s Hv Hd Hf.
  roundtrip_fields Hv.
  rewrite !orKeepOpt_valid by assumption.
  replace (0 <? Z.pos (Pos.of_succ_nat (List.length ls))) with true
    by (symmetry; apply Z.ltb_lt; lia).
  reflexivity.
Qed.

Lemma export_load_roundtrip_witness :
  exportStateForProject
    (loadStateFromProject (exportStateForProject INITIAL_STATE) INITIAL_STATE)
  = exportStateForProject INITIAL_STATE.
Proof.
  exact (@export_load_roundtrip (exportStateForProject INITIAL_STATE)
           INITIAL_STATE eq_refl (fun _ => eq_refl) (fun _ => eq_refl)).
Defined.

(** After [resetForNewProject] the store holds the default configuration,
    which has neither optional string: every well-formed snapshot
    round-trips through a freshly reset store. *)
Corollary export_load_roundtrip_after_reset :
  forall now x s,
    validSnapshot x = true ->
    exportStateForProject
      (loadStateFromProject x (resetForNewProject now s)) = x.
Proof.
  intros now x s Hv.
  roundtrip_fields Hv.
  rewrite !orKeepOpt_valid by (assumption || reflexivity).
  replace (0 <? Z.pos (Pos.of_succ_nat (List.length ls))) with true
    by (symmetry; apply Z.ltb_lt; lia).
  reflexivity.
Qed.

(** ** Auto numbering *)

Lemma countDoors_cons : forall p d ds,
  countDoors p (d :: ds) = (if p d then 1 else 0) + countDoors p ds.
Proof.
  intros p d ds. unfold countDoors. cbn [filter].
  destruct (p d); [|lia].
  cbn [List.length]. rewrite Nat2Z.inj_succ. lia.
Qed.

Lemma processDoor_counters : forall c d,
  fst (processDoor c d)
  = mkCounters
      (tenantCounter c + (if takesTenantNumber (fun _ => true) d then 1 else 0))
      (parcelCounter c + (if takesParcelNumber (fun _ => true) d then 1 else 0)).
Proof.
  intros [t p] d. unfold processDoor, takesTenantNumber, takesParcelNumber.
  simpl.
  destruct (isSkippedDoor (toLowerCase (door_type d))); simpl.
  - f_equal; lia.
  - destruct (isParcelDoor (toLowerCase (door_type d))); simpl; f_equal; lia.
Qed.

(** After a pass over a column both counters have advanced by the number of
    doors that took a number of their kind. *)
Lemma processDoors_counters : forall sel ds c,
  fst (processDoors sel c ds)
  = mkCounters (tenantCounter c + countDoors (takesTenantNumber sel) ds)
               (parcelCounter c + countDoors (takesParcelNumber sel) ds).
Proof.
  intros sel ds; induction ds as [|d ds IH]; intros c.
  - destruct c; simpl. unfold countDoors; simpl. f_equal; lia.
  - rewrite !countDoors_cons. simpl.
    unfold takesTenantNumber at 1, takesParcelNumber at 1.
    destruct (sel d) eqn:Es.
    + pose proof (processDoor_counters c d) as Hc.
      destruct (processDoor c d) as [c1 d'] eqn:E1.
      specialize (IH c1).
      destruct (processDoors sel c1 ds) as [c2 r'] eqn:E2.
      simpl in *. rewrite IH, Hc. simpl.
      unfold takesTenantNumber, takesParcelNumber. simpl.
      f_equal; lia.
    + specialize (IH c).
      destruct (processDoors sel c ds) as [c2 r'] eqn:E2.
      simpl in *. rewrite IH. f_equal; lia.
Qed.

(** The door that follows a prefix [pre] of the array is numbered with the
    counters advanced by the doors of [pre]. *)
Lemma processDoors_nth : forall sel pre d post c,
  nth_error (snd (processDoors sel c (pre ++ d :: post))) (List.length pre)
  = Some (if sel d
          then snd (processDoor
                      (mkCounters
                         (tenantCounter c
                          + countDoors (takesTenantNumber sel) pre)
                         (parcelCounter c
                          + countDoors (takesParcelNumber sel) pre)) d)
          else d).
Proof.
  intros sel pre; induction pre as [|x pre IH]; intros d post c.
  - simpl. unfold countDoors; simpl. rewrite !Z.add_0_r.
    destruct c as [t p]; simpl.
    destruct (sel d).
    + destruct (processDoor (mkCounters t p) d) as [c1 d'].
      destruct (processDoors sel c1 post) as [c2 r']. reflexivity.
    + destruct (processDoors sel (mkCounters t p) post) as [c2 r'].
      reflexivity.
  - simpl. rewrite !countDoors_cons.
    unfold takesTenantNumber at 1, takesParcelNumber at 1.
    destruct (sel x) eqn:Ex.
    + pose proof (processDoor_counters c x) as Hc.
      destruct (processDoor c x) as [c1 x'] eqn:E1.
      specialize (IH d post c1).
      destruct (processDoors sel c1 (pre ++ d :: post)) as [c2 r'] eqn:E2.
      simpl in *. rewrite IH. rewrite Hc. simpl.
      unfold takesTenantNumber, takesParcelNumber. simpl.
      rewrite !Z.add_assoc. reflexivity.
    + specialize (IH d post c).
      destruct (processDoors sel c (pre ++ d :: post)) as [c2 r'] eqn:E2.
      simpl in *. rewrite IH. reflexivity.
Qed.

(** C7.  With [tenantStart = 101] and [parcelStart = 1] a wall with one
    frame whose left column is [sd], [p2], [sd] is labelled ["101"], ["1P"],
    ["102"]; in general a numbered tenant door receives the decimal tenant
    counter and a numbered parcel door the parcel counter followed by [P],
    each counter having advanced by one per earlier door of its kind; the
    catalogue's tenant and parcel categories fall on the matching side of
    the classifier. *)
Theorem autoNumbering_labels :
  wallLabels
    (getActiveWall (fst (updateAutoNumbering "t" 101 1 numberingScenarioStore)))
  = [[Some "101"; Some "1P"; Some "102"]]
  /\ snd (updateAutoNumbering "t" 101 1 numberingScenarioStore) = Some 103
  /\ (forall sel pre d post c,
        option_map label
          (nth_error (snd (processDoors sel c (pre ++ d :: post)))
             (List.length pre))
        = Some
            (if takesTenantNumber sel d then
               Some (String_of_number
                       (tenantCounter c
                        + countDoors (takesTenantNumber sel) pre))
             else if takesParcelNumber sel d then
               Some (String_of_number
                       (parcelCounter c
                        + countDoors (takesParcelNumber sel) pre) ++ "P")%string
             else if sel d then None
             else label d))
  /\ (forall sel ds c,
        fst (processDoors sel c ds)
        = mkCounters (tenantCounter c + countDoors (takesTenantNumber sel) ds)
                     (parcelCounter c + countDoors (takesParcelNumber sel) ds))
  /\ forallb categoryMatchesNumbering DOOR_CONFIGS = true.
Proof.
  split; [vm_compute; reflexivity|].
  split; [vm_compute; reflexivity|].
  split; [|split; [exact processDoors_counters | vm_compute; reflexivity]].
  intros sel pre d post c. rewrite processDoors_nth. simpl.
  unfold takesTenantNumber, takesParcelNumber, processDoor.
  destruct (sel d); simpl; [|reflexivity].
  destruct (isSkippedDoor (toLowerCase (door_type d))); simpl; [reflexivity|].
  destruct (isParcelDoor (toLowerCase (door_type d))); reflexivity.
Qed.

(** ** Comparing rationals *)

Lemma Qltb_lt : forall a b, Qltb a b = true <-> (a < b)%Q.
Proof.
  intros a b. unfold Qltb. rewrite negb_true_iff.
  split; intros H.
  - apply Qnot_le_lt. intros Hle. apply Qle_bool_iff in Hle. congruence.
  - destruct (Qle_bool b a) eqn:E; [|reflexivity].
    apply Qle_bool_iff in E. exfalso. exact (Qlt_not_le _ _ H E).
Qed.

Lemma Qltb_ge : forall a b, Qltb a b = false <-> (b <= a)%Q.
Proof.
  intros a b. unfold Qltb. rewrite negb_false_iff. apply Qle_bool_iff.
Qed.

(** ** The order of binary64 numbers *)

(** [<] and [<=] on doubles compare sign, exponent and mantissa and are
    false as soon as one side is not a number; what the snap loop needs of
    them is proved on their specification. *)
Ltac order_cases :=
  repeat match goal with
    | H : context [Z.compare ?a ?b] |- _ =>
        destruct (Z.compare_spec a b); try discriminate
    | |- context [Z.compare ?a ?b] =>
        destruct (Z.compare_spec a b); try discriminate
    | H : context [Pos.compare_cont Eq ?a ?b] |- _ =>
        change (Pos.compare_cont Eq a b) with (Pos.compare a b) in *;
        destruct (Pos.compare_spec a b); try discriminate
    | |- context [Pos.compare_cont Eq ?a ?b] =>
        change (Pos.compare_cont Eq a b) with (Pos.compare a b) in *;
        destruct (Pos.compare_spec a b); try discriminate
    end;
  subst; simpl in *; try discriminate; try reflexivity; try lia.

Lemma SFltb_irrefl : forall a, SFltb a a = false.
Proof.
  intros [s|s| |s m e]; unfold SFltb; simpl; try reflexivity.
  - now destruct s.
  - destruct s; rewrite Z.compare_refl;
      change (Pos.compare_cont Eq m m) with (Pos.compare m m);
      now rewrite Pos.compare_refl.
Qed.

Lemma SFltb_trans : forall a b c,
  SFltb a b = true -> SFltb b c = true -> SFltb a c = true.
Proof.
  intros [sa|sa| |sa ma ea] [sb|sb| |sb mb eb] [sc|sc| |sc mc ec];
    unfold SFltb; simpl; intros H1 H2; try discriminate; try reflexivity;
    try (destruct sa); try (destruct sb); try (destruct sc);
    simpl in *; try discriminate; try reflexivity; order_cases.
Qed.

Lemma SFleb_ltb_trans : forall a b c,
  SFleb a b = true -> SFltb b c = true -> SFltb a c = true.
Proof.
  intros [sa|sa| |sa ma ea] [sb|sb| |sb mb eb] [sc|sc| |sc mc ec];
    unfold SFleb, SFltb; simpl; intros H1 H2;
    try discriminate; try reflexivity;
    try (destruct sa); try (destruct sb); try (destruct sc);
    simpl in *; try discriminate; try reflexivity; order_cases.
Qed.

Lemma SFltb_leb : forall a b, SFltb a b = true -> SFleb a b = true.
Proof.
  intros a b. unfold SFltb, SFleb.
  now destruct (SFcompare a b) as [[| |]|].
Qed.

Lemma ltb_irrefl : forall a : float, (a <? a)%float = false.
Proof. intros a. rewrite ltb_spec. apply SFltb_irrefl. Qed.

Lemma ltb_trans : forall a b c : float,
  (a <? b)%float = true -> (b <? c)%float = true -> (a <? c)%float = true.
Proof. intros a b c. rewrite !ltb_spec. apply SFltb_trans. Qed.

Lemma leb_ltb_trans : forall a b c : float,
  (a <=? b)%float = true -> (b <? c)%float = true -> (a <? c)%float = true.
Proof. intros a b c. rewrite leb_spec, !ltb_spec. apply SFleb_ltb_trans. Qed.

Lemma ltb_leb : forall a b : float,
  (a <? b)%float = true -> (a <=? b)%float = true.
Proof. intros a b. rewrite leb_spec, ltb_spec. apply SFltb_leb. Qed.

(** What is not below [c] is not at or below anything that is below
    [c]. *)
Lemma not_ltb_not_leb : forall a b c : float,
  (a <? c)%float = false -> (b <? c)%float = true ->
  (a <=? b)%float = false.
Proof.
  intros a b c Ha Hb. destruct (a <=? b)%float eqn:E; [|reflexivity].
  rewrite (leb_ltb_trans E Hb) in Ha. discriminate.
Qed.

(** ** Snap points *)

Section SnapLoop.

Variable Math_pow : float -> float -> float.

Lemma snapStep_inv : forall pos bound seen acc point,
  snapInv Math_pow pos bound seen acc ->
  snapInv Math_pow pos bound (seen ++ [point])
    (snapStep Math_pow pos acc point).
Proof.
  intros pos bound seen [best m] point Hinv.
  unfold snapInv, snapStep in *. cbn [fst snd] in *.
  destruct (snapDistance Math_pow pos point <? m)%float eqn:E;
    cbn [fst snd].
  - destruct best as [p|].
    + destruct Hinv as (-> & Hlt & before & after & -> & Hb & Ha).
      split; [reflexivity|]. split; [exact (ltb_trans E Hlt)|].
      exists (before ++ p :: after), []. split; [reflexivity|].
      split; [|intros q []].
      intros q Hq. apply in_app_or in Hq. destruct Hq as [Hq|[<-|Hq]].
      * destruct (snapDistance Math_pow pos q
                  <=? snapDistance Math_pow pos point)%float
          eqn:L; [|reflexivity].
        pose proof (ltb_leb (leb_ltb_trans L E)) as K.
        rewrite (Hb q Hq) in K. discriminate.
      * exact (not_ltb_not_leb (ltb_irrefl _) E).
      * exact (not_ltb_not_leb (Ha q Hq) E).
    + destruct Hinv as (-> & Hall).
      split; [reflexivity|]. split; [exact E|].
      exists seen, []. split; [reflexivity|]. split; [|intros q []].
      intros q Hq. exact (not_ltb_not_leb (Hall q Hq) E).
  - destruct best as [p|].
    + destruct Hinv as (-> & Hlt & before & after & -> & Hb & Ha).
      split; [reflexivity|]. split; [exact Hlt|].
      exists before, (after ++ [point]).
      split; [now rewrite <- app_assoc|]. split; [exact Hb|].
      intros q Hq. apply in_app_or in Hq.
      destruct Hq as [Hq|[<-|[]]]; [exact (Ha q Hq)|exact E].
    + destruct Hinv as (-> & Hall). split; [reflexivity|].
      intros q Hq. apply in_app_or in Hq.
      destruct Hq as [Hq|[<-|[]]]; [exact (Hall q Hq)|exact E].
Qed.

Lemma snapLoop_inv : forall pos bound points seen acc,
  snapInv Math_pow pos bound seen acc ->
  snapInv Math_pow pos bound (seen ++ points)
    (fold_left (snapStep Math_pow pos) points acc).
Proof.
  intros pos bound points; induction points as [|p points IH];
    intros seen acc Hinv; simpl.
  - now rewrite app_nil_r.
  - replace (seen ++ p :: points) with ((seen ++ [p]) ++ points)
      by (rewrite <- app_assoc; reflexivity).
    apply IH. now apply snapStep_inv.
Qed.

(** What [findNearestSnapPoint] returns: a candidate closer than the
    threshold such that every candidate before it in the array is farther
    away (or its distance is not a number) and no candidate after it is
    closer; nothing, when no candidate is closer than the threshold. *)
Lemma findNearestSnapPoint_spec : forall pos points,
  match findNearestSnapPoint Math_pow pos points with
  | Some v =>
      exists before p after,
        points = before ++ p :: after
        /\ v = mkVector2d (snap_x p) (snap_y p)
        /\ (snapDistance Math_pow pos p <? SNAP_THRESHOLD)%float = true
        /\ (forall q, In q before ->
              (snapDistance Math_pow pos q
               <=? snapDistance Math_pow pos p)%float = false)
        /\ (forall q, In q after ->
              (snapDistance Math_pow pos q
               <? snapDistance Math_pow pos p)%float = false)
  | None =>
      forall q, In q points ->
        (snapDistance Math_pow pos q <? SNAP_THRESHOLD)%float = false
  end.
Proof.
  intros pos points. unfold findNearestSnapPoint.
  assert (H0 : snapInv Math_pow pos SNAP_THRESHOLD []
                 (None, SNAP_THRESHOLD)).
  { split; [reflexivity|intros q []]. }
  apply (@snapLoop_inv pos SNAP_THRESHOLD points) in H0. cbn [app] in H0.
  destruct (fold_left (snapStep Math_pow pos) points (None, SNAP_THRESHOLD))
    as [best m].
  unfold snapInv in H0. cbn [fst snd] in *.
  destruct best as [p|].
  - destruct H0 as (_ & Hlt & before & after & E & Hb & Ha).
    exists before, p, after. repeat split; auto.
  - exact (proj2 H0).
Qed.

(** The loop reads of [Math.pow] nothing but the distances of the
    candidates: two engines that agree on those find the same point. *)
Lemma findNearestSnapPoint_distances : forall Math_pow' pos points,
  Forall (fun p => snapDistance Math_pow pos p
                   = snapDistance Math_pow' pos p) points ->
  findNearestSnapPoint Math_pow pos points
  = findNearestSnapPoint Math_pow' pos points.
Proof.
  intros Math_pow' pos points H. unfold findNearestSnapPoint.
  generalize (@None SnapPoint, SNAP_THRESHOLD).
  induction H as [|p r Hp _ IH]; intros acc; [reflexivity|].
  cbn [fold_left]. unfold snapStep at 2 4. rewrite Hp. apply IH.
Qed.

(** Where the differences of the coordinates are small whole numbers, the
    distance is the one an engine that multiplies computes. *)
Lemma snapDistance_whole : forall pos p,
  squaresSmallWholeNumbers Math_pow ->
  smallWholeNumber (vec_x pos - snap_x p) = true ->
  smallWholeNumber (vec_y pos - snap_y p) = true ->
  snapDistance Math_pow pos p = snapDistance squareByProduct pos p.
Proof.
  intros pos p H Hx Hy. unfold snapDistance, squareByProduct.
  now rewrite (H _ Hx), (H _ Hy).
Qed.

End SnapLoop.

(** A scenario on small whole numbers is decided by evaluation. *)
Ltac snap_scenario H :=
  unfold snapCursor;
  rewrite (@findNearestSnapPoint_distances _ squareByProduct);
  [ vm_compute; reflexivity
  | unfold allSnapPoints; cbn [flat_map];
    unfold getSnapPointsForGroup; cbn [app];
    repeat first [ apply Forall_nil | apply Forall_cons ];
    (apply snapDistance_whole;
     [ exact H | vm_compute; reflexivity | vm_compute; reflexivity ]) ].

(** C8.  Every frame box yields nine snap points: its four corners, the
    midpoints of its four edges and its centre, at the coordinates that
    [x], [y], [width] and [height] give them, so a layer of [n] frames
    yields [9 n] candidates.  Distances are the ones the code computes, in
    doubles, with the [Math.pow] of the engine.  The snap found for a
    cursor is a candidate of some frame that is closer than the 30 pixel
    threshold; every candidate before it in the array is farther away (or
    its distance is not a number) and none after it is closer, so it is
    nearest among the candidates of all frames, the first one of equally
    near ones; there is no snap exactly when no candidate is closer than
    30 pixels.  With a [Math.pow] that squares small whole numbers
    exactly, for the box at (50, 100), 102 wide and 126 high: the cursor
    (35, 80), 25 pixels from the top-left corner, snaps to that corner, and
    the cursor (29, 72), 35 pixels from it, does not snap; the cursors
    (167, 246) and (173, 254) do the same at the bottom-right corner
    (152, 226); with a second box next to the first, a cursor near the
    bottom midpoint of the second box snaps there; and in a box of 40 by
    40 at the origin the cursor (10, 10), equally far from the corner
    (0, 0), two edge midpoints and the centre, snaps to the corner, the
    first of the four in the array. *)
Theorem snap_points_nearest :
  forall (Math_pow : float -> float -> float)
         (groups : list GroupBox) (group : GroupBox) (pos : Vector2d),
    (let left := box_x group in
     let right := (box_x group + box_width group)%float in
     let midX := (box_x group + box_width group / 2)%float in
     let top := box_y group in
     let bottom := (box_y group + box_height group)%float in
     let midY := (box_y group + box_height group / 2)%float in
     let points := getSnapPointsForGroup group in
     List.length points = 9%nat
     /\ pointsOfType Corner points
        = [(left, top); (right, top); (left, bottom); (right, bottom)]
     /\ pointsOfType Midpoint points
        = [(midX, top); (midX, bottom); (left, midY); (right, midY)]
     /\ pointsOfType Center points = [(midX, midY)])
    /\ List.length (allSnapPoints groups) = (9 * List.length groups)%nat
    /\ (let distance := snapDistance Math_pow pos in
        match snapCursor Math_pow groups pos with
        | Some v =>
            exists before p after,
              allSnapPoints groups = before ++ p :: after
              /\ (exists g, In g groups /\ In p (getSnapPointsForGroup g))
              /\ v = mkVector2d (snap_x p) (snap_y p)
              /\ (distance p <? SNAP_THRESHOLD)%float = true
              /\ (forall q, In q before ->
                    (distance q <=? distance p)%float = false)
              /\ (forall q, In q after ->
                    (distance q <? distance p)%float = false)
              /\ (forall g q,
                    In g groups -> In q (getSnapPointsForGroup g) ->
                    (distance q <? distance p)%float = false)
        | None =>
            forall g q, In g groups -> In q (getSnapPointsForGroup g) ->
              (distance q <? SNAP_THRESHOLD)%float = false
        end)
    /\ (squaresSmallWholeNumbers Math_pow ->
        snapDistance Math_pow (mkVector2d 35 80) (mkSnapPoint 50 100 Corner)
        = 25%float
        /\ snapCursor Math_pow [snapScenarioGroup] (mkVector2d 35 80)
           = Some (mkVector2d 50 100)
        /\ snapDistance Math_pow (mkVector2d 29 72)
             (mkSnapPoint 50 100 Corner)
           = 35%float
        /\ snapCursor Math_pow [snapScenarioGroup] (mkVector2d 29 72) = None
        /\ snapDistance Math_pow (mkVector2d 167 246)
             (mkSnapPoint 152 226 Corner)
           = 25%float
        /\ snapCursor Math_pow [snapScenarioGroup] (mkVector2d 167 246)
           = Some (mkVector2d 152 226)
        /\ snapDistance Math_pow (mkVector2d 173 254)
             (mkSnapPoint 152 226 Corner)
           = 35%float
        /\ snapCursor Math_pow [snapScenarioGroup] (mkVector2d 173 254)
           = None
        /\ snapCursor Math_pow [snapScenarioGroup; snapScenarioNeighbour]
             (mkVector2d 200 230)
           = Some (mkVector2d 203 226)
        /\ snapCursor Math_pow [mkGroupBox 0 0 40 40] (mkVector2d 10 10)
           = Some (mkVector2d 0 0)).
Proof.
  intros Math_pow groups group pos.
  split; [repeat split|].
  split.
  { unfold allSnapPoints. induction groups as [|g gs IH]; [reflexivity|].
    cbn [flat_map]. rewrite length_app, IH.
    cbn [List.length getSnapPointsForGroup]. lia. }
  split.
  { cbv zeta. unfold snapCursor.
    pose proof (findNearestSnapPoint_spec Math_pow pos
                  (allSnapPoints groups)) as H.
    destruct (findNearestSnapPoint Math_pow pos (allSnapPoints groups))
      as [v|].
    - destruct H as (before & p & after & E & Hv & Hlt & Hb & Ha).
      exists before, p, after. split; [exact E|].
      assert (Hin : In p (allSnapPoints groups))
        by (rewrite E; apply in_or_app; right; now left).
      split.
      { unfold allSnapPoints in Hin. apply in_flat_map in Hin.
        destruct Hin as (g & Hg & Hp). now exists g. }
      repeat (split; [assumption|]).
      intros g q Hg Hq.
      assert (Hq' : In q (allSnapPoints groups))
        by (unfold allSnapPoints; apply in_flat_map; now exists g).
      rewrite E in Hq'. apply in_app_or in Hq'.
      destruct Hq' as [Hq'|[<-|Hq']].
      + destruct (snapDistance Math_pow pos q
                  <? snapDistance Math_pow pos p)%float eqn:L;
          [|reflexivity].
        apply ltb_leb in L. rewrite (Hb q Hq') in L. discriminate.
      + apply ltb_irrefl.
      + exact (Ha q Hq').
    - intros g q Hg Hq. apply H. unfold allSnapPoints.
      apply in_flat_map. now exists g. }
  intros Hsq.
  assert (D : forall pos p,
            smallWholeNumber (vec_x pos - snap_x p) = true ->
            smallWholeNumber (vec_y pos - snap_y p) = true ->
            snapDistance Math_pow pos p = snapDistance squareByProduct pos p)
    by (intros; now apply snapDistance_whole).
  repeat apply conj;
    first [ rewrite D by (vm_compute; reflexivity); vm_compute; reflexivity
          | snap_scenario Hsq ].
Qed.

(** The scenarios of C8 on an engine that multiplies. *)
Lemma snap_points_nearest_witness :
  snapDistance squareByProduct (mkVector2d 35 80) (mkSnapPoint 50 100 Corner)
  = 25%float
  /\ snapCursor squareByProduct [snapScenarioGroup] (mkVector2d 35 80)
     = Some (mkVector2d 50 100)
  /\ snapDistance squareByProduct (mkVector2d 29 72)
       (mkSnapPoint 50 100 Corner)
     = 35%float
  /\ snapCursor squareByProduct [snapScenarioGroup] (mkVector2d 29 72)
     = None
  /\ snapDistance squareByProduct (mkVector2d 167 246)
       (mkSnapPoint 152 226 Corner)
     = 25%float
  /\ snapCursor squareByProduct [snapScenarioGroup] (mkVector2d 167 246)
     = Some (mkVector2d 152 226)
  /\ snapDistance squareByProduct (mkVector2d 173 254)
       (mkSnapPoint 152 226 Corner)
     = 35%float
  /\ snapCursor squareByProduct [snapScenarioGroup] (mkVector2d 173 254)
     = None
  /\ snapCursor squareByProduct [snapScenarioGroup; snapScenarioNeighbour]
       (mkVector2d 200 230)
     = Some (mkVector2d 203 226)
  /\ snapCursor squareByProduct [mkGroupBox 0 0 40 40] (mkVector2d 10 10)
     = Some (mkVector2d 0 0).
Proof.
  apply (proj2 (proj2 (proj2
           (snap_points_nearest squareByProduct [] snapScenarioGroup
              (mkVector2d 35 80))))).
  intros d _. reflexivity.
Defined.

(** ** Reordering frames *)

(** C4 (as the claim states it, refuted).  Dropping frame A at x = 250
    does not put it last. *)
Lemma reorder_drop_at_250_is_not_last :
  reorderScenarioDrop 250 <> ["B"; "C"; "A"].
Proof.
  vm_compute. discriminate.
Qed.

Lemma findInsertIndex_scenario : forall x : Q,
  findInsertIndex x (sortBy group_x reorderScenarioSiblings) 0
  = if Qltb x 150 then 0 else if Qltb x 270 then 1 else 2.
Proof.
  intros x.
  change (sortBy group_x reorderScenarioSiblings) with reorderScenarioSiblings.
  unfold reorderScenarioSiblings. cbn [findInsertIndex group_x group_width].
  assert (M1 : (100 + 100 / 2 == 150)%Q) by reflexivity.
  assert (M2 : (220 + 100 / 2 == 270)%Q) by reflexivity.
  assert (E1 : Qltb x (100 + 100 / 2) = Qltb x 150).
  { destruct (Qltb x 150) eqn:E.
    - apply Qltb_lt in E. apply Qltb_lt. now rewrite M1.
    - apply Qltb_ge in E. apply Qltb_ge. now rewrite M1. }
  assert (E2 : Qltb x (220 + 100 / 2) = Qltb x 270).
  { destruct (Qltb x 270) eqn:E.
    - apply Qltb_lt in E. apply Qltb_lt. now rewrite M2.
    - apply Qltb_ge in E. apply Qltb_ge. now rewrite M2. }
  rewrite E1, E2. reflexivity.
Qed.

(** C4 (amended).  In the scenario the order after the drop is decided by
    the midpoints 150 of B and 270 of C: a drop left of 150 leaves A first, a
    drop at x = 250 (anywhere from 150 up to 270) puts A between B and C,
    and A goes to the end only from x = 270 on. *)
Theorem reorder_drop_scenario :
  forall x : Q,
    reorderScenarioDrop x
    = (if Qltb x 150 then ["A"; "B"; "C"]
       else if Qltb x 270 then ["B"; "A"; "C"]
       else ["B"; "C"; "A"])
    /\ reorderScenarioDrop 250 = ["B"; "A"; "C"]
    /\ reorderScenarioDrop 270 = ["B"; "C"; "A"].
Proof.
  intros x. split; [|split; vm_compute; reflexivity].
  unfold reorderScenarioDrop, dragend, dragendIndex.
  cbn [group_x].
  change (filter (fun g => isSome (frameIndex g)) reorderScenarioSiblings)
    with reorderScenarioSiblings.
  rewrite findInsertIndex_scenario.
  destruct (Qltb x 150); [vm_compute; reflexivity|].
  destruct (Qltb x 270); vm_compute; reflexivity.
Qed.

(** ** The cabinet editor *)

(** Whatever a loop that may crash preserves at each turn, it preserves as
    a whole. *)
Lemma forEachO_preserves :
  forall (A S : Type) (P : S -> Prop) (body : S -> A -> outcome S),
    (forall s a, P s -> P (stateOf (body s a))) ->
    forall l s, P s -> P (stateOf (forEachO body l s)).
Proof.
  intros A S P body Hbody l; induction l as [|a l IH]; intros s Hs; simpl.
  - exact Hs.
  - specialize (Hbody s a Hs). destruct (body s a) as [s'|s']; simpl in *.
    + now apply IH.
    + exact Hbody.
Qed.

Lemma updateAt_length : forall (A : Type) (f : A -> A) (l : list A) (k : nat),
  List.length (updateAt k f l) = List.length l.
Proof.
  intros A f l; induction l as [|a l IH]; intros [|k]; simpl; auto.
Qed.

Lemma updateAt_nth_same : forall (A : Type) (f : A -> A) (l : list A) k a,
  nth_error l k = Some a -> nth_error (updateAt k f l) k = Some (f a).
Proof.
  intros A f l; induction l as [|x l IH]; intros [|k] a H; simpl in *;
    try discriminate.
  - congruence.
  - now apply IH.
Qed.

Lemma updateAt_nth_other : forall (A : Type) (f : A -> A) (l : list A) k i,
  i <> k -> nth_error (updateAt k f l) i = nth_error l i.
Proof.
  intros A f l; induction l as [|x l IH]; intros [|k] [|i] H; simpl;
    try reflexivity; try congruence.
  apply IH. congruence.
Qed.

Lemma placeDoorInSlots_frame : forall door c e,
  frame (stateOf (placeDoorInSlots door c e)) = frame e.
Proof.
  intros door c e. unfold placeDoorInSlots.
  destruct (forEachO (placeUnit door) (countUpTo (doorUnits door)) (slotsOf e c));
    destruct c; reflexivity.
Qed.

(** Rebuilding the slots never touches the frame. *)
Lemma initializeSlots_frame : forall e,
  frame (stateOf (initializeSlots e)) = frame e.
Proof.
  intros e. unfold initializeSlots.
  set (e0 := mkEditor (frame e) _ _ _ _ _).
  assert (H1 : frame (stateOf
                 (forEachO (fun st door => placeDoorInSlots door Left st)
                    (getLeftDoors e0) e0)) = frame e).
  { apply (forEachO_preserves (fun st => frame st = frame e)).
    - intros s a Hs. now rewrite placeDoorInSlots_frame.
    - reflexivity. }
  destruct (forEachO (fun st door => placeDoorInSlots door Left st)
              (getLeftDoors e0) e0) as [e1|e1]; simpl in *.
  - apply (forEachO_preserves (fun st => frame st = frame e)).
    + intros s a Hs. now rewrite placeDoorInSlots_frame.
    + exact H1.
  - exact H1.
Qed.

Lemma freedByRemoval_units : forall firstDoor l,
  snd (freedByRemoval firstDoor l) = sumUnits l.
Proof.
  intros firstDoor l. unfold freedByRemoval, sumUnits.
  generalize (position firstDoor) as m. generalize 0%Q as u.
  induction l as [|d l IH]; intros u m; simpl; [reflexivity|].
  apply IH.
Qed.

Lemma Math_min_le_l : forall a b, (Math_min a b <= a)%Q.
Proof.
  intros a b. unfold Math_min. destruct (Qle_bool a b) eqn:E.
  - apply Qle_refl.
  - apply Qlt_le_weak. apply Qnot_le_lt. intros H.
    apply Qle_bool_iff in H. congruence.
Qed.

Lemma Math_min_le_r : forall a b, (Math_min a b <= b)%Q.
Proof.
  intros a b. unfold Math_min. destruct (Qle_bool a b) eqn:E.
  - now apply Qle_bool_iff.
  - apply Qle_refl.
Qed.

(** The position [replaceDoors] gives to the new door is the least of the
    positions of [firstDoor] and of the doors taken out. *)
Lemma freedByRemoval_min : forall firstDoor l,
  (forall d, In d (firstDoor :: l) ->
     (fst (freedByRemoval firstDoor l) <= position d)%Q)
  /\ exists d, In d (firstDoor :: l)
       /\ fst (freedByRemoval firstDoor l) = position d.
Proof.
  intros firstDoor l. unfold freedByRemoval.
  assert (G : forall (l : list Door) (m u : Q) (seen : list Door),
             (forall d, In d seen -> (m <= position d)%Q) ->
             (exists d, In d seen /\ m = position d) ->
             let r := fold_left
                        (fun acc door =>
                           (Math_min (fst acc) (position door),
                            (snd acc + doorUnits door)%Q)) l (m, u) in
             (forall d, In d (seen ++ l) -> (fst r <= position d)%Q)
             /\ exists d, In d (seen ++ l) /\ fst r = position d).
  { clear. induction l as [|x l IH]; intros m u seen Hle Hex; simpl.
    - rewrite app_nil_r. split; assumption.
    - replace (seen ++ x :: l) with ((seen ++ [x]) ++ l)
        by (rewrite <- app_assoc; reflexivity).
      apply IH.
      + intros d Hd. apply in_app_or in Hd. destruct Hd as [Hd|[<-|[]]].
        * eapply Qle_trans; [apply Math_min_le_l|]. now apply Hle.
        * apply Math_min_le_r.
      + unfold Math_min. destruct (Qle_bool m (position x)).
        * destruct Hex as (d & Hd & E). exists d. split; [|exact E].
          apply in_or_app. now left.
        * exists x. split; [|reflexivity]. apply in_or_app. right. now left. }
  specialize (G l (position firstDoor) 0%Q [firstDoor]).
  simpl in G. apply G.
  - intros d [<-|[]]. apply Qle_refl.
  - exists firstDoor. split; [now left|reflexivity].
Qed.

(** C3 (as the claim states it, refuted).  A double door (2 units) is
    replaced by a single door (1 unit): the replacement goes through although
    the units vacated do not equal the units of the new door. *)
Lemma replaceDoors_accepts_smaller_door :
  sumUnits [mkDoor 0 "dd" None None (Some Left)] = 2%Q
  /\ getDoorUnits "sd" = 1%Q
  /\ map (fun d => (position d, door_type d))
       (doors (frame (stateOf
          (replaceDoors (mkDoor 0 "dd" None None (Some Left)) "sd"
             [DoorAt 0 Left] replaceScenarioEditor))))
     = [(2%Q, "sd"); (0%Q, "SD")].
Proof.
  repeat split; vm_compute; reflexivity.
Qed.

(** C3 (amended).  [replaceDoors] is refused exactly when the new door
    needs more units than the doors being vacated set free, and then the
    editor is unchanged; otherwise every door whose id is listed is removed,
    exactly one door of the new type is appended, and it sits at the lowest
    position among [firstDoor] and the vacated doors. *)
Theorem replaceDoors_spec :
  forall (firstDoor : Door) (newDoorType : string) (ids : list DoorId)
         (e : Editor),
    let ds := doors (frame e) in
    let vacated := filter (fun d => hasId ids (getDoorId d)) ds in
    let kept := filter (fun d => negb (hasId ids (getDoorId d))) ds in
    let result := replaceDoors firstDoor newDoorType ids e in
    if Qltb (sumUnits vacated) (getDoorUnits newDoorType)
    then result = Done e
    else exists newDoor,
        doors (frame (stateOf result)) = kept ++ [newDoor]
        /\ door_type newDoor = toUpperCase newDoorType
        /\ column newDoor = column firstDoor
        /\ List.length (doors (frame (stateOf result)))
           = (List.length ds - List.length vacated + 1)%nat
        /\ (forall d, In d kept -> hasId ids (getDoorId d) = false)
        /\ (forall d, In d (firstDoor :: vacated) ->
              (position newDoor <= position d)%Q)
        /\ (exists d, In d (firstDoor :: vacated)
              /\ position newDoor = position d).
Proof.
  intros firstDoor newDoorType ids e ds vacated kept result.
  unfold result, replaceDoors. fold ds. fold vacated. fold kept.
  pose proof (freedByRemoval_units firstDoor vacated) as Hu.
  pose proof (freedByRemoval_min firstDoor vacated) as [Hle Hex].
  destruct (freedByRemoval firstDoor vacated) as [minPosition freed].
  simpl in Hu, Hle, Hex. subst freed.
  destruct (Qltb (sumUnits vacated) (getDoorUnits newDoorType)).
  - reflexivity.
  - eexists. rewrite initializeSlots_frame. simpl.
    split; [reflexivity|]. split; [reflexivity|]. split; [reflexivity|].
    split.
    { rewrite length_app. simpl.
      assert (Hlen : (List.length vacated + List.length kept
                      = List.length ds)%nat).
      { unfold vacated, kept. clear. induction ds as [|d ds IH]; simpl; auto.
        destruct (hasId ids (getDoorId d)); simpl; lia. }
      lia. }
    split.
    { intros d Hd. unfold kept in Hd. apply filter_In in Hd.
      now apply negb_true_iff. }
    split; assumption.
Qed.

(** Every door type, known to the catalogue or not, takes a positive number
    of units. *)
Lemma getDoorUnits_pos : forall nm, (0 < getDoorUnits nm)%Q.
Proof.
  intros nm. unfold getDoorUnits, getDoorConfig.
  assert (H : forallb (fun kc => Qltb 0 (units (snd kc))) DOOR_CONFIGS = true)
    by (vm_compute; reflexivity).
  revert H. generalize DOOR_CONFIGS as table.
  induction table as [|[k c] table IH]; simpl; intros H.
  - reflexivity.
  - apply andb_true_iff in H. destruct H as [Hc Ht].
    destruct (String.eqb k nm).
    + now apply Qltb_lt.
    + now apply IH.
Qed.

Lemma scanUnit_done : forall slots acc i,
  0 <= i < Z.of_nat (List.length slots) ->
  exists aff, scanUnit slots acc i = Done (fst acc + 1, aff).
Proof.
  intros slots acc i Hi. unfold scanUnit.
  destruct (Z.ltb_spec i 0) as [Hneg|_]; [lia|].
  destruct (nth_error slots (Z.to_nat i)) as [slot|] eqn:E.
  - destruct (slot_door slot) as [d|]; [eexists; reflexivity|].
    destruct (isOccupiedByAbove slot); [|eexists; reflexivity].
    destruct (findDoorOccupyingSlot slots (Z.to_nat i));
      eexists; reflexivity.
  - apply nth_error_None in E. lia.
Qed.

(** The scanning loop counts every unit it visits, empty or not. *)
Lemma scan_counts_all : forall slots units acc,
  (forall i, In i units -> 0 <= i < Z.of_nat (List.length slots)) ->
  exists aff,
    forEachO (scanUnit slots) units acc
    = Done (fst acc + Z.of_nat (List.length units), aff).
Proof.
  intros slots units; induction units as [|i units IH]; intros acc Hall.
  - simpl. exists (snd acc). rewrite Z.add_0_r. now destruct acc.
  - destruct (scanUnit_done slots acc (i := i)) as [aff E];
      [apply Hall; now left|].
    cbn [forEachO]. rewrite E.
    destruct (IH (fst acc + 1, aff)) as [aff' E'];
      [intros j Hj; apply Hall; now right|].
    exists aff'. rewrite E'. cbn [fst List.length].
    rewrite Nat2Z.inj_succ. f_equal. f_equal. lia.
Qed.

Lemma scannedUnits_range : forall start u total i,
  0 <= start -> In i (scannedUnits start u total) -> 0 <= i < total.
Proof.
  intros start u total i Hs Hi. unfold scannedUnits in Hi.
  apply in_map_iff in Hi. destruct Hi as (k & <- & Hk).
  apply in_seq in Hk. lia.
Qed.

Lemma scannedUnits_length : forall start u total,
  List.length (scannedUnits start u total)
  = Z.to_nat (Z.min (Qceiling u) (total - start)).
Proof.
  intros. unfold scannedUnits. now rewrite length_map, length_seq.
Qed.

(** With a door of positive size the acceptance test comes down to the size
    being a whole number of units that fits below the top of the column. *)
Lemma placementFits_whole : forall start u total,
  (0 < u)%Q ->
  placementFits (Z.of_nat (Z.to_nat (Z.min (Qceiling u) (total - start))))
    start u total
  = isWholeNumber u && Qle_bool (inject_Z start + u) (inject_Z total).
Proof.
  intros start u total Hu. unfold placementFits, isWholeNumber.
  destruct (Qle_bool (inject_Z start + u) (inject_Z total)) eqn:Efit;
    [|now rewrite !andb_false_r].
  rewrite !andb_true_r. apply Qle_bool_iff in Efit.
  assert (Hc : Qceiling u <= total - start).
  { rewrite <- (Qceiling_Z (total - start)). apply Qceiling_resp_le.
    unfold Zminus. rewrite inject_Z_plus, inject_Z_opp. lra. }
  assert (Hpos : 0 < Qceiling u).
  { pose proof (Qle_ceiling u) as Hle.
    assert (H0 : (0 < inject_Z (Qceiling u))%Q) by lra.
    change 0%Q with (inject_Z 0) in H0. now rewrite <- Zlt_Qlt in H0. }
  rewrite Z.min_l by exact Hc. rewrite Z2Nat.id by lia. reflexivity.
Qed.

Lemma addId_nonempty : forall ids i, addId ids i = [] -> False.
Proof.
  intros ids i. unfold addId. destruct (hasId ids i) eqn:E.
  - intros ->. discriminate.
  - destruct ids; discriminate.
Qed.

Lemma fold_addId_nonempty : forall l acc,
  fold_left addId l acc = [] -> l = [] /\ acc = [].
Proof.
  induction l as [|i l IH]; intros acc H; simpl in H.
  - now split.
  - apply IH in H. destruct H as [_ H]. now apply addId_nonempty in H.
Qed.

Lemma placeUnit_length : forall door slots i,
  List.length (stateOf (placeUnit door slots i)) = List.length slots.
Proof.
  intros door slots i. unfold placeUnit.
  destruct (Qltb _ _); [|reflexivity].
  destruct (arrayIndex _); simpl; [apply updateAt_length|reflexivity].
Qed.

Lemma placeDoorInSlots_ready : forall n total door c e,
  slotsReady n total e ->
  slotsReady n total (stateOf (placeDoorInSlots door c e)).
Proof.
  intros n total door c e (Hl & Hr & Ht). unfold placeDoorInSlots.
  assert (Hlen : List.length
            (stateOf (forEachO (placeUnit door) (countUpTo (doorUnits door))
                        (slotsOf e c)))
          = List.length (slotsOf e c)).
  { apply (forEachO_preserves
             (fun sl => List.length sl = List.length (slotsOf e c))).
    - intros sl i Hsl. now rewrite placeUnit_length.
    - reflexivity. }
  destruct (forEachO (placeUnit door) (countUpTo (doorUnits door))
              (slotsOf e c)) as [sl|sl];
    destruct c; simpl in *; unfold slotsReady; simpl;
    repeat split; congruence.
Qed.

(** After [initializeSlots], crashed or not, each column has exactly
    [totalUnits] slots: the editor meets the side condition of the empty-slot
    check. *)
Lemma initializeSlots_ready : forall e c,
  List.length (slotsOf (stateOf (initializeSlots e)) c)
  = Z.to_nat (totalUnits (stateOf (initializeSlots e))).
Proof.
  intros e c. unfold initializeSlots.
  set (total := Math_round (height (frame e) / DOOR_UNIT)).
  set (e0 := mkEditor (frame e) _ _ _ _ _).
  assert (H0 : slotsReady (Z.to_nat total) total e0).
  { unfold slotsReady, e0, emptySlots. simpl.
    now rewrite !length_map, !length_seq. }
  assert (H1 : slotsReady (Z.to_nat total) total
                 (stateOf (forEachO (fun st door => placeDoorInSlots door Left st)
                             (getLeftDoors e0) e0))).
  { apply (forEachO_preserves (slotsReady (Z.to_nat total) total)); auto.
    intros st door Hst. now apply placeDoorInSlots_ready. }
  assert (H2 : slotsReady (Z.to_nat total) total
                 (stateOf
                    (andThen
                       (forEachO (fun st door => placeDoorInSlots door Left st)
                          (getLeftDoors e0) e0)
                       (fun st => st)
                       (fun e1 =>
                          forEachO
                            (fun st door => placeDoorInSlots door Right st)
                            (getRightDoors e1) e1)))).
  { destruct (forEachO (fun st door => placeDoorInSlots door Left st)
                (getLeftDoors e0) e0) as [e1|e1]; simpl in *; [|exact H1].
    apply (forEachO_preserves (slotsReady (Z.to_nat total) total)); auto.
    intros st door Hst. now apply placeDoorInSlots_ready. }
  destruct H2 as (Hl & Hr & Ht). rewrite Ht.
  destruct c; assumption.
Qed.

(** C5 (as the claim states it, refuted).  In the column of six units with
    a double door at 0 and a single door at 2, units 3, 4 and 5 are free: the
    triple door [td] (3 units in the catalogue) hovered over unit 3 is
    marked valid and the drop appends it at position 3; so is a door of two
    units ([dd]). *)
Lemma packing_scenario_placement_is_accepted :
  totalUnits packingScenarioEditor = 6
  /\ getDoorUnits "td" = 3%Q
  /\ highlightedDoors
       (stateOf (hoverEmptySlot 3 Left "td" packingScenarioEditor))
     = [EmptyAt 3 Left]
  /\ invalidDoors
       (stateOf (hoverEmptySlot 3 Left "td" packingScenarioEditor)) = []
  /\ fst (stateOf (packingScenarioDrop "td" 3)) = true
  /\ map (fun d => (position d, door_type d))
       (doors (frame (snd (stateOf (packingScenarioDrop "td" 3)))))
     = [(0%Q, "dd"); (2%Q, "sd"); (3%Q, "TD")]
  /\ getDoorUnits "dd" = 2%Q
  /\ fst (stateOf (packingScenarioDrop "dd" 3)) = true
  /\ map (fun d => (position d, door_type d))
       (doors (frame (snd (stateOf (packingScenarioDrop "dd" 3)))))
     = [(0%Q, "dd"); (2%Q, "sd"); (3%Q, "DD")].
Proof.
  repeat split; vm_compute; reflexivity.
Qed.

(** C5 (amended).  Over a column whose slot array has [totalUnits] entries,
    the empty-slot check started at a unit [start >= 0] always completes and
    leaves the frame alone; it marks the target valid exactly when the
    dragged door's size is a whole number of units and [start + size] does
    not pass [totalUnits], and invalid otherwise.  Occupied units are counted
    like free ones: their doors are the ones marked.  In the scenario the
    triple door at unit 3 is therefore accepted and appended at position 3,
    a triple door at unit 4 is refused and nothing is added, and a double
    door hovered over unit 1 below a double door on units 2 and 3 is
    accepted with that door marked for replacement. *)
Theorem emptySlotHover_accepts_iff_fits :
  forall (e : Editor) (c : Column) (start : Z) (doorName : string),
    List.length (slotsOf e c) = Z.to_nat (totalUnits e) ->
    0 <= start ->
    (exists e',
        hoverEmptySlot start c doorName e = Done e'
        /\ frame e' = frame e
        /\ if isWholeNumber (getDoorUnits doorName)
              && Qle_bool (inject_Z start + getDoorUnits doorName)
                   (inject_Z (totalUnits e))
           then invalidDoors e' = [] /\ highlightedDoors e' <> []
           else highlightedDoors e' = [] /\ invalidDoors e' <> [])
    /\ fst (stateOf (packingScenarioDrop "td" 3)) = true
    /\ map (fun d => (position d, door_type d))
         (doors (frame (snd (stateOf (packingScenarioDrop "td" 3)))))
       = [(0%Q, "dd"); (2%Q, "sd"); (3%Q, "TD")]
    /\ stateOf (packingScenarioDrop "td" 4)
       = (false, stateOf (hoverEmptySlot 4 Left "td" packingScenarioEditor))
    /\ doors (frame (snd (stateOf (packingScenarioDrop "td" 4))))
       = doors packingScenarioFrame
    /\ highlightedDoors
         (stateOf (hoverEmptySlot 1 Left "dd" overlapScenarioEditor))
       = [DoorAt 2 Left]
    /\ invalidDoors
         (stateOf (hoverEmptySlot 1 Left "dd" overlapScenarioEditor)) = [].
Proof.
  intros e c start doorName Hlen Hstart.
  split; [|repeat split; vm_compute; reflexivity].
  unfold hoverEmptySlot, checkEmptySlotHover.
  set (u := getDoorUnits doorName).
  set (e0 := with_marks e [] []).
  assert (Hslots : slotsOf e0 c = slotsOf e c) by (destruct c; reflexivity).
  assert (Htot : totalUnits e0 = totalUnits e) by reflexivity.
  rewrite Hslots, Htot.
  destruct (scan_counts_all (slotsOf e c)
              (scannedUnits start u (totalUnits e)) (0, []))
    as [aff Escan].
  { intros i Hi. pose proof (@scannedUnits_range _ _ _ _ Hstart Hi) as Hr.
    rewrite Hlen. rewrite Z2Nat.id by lia. exact Hr. }
  rewrite Escan. cbn [fst]. rewrite Z.add_0_l, scannedUnits_length.
  rewrite placementFits_whole by apply getDoorUnits_pos.
  fold u.
  assert (Hne : map getDoorId aff
                ++ match aff with [] => [EmptyAt start c] | _ :: _ => [] end
                <> []).
  { destruct aff; discriminate. }
  destruct (isWholeNumber u
            && Qle_bool (inject_Z start + u) (inject_Z (totalUnits e)));
    eexists; (split; [reflexivity|]); (split; [reflexivity|]); simpl;
    (split; [reflexivity|]);
    intros H; apply fold_addId_nonempty in H; destruct H as [H _];
    exact (Hne H).
Qed.

Lemma emptySlotHover_accepts_iff_fits_witness :
  exists e',
    hoverEmptySlot 3 Left "td" packingScenarioEditor = Done e'
    /\ frame e' = frame packingScenarioEditor
    /\ invalidDoors e' = [] /\ highlightedDoors e' <> [].
Proof.
  destruct (@emptySlotHover_accepts_iff_fits packingScenarioEditor Left 3 "td"
              eq_refl ltac:(lia)) as [(e' & H1 & H2 & H3) _].
  exists e'. split; [exact H1|]. split; [exact H2|]. exact H3.
Defined.

(** *** Normalized positions do not overlap *)

Lemma insertBy_perm : forall (A : Type) (key : A -> Q) (a : A) (l : list A),
  Permutation (insertBy key a l) (a :: l).
Proof.
  intros A key a l; induction l as [|b l IH]; simpl.
  - apply Permutation_refl.
  - destruct (Qle_bool (key a) (key b)).
    + apply Permutation_refl.
    + eapply Permutation_trans; [apply perm_skip, IH|apply perm_swap].
Qed.

(** [sort] only rearranges the array. *)
Lemma sortBy_perm : forall (A : Type) (key : A -> Q) (l : list A),
  Permutation (sortBy key l) l.
Proof.
  intros A key l; induction l as [|a l IH]; simpl.
  - apply Permutation_refl.
  - eapply Permutation_trans; [apply insertBy_perm|]. now apply perm_skip.
Qed.

Lemma indexed_from_In : forall (A : Type) (l : list A) (s i : nat) (a : A),
  In (i, a) (combine (seq s (List.length l)) l)
  <-> (s <= i)%nat /\ nth_error l (i - s) = Some a.
Proof.
  intros A l; induction l as [|x l IH]; intros s i a; simpl.
  - split; [intros []|]. intros [_ H]. destruct (i - s)%nat; discriminate.
  - rewrite IH. split.
    + intros [E|[Hle Hn]].
      * injection E as <- <-. rewrite Nat.sub_diag. now split.
      * split; [lia|]. replace (i - s)%nat with (S (i - S s)) by lia.
        exact Hn.
    + intros [Hle Hn]. destruct (Nat.eq_dec i s) as [->|Hne].
      * left. rewrite Nat.sub_diag in Hn. simpl in Hn. congruence.
      * right. split; [lia|].
        replace (i - s)%nat with (S (i - S s)) in Hn by lia. exact Hn.
Qed.

(** A reference [(i, d)] belongs to an array exactly when [d] is the object
    at index [i]. *)
Lemma indexed_In : forall (A : Type) (l : list A) (i : nat) (a : A),
  In (i, a) (indexed l) <-> nth_error l i = Some a.
Proof.
  intros A l i a. unfold indexed. rewrite indexed_from_In.
  rewrite Nat.sub_0_r. split; [now intros [_ H]|]. intros H; split; [lia|exact H].
Qed.

Lemma combine_fst : forall (A B : Type) (l : list A) (l' : list B),
  List.length l = List.length l' -> map fst (combine l l') = l.
Proof.
  intros A B l; induction l as [|a l IH]; intros [|b l'] H; simpl in *;
    try discriminate; [reflexivity|].
  f_equal. apply IH. now injection H.
Qed.

Lemma indexed_fst : forall (A : Type) (l : list A),
  map fst (indexed l) = seq 0 (List.length l).
Proof.
  intros A l. unfold indexed. apply combine_fst.
  now rewrite length_seq.
Qed.

Lemma NoDup_map_filter : forall (A B : Type) (f : A -> B) (p : A -> bool)
    (l : list A),
  NoDup (map f l) -> NoDup (map f (filter p l)).
Proof.
  intros A B f p l; induction l as [|a l IH]; simpl; intros H.
  - constructor.
  - inversion H as [|x xs Hnotin Hnd]; subst.
    destruct (p a); simpl; [|now apply IH].
    constructor; [|now apply IH].
    intros Hin. apply Hnotin. apply in_map_iff in Hin.
    destruct Hin as (y & Ey & Hy). apply filter_In in Hy.
    apply in_map_iff. exists y. tauto.
Qed.

Lemma columnRefs_NoDup : forall sel ds,
  NoDup (map fst (columnRefs sel ds)).
Proof.
  intros sel ds. unfold columnRefs. apply NoDup_map_filter.
  rewrite indexed_fst. apply seq_NoDup.
Qed.

Lemma columnRefs_In : forall sel ds i d,
  In (i, d) (columnRefs sel ds) <-> nth_error ds i = Some d /\ sel d = true.
Proof.
  intros sel ds i d. unfold columnRefs. rewrite filter_In, indexed_In.
  reflexivity.
Qed.

(** The references of a sorted column are those of the column. *)
Lemma sorted_refs_In : forall sel ds i d,
  In (i, d) (sortBy (fun r => position (snd r)) (columnRefs sel ds))
  <-> nth_error ds i = Some d /\ sel d = true.
Proof.
  intros sel ds i d. rewrite <- columnRefs_In.
  split; apply Permutation_in;
    [apply sortBy_perm | apply Permutation_sym, sortBy_perm].
Qed.

Lemma sorted_refs_NoDup : forall sel ds,
  NoDup (map fst (sortBy (fun r => position (snd r)) (columnRefs sel ds))).
Proof.
  intros sel ds.
  eapply Permutation_NoDup; [|apply (columnRefs_NoDup sel ds)].
  apply Permutation_map, Permutation_sym, sortBy_perm.
Qed.

Lemma doorUnits_nonneg : forall d, (0 <= doorUnits d)%Q.
Proof.
  intros d. apply Qlt_le_weak. apply getDoorUnits_pos.
Qed.

Lemma assignUnits_fst : forall refs c,
  map fst (assignUnits c refs) = map fst refs.
Proof.
  induction refs as [|[i d] refs IH]; intros c; simpl; [reflexivity|].
  now rewrite IH.
Qed.

(** Positions are handed out upwards from the running unit. *)
Lemma assignUnits_lower : forall refs c i p,
  In (i, p) (assignUnits c refs) -> (c <= p)%Q.
Proof.
  induction refs as [|[k d] refs IH]; intros c i p H; simpl in H; [easy|].
  destruct H as [E|H].
  - injection E as _ <-. apply Qle_refl.
  - apply IH in H. pose proof (doorUnits_nonneg d). lra.
Qed.

Lemma NoDup_fst_unique : forall (B : Type) (l : list (nat * B)) i a b,
  NoDup (map fst l) -> In (i, a) l -> In (i, b) l -> a = b.
Proof.
  intros B l; induction l as [|[k x] l IH]; intros i a b Hnd Ha Hb;
    simpl in *; [easy|].
  inversion Hnd as [|y ys Hnotin Hnd']; subst.
  destruct Ha as [Ea|Ha], Hb as [Eb|Hb].
  - congruence.
  - injection Ea as -> ->. exfalso. apply Hnotin.
    apply in_map_iff. now exists (i, b).
  - injection Eb as -> ->. exfalso. apply Hnotin.
    apply in_map_iff. now exists (i, a).
  - now apply (IH i).
Qed.

(** Two different doors of a renumbered column get disjoint unit ranges. *)
Lemma assignUnits_disjoint : forall refs c i j p q a b,
  NoDup (map fst refs) ->
  In (i, a) refs -> In (j, b) refs ->
  In (i, p) (assignUnits c refs) -> In (j, q) (assignUnits c refs) ->
  i <> j ->
  (p + doorUnits a <= q)%Q \/ (q + doorUnits b <= p)%Q.
Proof.
  induction refs as [|[k d] refs IH]; intros c i j p q a b Hnd Ha Hb Hp Hq Hij;
    [easy|].
  assert (Hnd0 := Hnd).
  inversion Hnd as [|y ys Hnotin Hnd']; subst.
  assert (Hfst : forall n x, In (n, x) (assignUnits (c + doorUnits d) refs) ->
                             In n (map fst refs)).
  { intros n x Hx. rewrite <- (assignUnits_fst refs (c + doorUnits d)).
    apply in_map_iff. now exists (n, x). }
  assert (Hfst' : forall n (x : Door), In (n, x) refs -> In n (map fst refs)).
  { intros n x Hx. apply in_map_iff. now exists (n, x). }
  cbn [assignUnits] in Hp, Hq. cbn [In] in Ha, Hb, Hp, Hq.
  destruct Hp as [Ep|Hp], Hq as [Eq|Hq].
  - exfalso. injection Ep as Ei _. injection Eq as Ej _. congruence.
  - injection Ep as -> <-.
    assert (a = d).
    { destruct Ha as [E|Ha]; [congruence|].
      exfalso. apply Hnotin. now apply (Hfst' i a). }
    subst a. left. now apply assignUnits_lower in Hq.
  - injection Eq as -> <-.
    assert (b = d).
    { destruct Hb as [E|Hb]; [congruence|].
      exfalso. apply Hnotin. now apply (Hfst' j b). }
    subst b. right. now apply assignUnits_lower in Hp.
  - destruct Ha as [Ea|Ha].
    { exfalso. injection Ea as -> _. apply Hnotin. now apply (Hfst i p). }
    destruct Hb as [Eb|Hb].
    { exfalso. injection Eb as -> _. apply Hnotin. now apply (Hfst j q). }
    now apply (IH (c + doorUnits d)%Q i j).
Qed.

Lemma writePositions_length : forall writes ds,
  List.length (writePositions writes ds) = List.length ds.
Proof.
  unfold writePositions.
  induction writes as [|w writes IH]; intros ds; simpl; [reflexivity|].
  now rewrite IH, updateAt_length.
Qed.

(** A door object no write is addressed to stays as it is. *)
Lemma writePositions_untouched : forall writes ds i,
  ~ In i (map fst writes) ->
  nth_error (writePositions writes ds) i = nth_error ds i.
Proof.
  unfold writePositions.
  induction writes as [|[k p] writes IH]; intros ds i Hn; simpl;
    [reflexivity|].
  simpl in Hn. rewrite IH by tauto.
  apply updateAt_nth_other. intros ->. tauto.
Qed.

(** A door object one write is addressed to takes the written position. *)
Lemma writePositions_written : forall writes ds i p d,
  NoDup (map fst writes) -> In (i, p) writes -> nth_error ds i = Some d ->
  nth_error (writePositions writes ds) i = Some (with_position d p).
Proof.
  induction writes as [|[k q] writes IH]; intros ds i p d Hnd Hin Hd;
    [easy|].
  inversion Hnd as [|y ys Hnotin Hnd']; subst.
  change (writePositions ((k, q) :: writes) ds)
    with (writePositions writes (updateAt k (fun x => with_position x q) ds)).
  destruct Hin as [E|Hin].
  - injection E as -> ->.
    rewrite writePositions_untouched by exact Hnotin.
    exact (@updateAt_nth_same _ (fun x => with_position x p) ds i d Hd).
  - assert (i <> k).
    { intros ->. apply Hnotin. apply in_map_iff. now exists (k, p). }
    apply IH; auto. now rewrite updateAt_nth_other.
Qed.

Lemma inRightColumn_not_left : forall d,
  inRightColumn d = negb (inLeftColumn d).
Proof.
  intros d. unfold inRightColumn, inLeftColumn.
  destruct (column d) as [[|]|]; reflexivity.
Qed.

Lemma inLeftColumn_doorColumn : forall d,
  inLeftColumn d = Column_eqb (doorColumn d) Left.
Proof.
  intros d. unfold inLeftColumn, doorColumn.
  destruct (column d) as [[|]|]; reflexivity.
Qed.

Lemma columnOf_self : forall d, columnOf d d = true.
Proof.
  intros d. unfold columnOf. destruct (inLeftColumn d) eqn:E; [exact E|].
  rewrite inRightColumn_not_left, E. reflexivity.
Qed.

Lemma columnOf_same : forall a b,
  doorColumn a = doorColumn b -> columnOf a = columnOf b.
Proof.
  intros a b H. unfold columnOf. now rewrite !inLeftColumn_doorColumn, H.
Qed.

(** After [normalizeDoorPositions] the door object at index [i] is the old
    one with the position its column's renumbering wrote to it. *)
Lemma normalize_nth : forall ds i d,
  nth_error ds i = Some d ->
  exists p,
    nth_error (normalizeDoorPositions ds) i = Some (with_position d p)
    /\ In (i, p)
         (assignUnits 0
            (sortBy (fun r => position (snd r)) (columnRefs (columnOf d) ds))).
Proof.
  intros ds i d Hd. unfold normalizeDoorPositions.
  set (L := sortBy (fun r => position (snd r)) (columnRefs inLeftColumn ds)).
  set (R := sortBy (fun r => position (snd r)) (columnRefs inRightColumn ds)).
  assert (Hwrite : forall sel,
            sel d = true ->
            exists p, In (i, p)
              (assignUnits 0
                 (sortBy (fun r => position (snd r)) (columnRefs sel ds)))).
  { intros sel Hsel.
    assert (Hin : In i (map fst (assignUnits 0
              (sortBy (fun r => position (snd r)) (columnRefs sel ds))))).
    { rewrite assignUnits_fst. apply in_map_iff. exists (i, d).
      split; [reflexivity|]. apply sorted_refs_In. now split. }
    apply in_map_iff in Hin. destruct Hin as ([k p] & Ek & Hin).
    simpl in Ek. subst k. now exists p. }
  assert (Hskip : forall sel,
            sel d = false ->
            ~ In i (map fst (assignUnits 0
                 (sortBy (fun r => position (snd r)) (columnRefs sel ds))))).
  { intros sel Hsel Hin. rewrite assignUnits_fst in Hin.
    apply in_map_iff in Hin. destruct Hin as ([k d'] & Ek & Hin).
    simpl in Ek. subst k. apply sorted_refs_In in Hin.
    destruct Hin as [Hd' Hs]. congruence. }
  unfold columnOf. destruct (inLeftColumn d) eqn:El.
  - destruct (Hwrite inLeftColumn El) as [p Hp]. exists p. split; [|exact Hp].
    rewrite writePositions_untouched.
    + apply writePositions_written; auto.
      rewrite assignUnits_fst. apply sorted_refs_NoDup.
    + apply Hskip. rewrite inRightColumn_not_left, El. reflexivity.
  - assert (Er : inRightColumn d = true)
      by (rewrite inRightColumn_not_left, El; reflexivity).
    destruct (Hwrite inRightColumn Er) as [p Hp]. exists p. split; [|exact Hp].
    apply writePositions_written; auto.
    + rewrite assignUnits_fst. apply sorted_refs_NoDup.
    + rewrite writePositions_untouched; [exact Hd|]. now apply Hskip.
Qed.

Lemma normalize_length : forall ds,
  List.length (normalizeDoorPositions ds) = List.length ds.
Proof.
  intros ds. unfold normalizeDoorPositions.
  now rewrite !writePositions_length.
Qed.

(** Normalizing establishes the no-overlap property, whatever the positions
    were before. *)
Lemma normalize_noOverlap : forall ds, noOverlap (normalizeDoorPositions ds).
Proof.
  intros ds i j a b Hij Ha Hb Hcol.
  assert (Hi : exists d, nth_error ds i = Some d).
  { destruct (nth_error ds i) as [d|] eqn:E; [now exists d|].
    apply nth_error_None in E. rewrite <- normalize_length in E.
    apply nth_error_None in E. congruence. }
  assert (Hj : exists d, nth_error ds j = Some d).
  { destruct (nth_error ds j) as [d|] eqn:E; [now exists d|].
    apply nth_error_None in E. rewrite <- normalize_length in E.
    apply nth_error_None in E. congruence. }
  destruct Hi as [di Hdi], Hj as [dj Hdj].
  destruct (normalize_nth ds i Hdi) as (p & Hp & Hwp).
  destruct (normalize_nth ds j Hdj) as (q & Hq & Hwq).
  rewrite Hp in Ha. rewrite Hq in Hb.
  injection Ha as <-. injection Hb as <-.
  assert (Hc : doorColumn di = doorColumn dj) by exact Hcol.
  rewrite <- (columnOf_same _ _ Hc) in Hwq.
  unfold rangesDisjointb. cbn [position with_position].
  change (doorUnits (with_position di p)) with (doorUnits di).
  change (doorUnits (with_position dj q)) with (doorUnits dj).
  apply orb_true_iff.
  destruct (@assignUnits_disjoint
              (sortBy (fun r => position (snd r))
                 (columnRefs (columnOf di) ds))
              0%Q i j p q di dj) as [H|H]; auto.
  - apply sorted_refs_NoDup.
  - apply sorted_refs_In. split; [exact Hdi|apply columnOf_self].
  - apply sorted_refs_In. split; [exact Hdj|].
    rewrite (columnOf_same _ _ Hc). apply columnOf_self.
  - left. now apply Qle_bool_iff.
  - right. now apply Qle_bool_iff.
Qed.

(** *** Denormalized positions are sequential indices *)

Lemma posMapGet_Some : forall m p k,
  posMapGet m p = Some k -> exists q, In (q, k) m.
Proof.
  intros m p k H. unfold posMapGet in H.
  destruct (find (fun kv => Qeq_bool (fst kv) p) (rev m)) as [[q k']|] eqn:E;
    [|discriminate].
  simpl in H. injection H as ->. apply find_some in E.
  destruct E as [Hin _]. exists q. now apply in_rev.
Qed.

Lemma posMapGet_found : forall m p q k,
  In (q, k) m -> Qeq_bool q p = true -> posMapGet m p <> None.
Proof.
  intros m p q k Hin Hq H. unfold posMapGet in H.
  destruct (find (fun kv => Qeq_bool (fst kv) p) (rev m)) eqn:E;
    [discriminate|].
  assert (Hf : Qeq_bool (fst (q, k)) p = false).
  { apply (find_none _ _ E (q, k)). now apply in_rev in Hin. }
  simpl in Hf. congruence.
Qed.

Lemma buildPosMap_In : forall sorted q k,
  In (q, k) (buildPosMap sorted) ->
  0 <= k < Z.of_nat (List.length sorted).
Proof.
  intros sorted q k H. unfold buildPosMap in H.
  apply in_map_iff in H. destruct H as ([i d] & E & Hin).
  simpl in E. injection E as _ <-. apply indexed_In in Hin.
  assert (i < List.length sorted)%nat
    by (apply nth_error_Some; congruence).
  lia.
Qed.

Lemma buildPosMap_has : forall sorted d,
  In d sorted -> exists k, In (position d, k) (buildPosMap sorted).
Proof.
  intros sorted d Hin. apply In_nth_error in Hin. destruct Hin as [i Hi].
  exists (Z.of_nat i). unfold buildPosMap. apply in_map_iff.
  exists (i, d). split; [reflexivity|]. now apply indexed_In.
Qed.

Lemma sortBy_length : forall (A : Type) (key : A -> Q) (l : list A),
  List.length (sortBy key l) = List.length l.
Proof.
  intros A key l. apply Permutation_length, sortBy_perm.
Qed.

(** The position [denormalizeDoorPositions] writes to a door is an index
    into its column: a whole number below the number of doors there. *)
Lemma denormalize_nth : forall ds i d,
  nth_error ds i = Some d ->
  exists k,
    nth_error (denormalizeDoorPositions ds) i
    = Some (with_position d (inject_Z k))
    /\ 0 <= k < Z.of_nat (List.length (filter (columnOf d) ds)).
Proof.
  intros ds i d Hd. unfold denormalizeDoorPositions.
  rewrite nth_error_map, Hd. cbn [option_map].
  assert (Hmap : (match doorColumn d with
                  | Left => buildPosMap (sortBy position (filter inLeftColumn ds))
                  | Right => buildPosMap (sortBy position (filter inRightColumn ds))
                  end)
                 = buildPosMap (sortBy position (filter (columnOf d) ds))).
  { unfold columnOf. rewrite inLeftColumn_doorColumn.
    destruct (doorColumn d); reflexivity. }
  rewrite Hmap.
  assert (Hin : In d (sortBy position (filter (columnOf d) ds))).
  { apply (Permutation_in _ (Permutation_sym (sortBy_perm position _))).
    apply filter_In. split; [now apply nth_error_In in Hd|apply columnOf_self]. }
  destruct (buildPosMap_has _ _ Hin) as [k0 Hk0].
  destruct (posMapGet (buildPosMap (sortBy position (filter (columnOf d) ds)))
              (position d)) as [k|] eqn:E.
  - exists k. split; [reflexivity|].
    apply posMapGet_Some in E. destruct E as [q Hq].
    apply buildPosMap_In in Hq. now rewrite sortBy_length in Hq.
  - exfalso. refine (@posMapGet_found _ (position d) _ _ Hk0 _ E).
    apply Qeq_bool_iff. reflexivity.
Qed.

(** C2 (as the claim states it, refuted).  The column with a double door at
    unit 0 and a single door at unit 2 has no overlap; the save-time
    conversion turns the positions into the indices 0 and 1, and read as
    unit offsets these overlap on unit 1. *)
Lemma denormalize_breaks_noOverlap :
  noOverlap stackedColumn
  /\ map position (denormalizeDoorPositions stackedColumn) = [0%Q; 1%Q]
  /\ noOverlapb (denormalizeDoorPositions stackedColumn) = false
  /\ ~ noOverlap (denormalizeDoorPositions stackedColumn).
Proof.
  split.
  { change stackedColumn with (normalizeDoorPositions stackedColumn).
    apply normalize_noOverlap. }
  split; [vm_compute; reflexivity|].
  split; [vm_compute; reflexivity|].
  intros H.
  specialize (H 0%nat 1%nat
                (mkDoor 0 "dd" None None (Some Left))
                (mkDoor 1 "sd" None None (Some Left))
                ltac:(discriminate) eq_refl eq_refl eq_refl).
  vm_compute in H. discriminate H.
Qed.

(** C2 (amended).  [normalizeDoorPositions] changes nothing but positions
    and leaves every column without overlap: two distinct doors of a column
    never share a unit of [[position, position + units)].  The save-time
    conversion [denormalizeDoorPositions] changes nothing but positions
    either, and what it writes is a sequential index, a whole number below
    the number of doors of the column; normalizing what was saved gives a
    column without overlap again. *)
Theorem normalized_columns_do_not_overlap :
  forall ds : list Door,
    noOverlap (normalizeDoorPositions ds)
    /\ (forall i d, nth_error ds i = Some d ->
          exists p, nth_error (normalizeDoorPositions ds) i
                    = Some (with_position d p))
    /\ (forall i d, nth_error ds i = Some d ->
          exists k, nth_error (denormalizeDoorPositions ds) i
                    = Some (with_position d (inject_Z k))
                    /\ 0 <= k < Z.of_nat (List.length (filter (columnOf d) ds)))
    /\ noOverlap (normalizeDoorPositions (denormalizeDoorPositions ds)).
Proof.
  intros ds. split; [apply normalize_noOverlap|].
  split.
  { intros i d Hd. destruct (normalize_nth ds i Hd) as (p & Hp & _).
    now exists p. }
  split; [intros i d Hd; now apply denormalize_nth|].
  apply normalize_noOverlap.
Qed.

(** *** Swapping doors of different sizes *)

(** [trySwapDoors] checks that each door ends below the top of the column
    at its new position and that no third door lies in between, but not that
    the two doors clear each other: exchanging a single door at 0 with a
    double door at 1 is carried out and leaves both doors on unit 1. *)
Example trySwapDoors_can_overlap :
  noOverlapb (doors (frame swapScenarioEditor)) = true
  /\ fst (stateOf (trySwapDoors 0 1 swapScenarioEditor)) = true
  /\ map position
       (doors (frame (snd (stateOf (trySwapDoors 0 1 swapScenarioEditor)))))
     = [1%Q; 0%Q]
  /\ noOverlapb
       (doors (frame (snd (stateOf (trySwapDoors 0 1 swapScenarioEditor)))))
     = false.
Proof.
  repeat split; vm_compute; reflexivity.
Qed.

(* ================================================================== *)
(** * Further properties *)
(* ================================================================== *)

(** ** The level tree *)

Lemma fold_max_ge : forall r x y,
  In y (x :: r) -> y <= fold_left Z.max r x.
Proof.
  induction r as [|z r IH]; intros x y H; simpl in *.
  - destruct H as [<-|[]]. lia.
  - destruct H as [<-|[<-|H]].
    + eapply Z.le_trans; [|apply IH; now left]. lia.
    + eapply Z.le_trans; [|apply IH; now left]. lia.
    + apply IH. now right.
Qed.

(** The id handed out next is larger than every id in use. *)
Lemma nextId_fresh : forall ids, ~ In (nextId ids) ids.
Proof.
  intros [|x r] H; [exact H|].
  unfold nextId in H. apply fold_max_ge in H. lia.
Qed.

Lemma allWallIds_app : forall l1 l2,
  allWallIds (l1 ++ l2) = allWallIds l1 ++ allWallIds l2.
Proof. intros. unfold allWallIds. apply flat_map_app. Qed.

Lemma NoDup_snoc : forall (A : Type) (l : list A) (a : A),
  NoDup l -> ~ In a l -> NoDup (l ++ [a]).
Proof.
  intros A l a Hl Ha. apply NoDup_app; auto.
  - constructor; [intros []|constructor].
  - intros x Hx [<-|[]]. contradiction.
Qed.

Lemma mapWalls_wallIds : forall f ls,
  (forall w, wall_id (f w) = wall_id w) ->
  allWallIds (mapWalls f ls) = allWallIds ls.
Proof.
  intros f ls Hf. unfold allWallIds, mapWalls.
  induction ls as [|l ls IH]; simpl; [reflexivity|].
  rewrite IH. f_equal. rewrite map_map. apply map_ext. exact Hf.
Qed.

Lemma mapWalls_wellFormed : forall f ls,
  (forall w, wall_id (f w) = wall_id w) ->
  treeWellFormed ls -> treeWellFormed (mapWalls f ls).
Proof.
  intros f ls Hf (H1 & H2 & H3). unfold treeWellFormed.
  rewrite mapWalls_ids, mapWalls_wallIds by exact Hf.
  split; [exact H1|]. split; [exact H2|].
  intros l Hl. unfold mapWalls in Hl. apply in_map_iff in Hl.
  destruct Hl as (l0 & <- & Hl0). simpl.
  specialize (H3 l0 Hl0). destruct (walls l0); [congruence|discriminate].
Qed.

(** Dropping walls, or whole levels, keeps the wall ids distinct. *)
Lemma NoDup_flat_map_filter :
  forall (keep : Level -> bool) (keepWall : Level -> Wall -> bool) ls,
    NoDup (allWallIds ls) ->
    NoDup (flat_map
             (fun l => map wall_id (filter (keepWall l) (walls l)))
             (filter keep ls)).
Proof.
  intros keep keepWall ls. unfold allWallIds.
  induction ls as [|l ls IH]; simpl; intros H; [constructor|].
  assert (Hr := NoDup_app_remove_l _ _ H).
  destruct (keep l); simpl; [|now apply IH].
  apply NoDup_app.
  - apply NoDup_map_filter. now apply NoDup_app_remove_r in H.
  - now apply IH.
  - intros a Ha Hb.
    assert (Ha' : In a (map wall_id (walls l))).
    { apply in_map_iff in Ha. destruct Ha as (w & E & Hw).
      apply filter_In in Hw. apply in_map_iff. exists w. tauto. }
    assert (Hb' : In a (flat_map (fun l0 => map wall_id (walls l0)) ls)).
    { apply in_flat_map in Hb. destruct Hb as (l0 & Hl0 & Hw).
      apply filter_In in Hl0. apply in_flat_map. exists l0.
      split; [tauto|]. apply in_map_iff in Hw.
      destruct Hw as (w & E & Hw). apply filter_In in Hw.
      apply in_map_iff. exists w. tauto. }
    clear - H Ha' Hb'. induction (map wall_id (walls l)) as [|x xs IHx];
      simpl in *; [contradiction|].
    inversion H as [|y ys Hnotin Hnd]; subst.
    destruct Ha' as [->|Ha'].
    + apply Hnotin. apply in_or_app. now right.
    + now apply IHx.
Qed.

Lemma filter_all : forall (A : Type) (p : A -> bool) (l : list A),
  (forall a, In a l -> p a = true) -> filter p l = l.
Proof.
  intros A p l; induction l as [|a l IH]; intros H; simpl; [reflexivity|].
  rewrite (H a) by now left. f_equal. apply IH. intros b Hb. apply H. now right.
Qed.

Lemma removeLevel_wellFormed : forall now L s b s',
  treeWellFormed (levels s) ->
  removeLevel now L s = Ok (b, s') -> treeWellFormed (levels s').
Proof.
  intros now L s b s' (H1 & H2 & H3) H. unfold removeLevel in H.
  destruct (L =? 0); [injection H as _ <-; now repeat split|].
  destruct (Z.of_nat (List.length (levels s)) <=? 1);
    [injection H as _ <-; now repeat split|].
  match type of H with
  | (bind ?r _ = _) => destruct r as [a|]; simpl in H; [|discriminate]
  end.
  injection H as _ <-. simpl.
  split; [now apply NoDup_map_filter|]. split.
  - pose proof (NoDup_flat_map_filter
                  (fun l => negb (level_id l =? L)) (fun _ _ => true)
                  (levels s) H2) as K.
    unfold allWallIds.
    erewrite flat_map_ext; [exact K|].
    intros l. simpl. now rewrite filter_all.
  - intros l Hl. apply filter_In in Hl. apply H3. tauto.
Qed.

Lemma addLevel_wellFormed : forall now s,
  treeWellFormed (levels s) ->
  treeWellFormed (levels (snd (addLevel now s))).
Proof.
  intros now s (H1 & H2 & H3). unfold addLevel; simpl.
  unfold treeWellFormed. rewrite map_app, allWallIds_app. simpl.
  split; [apply NoDup_snoc; [exact H1|apply nextId_fresh]|].
  split; [apply NoDup_snoc; [exact H2|apply nextId_fresh]|].
  intros l Hl. apply in_app_or in Hl. destruct Hl as [Hl|[<-|[]]].
  - now apply H3.
  - discriminate.
Qed.

(** Appending a wall to the level with a given id adds exactly that wall
    id to the ids in use. *)
Lemma addWall_ids_perm : forall L nw ls,
  NoDup (map level_id ls) -> In L (map level_id ls) ->
  Permutation
    (allWallIds
       (map (fun l => if level_id l =? L
                      then with_walls l (walls l ++ [nw]) else l) ls))
    (wall_id nw :: allWallIds ls).
Proof.
  intros L nw ls; induction ls as [|l ls IH]; intros Hnd Hin; [easy|].
  inversion Hnd as [|x xs Hnotin Hnd']; subst.
  unfold allWallIds in *. cbn [map flat_map].
  destruct (Z.eqb_spec (level_id l) L) as [E|E].
  - assert (Hsame : map (fun l0 => if level_id l0 =? L
                                   then with_walls l0 (walls l0 ++ [nw])
                                   else l0) ls = ls).
    { rewrite <- (map_id ls) at 2. apply map_ext_in. intros a Ha.
      destruct (Z.eqb_spec (level_id a) L) as [Ea|]; [|reflexivity].
      exfalso. apply Hnotin. rewrite E, <- Ea. now apply in_map. }
    rewrite Hsame. simpl. rewrite map_app. simpl.
    rewrite <- app_assoc. simpl. apply Permutation_sym, Permutation_middle.
  - destruct Hin as [Hin|Hin]; [congruence|].
    specialize (IH Hnd' Hin).
    eapply Permutation_trans; [apply Permutation_app_head, IH|].
    apply Permutation_sym, Permutation_middle.
Qed.

Lemma addWall_wellFormed : forall now L s w s',
  treeWellFormed (levels s) ->
  addWall now L s = Ok (w, s') -> treeWellFormed (levels s').
Proof.
  intros now L s w s' (H1 & H2 & H3) H. unfold addWall in H.
  destruct (find (fun l => level_id l =? L) (levels s)) as [lv|] eqn:F;
    [|discriminate].
  injection H as _ <-. simpl.
  set (nw := mkWall (nextId (allWallIds (levels s))) "" []).
  assert (Hids : map level_id
                   (map (fun l => if level_id l =? L
                                  then with_walls l (walls l ++ [nw]) else l)
                      (levels s)) = map level_id (levels s)).
  { rewrite map_map. apply map_ext. intros l.
    now destruct (level_id l =? L). }
  unfold treeWellFormed. rewrite Hids.
  split; [exact H1|]. split.
  - apply find_some in F. destruct F as [Hin E]. apply Z.eqb_eq in E.
    eapply Permutation_NoDup;
      [apply Permutation_sym, (addWall_ids_perm L nw (levels s) H1)|].
    + rewrite <- E. now apply in_map.
    + constructor; [apply nextId_fresh|exact H2].
  - intros l Hl. apply in_map_iff in Hl. destruct Hl as (l0 & <- & Hl0).
    destruct (level_id l0 =? L); [|now apply H3].
    simpl. destruct (walls l0); discriminate.
Qed.

(** When the callback of [removeWall] does not throw, the new levels are the
    old ones with the wall filtered out of the levels carrying the id. *)
Lemma mapR_pure : forall (A B : Type) (f : A -> result B) (g : A -> B) l l',
  (forall a b, f a = Ok b -> b = g a) ->
  mapR f l = Ok l' -> l' = map g l.
Proof.
  intros A B f g l; induction l as [|a l IH]; intros l' Hf H; simpl in H.
  - now injection H as <-.
  - destruct (f a) as [b|] eqn:Ea; simpl in H; [|discriminate].
    destruct (mapR f l) as [bs|] eqn:Er; simpl in H; [|discriminate].
    injection H as <-. simpl. rewrite (Hf a b Ea). f_equal. now apply IH.
Qed.

(** The pure part of the callback of [removeWall]. *)
Lemma removeWall_levels : forall now L w s b s',
  removeWall now L w s = Ok (b, s') ->
  s' = s
  \/ (b = true
      /\ levels s'
         = map (fun l => if level_id l =? L
                         then with_walls l
                                (filter (fun x => negb (wall_id x =? w))
                                   (walls l))
                         else l) (levels s)
      /\ active_level_id s' = active_level_id s
      /\ exists lv, find (fun l => level_id l =? L) (levels s) = Some lv
                    /\ (2 <= List.length (walls lv))%nat).
Proof.
  intros now L w s b s' H. unfold removeWall in H.
  destruct (find (fun l => level_id l =? L) (levels s)) as [lv|] eqn:F;
    [|injection H as _ <-; now left].
  destruct (Z.leb_spec (Z.of_nat (List.length (walls lv))) 1) as [Hle|Hgt];
    [injection H as _ <-; now left|].
  match type of H with
  | (bind (mapR ?f _) _ = _) =>
      destruct (mapR f (levels s)) as [ls'|] eqn:Em; simpl in H;
        [|discriminate];
      apply (mapR_pure f
               (fun l => if level_id l =? L
                         then with_walls l
                                (filter (fun x => negb (wall_id x =? w))
                                   (walls l))
                         else l)) in Em
  end.
  - injection H as <- <-. right. simpl. split; [reflexivity|].
    split; [exact Em|]. split; [reflexivity|]. exists lv. split; [reflexivity|lia].
  - intros a c Hac. destruct (level_id a =? L); [|congruence].
    destruct (active_wall_id s =? w);
      [destruct (filter _ (walls a)); simpl in Hac; [discriminate|]|];
      simpl in Hac; injection Hac as <-; reflexivity.
Qed.

Lemma filter_neq_nonempty : forall (A : Type) (key : A -> Z) k (l : list A),
  NoDup (map key l) -> (2 <= List.length l)%nat ->
  filter (fun x => negb (key x =? k)) l <> [].
Proof.
  intros A key k [|a [|b l]] Hnd Hlen; simpl in *; try lia.
  inversion Hnd as [|x xs Hnotin _]; subst.
  destruct (Z.eqb_spec (key a) k) as [Ea|]; simpl; [|discriminate].
  destruct (Z.eqb_spec (key b) k) as [Eb|]; simpl; [|discriminate].
  exfalso. apply Hnotin. left. congruence.
Qed.

Lemma allWallIds_level : forall l ls,
  In l ls -> NoDup (allWallIds ls) -> NoDup (map wall_id (walls l)).
Proof.
  intros l ls; induction ls as [|x ls IH]; intros Hin Hnd; [easy|].
  unfold allWallIds in *. simpl in Hnd. destruct Hin as [->|Hin].
  - now apply NoDup_app_remove_r in Hnd.
  - apply IH; [exact Hin|]. now apply NoDup_app_remove_l in Hnd.
Qed.

Lemma NoDup_map_inj : forall (A B : Type) (f : A -> B) l a b,
  NoDup (map f l) -> In a l -> In b l -> f a = f b -> a = b.
Proof.
  intros A B f l a b; induction l as [|x xs IH]; intros Hnd Ha Hb E; [easy|].
  simpl in Hnd. inversion Hnd as [|y ys Hnotin Hnd']. clear Hnd.
  destruct Ha as [Ha|Ha], Hb as [Hb|Hb].
  - congruence.
  - exfalso. apply Hnotin. rewrite Ha, E. now apply in_map.
  - exfalso. apply Hnotin. rewrite Hb, <- E. now apply in_map.
  - now apply IH.
Qed.

Lemma removeWall_wellFormed : forall now L w s b s',
  treeWellFormed (levels s) ->
  removeWall now L w s = Ok (b, s') -> treeWellFormed (levels s').
Proof.
  intros now L w s b s' WF H. assert (WF0 := WF).
  destruct WF as (H1 & H2 & H3).
  apply removeWall_levels in H.
  destruct H as [->|(_ & El & _ & lv & F & Hlen)]; [exact WF0|].
  rewrite El. unfold treeWellFormed.
  assert (Hids : map level_id
                   (map (fun l => if level_id l =? L
                                  then with_walls l
                                         (filter (fun x => negb (wall_id x =? w))
                                            (walls l))
                                  else l) (levels s))
                 = map level_id (levels s)).
  { rewrite map_map. apply map_ext. intros l. now destruct (level_id l =? L). }
  rewrite Hids. split; [exact H1|]. split.
  - pose proof (NoDup_flat_map_filter (fun _ => true)
                  (fun l x => if level_id l =? L
                              then negb (wall_id x =? w) else true)
                  (levels s) H2) as K.
    rewrite filter_all in K by reflexivity.
    unfold allWallIds. rewrite flat_map_concat_map, map_map.
    rewrite flat_map_concat_map in K.
    erewrite map_ext; [exact K|].
    intros l. simpl. destruct (level_id l =? L); simpl; [reflexivity|].
    now rewrite filter_all.
  - intros l Hl. apply in_map_iff in Hl. destruct Hl as (l0 & <- & Hl0).
    destruct (Z.eqb_spec (level_id l0) L) as [E|E]; [|now apply H3].
    simpl. apply (filter_neq_nonempty wall_id).
    + now apply (allWallIds_level l0 (levels s)).
    + assert (l0 = lv).
      { apply find_some in F. destruct F as [Hlv Elv]. apply Z.eqb_eq in Elv.
        apply (NoDup_map_inj level_id (levels s)); auto. congruence. }
      now subst l0.
Qed.

Lemma applyOp_wellFormed : forall now op s,
  treeWellFormed (levels s) -> treeWellFormed (levels (applyOp now op s)).
Proof.
  intros now op s WF.
  destruct op as [|L|L|L w|L|w|i w f|w f]; cbn [applyOp].
  - now apply addLevel_wellFormed.
  - destruct (removeLevel now L s) as [[b s']|] eqn:E; [|exact WF].
    eapply removeLevel_wellFormed; eauto.
  - destruct (addWall now L s) as [[nw s']|] eqn:E; [|exact WF].
    eapply addWall_wellFormed; eauto.
  - destruct (removeWall now L w s) as [[b s']|] eqn:E; [|exact WF].
    eapply removeWall_wellFormed; eauto.
  - unfold setActiveLevel. destruct (getLevel s L); exact WF.
  - unfold setActiveWall. destruct (findLevelOfWall w (levels s)); exact WF.
  - unfold addFrame; simpl. apply mapWalls_wellFormed; [|exact WF].
    intros x. now destruct (wall_id x =? w).
  - unfold removeFrame; simpl. apply mapWalls_wellFormed; [|exact WF].
    intros x. now destruct (wall_id x =? w).
Qed.

Lemma INITIAL_STATE_wellFormed : treeWellFormed (levels INITIAL_STATE).
Proof.
  unfold treeWellFormed; simpl. split; [repeat constructor; intros []|].
  split; [repeat constructor; intros []|].
  intros l [<-|[]]. discriminate.
Qed.

(** X2.  In every state the mutation operations reach from the initial
    state, level ids are pairwise distinct, wall ids are distinct across all
    levels, and every level has at least one wall. *)
Theorem reachable_tree_wellFormed : forall s,
  reachable s -> treeWellFormed (levels s).
Proof.
  intros s Hr. induction Hr as [|now op s Hr IH].
  - exact INITIAL_STATE_wellFormed.
  - now apply applyOp_wellFormed.
Qed.

Lemma reachable_tree_wellFormed_witness :
  treeWellFormed
    (levels (runOps "t" [OpAddLevel; OpAddWall 1; OpRemoveWall 1 2]
               INITIAL_STATE)).
Proof.
  apply reachable_tree_wellFormed.
  apply reachable_runOps. constructor.
Defined.

(** X1.  Whatever sequence of store operations is run from the initial
    state, level 0 is still there, the active level id names an existing
    level, and that level has at least one wall. *)
Theorem reachable_level0_and_active_level : forall s,
  reachable s ->
  (exists l0, getLevel s 0 = Some l0)
  /\ exists l, getActiveLevel s = Some l /\ walls l <> [].
Proof.
  intros s Hr.
  assert (K : activeLevelKept s /\ treeWellFormed (levels s)).
  { induction Hr as [|now op s Hr [IH1 IH2]].
    - split; [split; simpl; now left|exact INITIAL_STATE_wellFormed].
    - split; [now apply applyOp_keeps_active_level
             |now apply applyOp_wellFormed]. }
  destruct K as [[H0 Ha] (_ & _ & H3)].
  split; [now apply getLevel_In_ids|].
  apply getLevel_In_ids in Ha. destruct Ha as [l Hl]. exists l.
  split; [exact Hl|]. apply H3.
  unfold getLevel in Hl. now apply find_some in Hl.
Qed.

Lemma reachable_level0_and_active_level_witness :
  let s := runOps "t" [OpAddLevel; OpSetActiveLevel 1; OpRemoveLevel 1]
             INITIAL_STATE in
  (exists l0, getLevel s 0 = Some l0)
  /\ exists l, getActiveLevel s = Some l /\ walls l <> [].
Proof.
  apply reachable_level0_and_active_level.
  apply reachable_runOps. constructor.
Defined.

Lemma mapR_Throw : forall (A B : Type) (f : A -> result B) l,
  mapR f l = Throw -> exists a, In a l /\ f a = Throw.
Proof.
  intros A B f l; induction l as [|a l IH]; intros H; simpl in H;
    [discriminate|].
  destruct (f a) as [b|] eqn:Ea; simpl in H.
  - destruct (mapR f l) as [bs|] eqn:Er; simpl in H; [discriminate|].
    destruct (IH eq_refl) as (x & Hx & Ex). exists x. split; [now right|easy].
  - exists a. split; [now left|easy].
Qed.

Lemma wellFormed_removeLevel_ok : forall now L s,
  treeWellFormed (levels s) -> removeLevel now L s <> Throw.
Proof.
  intros now L s (H1 & _ & _). unfold removeLevel.
  destruct (L =? 0); [discriminate|].
  destruct (Z.leb_spec (Z.of_nat (List.length (levels s))) 1) as [|Hlen];
    [discriminate|].
  destruct (active_level_id s =? L); [|discriminate].
  pose proof (@filter_neq_nonempty _ level_id L (levels s) H1) as K.
  destruct (filter (fun l => negb (level_id l =? L)) (levels s)).
  - exfalso. apply K; [lia|reflexivity].
  - discriminate.
Qed.

Lemma wellFormed_removeWall_ok : forall now L w s,
  treeWellFormed (levels s) -> removeWall now L w s <> Throw.
Proof.
  intros now L w s (H1 & H2 & _). unfold removeWall.
  destruct (find (fun l => level_id l =? L) (levels s)) as [lv|] eqn:F;
    [|discriminate].
  destruct (Z.leb_spec (Z.of_nat (List.length (walls lv))) 1) as [|Hlen];
    [discriminate|].
  match goal with
  | |- bind (mapR ?f _) _ <> _ =>
      destruct (mapR f (levels s)) as [ls'|] eqn:Em; [discriminate|];
      apply mapR_Throw in Em
  end.
  destruct Em as (a & Ha & Ea). exfalso.
  destruct (Z.eqb_spec (level_id a) L) as [E|E]; [|discriminate].
  apply find_some in F. destruct F as [Hlv Elv]. apply Z.eqb_eq in Elv.
  assert (a = lv)
    by (apply (NoDup_map_inj level_id (levels s)); auto; congruence).
  subst a.
  pose proof (@filter_neq_nonempty _ wall_id w (walls lv)
                (allWallIds_level lv (levels s) Hlv H2)) as K.
  destruct (active_wall_id s =? w); [|discriminate].
  destruct (filter (fun x => negb (wall_id x =? w)) (walls lv)).
  - apply K; [lia|reflexivity].
  - discriminate.
Qed.

(** X3.  In a state reached from the initial state, [removeLevel] and
    [removeWall] never throw, whatever ids they are given: the reads of
    [newLevels[0]] and [newWalls[0]] always find an element. *)
Theorem reachable_remove_never_throws : forall s,
  reachable s ->
  forall now L w,
    removeLevel now L s <> Throw /\ removeWall now L w s <> Throw.
Proof.
  intros s Hr now L w.
  assert (WF : treeWellFormed (levels s)).
  { induction Hr; [exact INITIAL_STATE_wellFormed
                  |now apply applyOp_wellFormed]. }
  split; [now apply wellFormed_removeLevel_ok
         |now apply wellFormed_removeWall_ok].
Qed.

Lemma reachable_remove_never_throws_witness :
  let s := runOps "t" [OpAddLevel; OpAddWall 1; OpSetActiveWall 2]
             INITIAL_STATE in
  removeLevel "t" 1 s <> Throw /\ removeWall "t" 1 2 s <> Throw.
Proof.
  apply reachable_remove_never_throws.
  apply reachable_runOps. constructor.
Defined.

(** ** Activating a wall or a level *)

Lemma find_map : forall (A B : Type) (p : B -> bool) (g : A -> B) l,
  find p (map g l) = option_map g (find (fun x => p (g x)) l).
Proof.
  intros A B p g l; induction l as [|a l IH]; simpl; [reflexivity|].
  destruct (p (g a)); [reflexivity|exact IH].
Qed.

Lemma find_ext_in : forall (A : Type) (p q : A -> bool) l,
  (forall x, In x l -> p x = q x) -> find p l = find q l.
Proof.
  intros A p q l; induction l as [|a l IH]; intros H; simpl; [reflexivity|].
  rewrite (H a) by now left. destruct (q a); [reflexivity|].
  apply IH. intros x Hx. apply H. now right.
Qed.


Lemma existsb_map : forall (A B : Type) (p : B -> bool) (g : A -> B) l,
  existsb p (map g l) = existsb (fun x => p (g x)) l.
Proof.
  intros A B p g l; induction l as [|a l IH]; simpl; [reflexivity|].
  now rewrite IH.
Qed.

(** Whether a level owns a wall with the given id. *)
Lemma ownsWall_In : forall w l,
  (match find (fun x => wall_id x =? w) (walls l) with
   | Some _ => true | None => false end) = true
  <-> In w (map wall_id (walls l)).
Proof.
  intros w l. destruct (find _ (walls l)) as [x|] eqn:F; split; intros H.
  - apply find_some in F. destruct F as [Hx E]. apply Z.eqb_eq in E.
    rewrite <- E. now apply in_map.
  - reflexivity.
  - discriminate.
  - exfalso. apply in_map_iff in H. destruct H as (x & E & Hx).
    assert (K : (wall_id x =? w) = false)
      by (exact (find_none _ _ F x Hx)).
    apply Z.eqb_neq in K. congruence.
Qed.

Lemma ownsWall_existsb : forall w l,
  In w (map wall_id (walls l)) ->
  existsb (fun x => wall_id x =? w) (walls l) = true.
Proof.
  intros w l H. apply in_map_iff in H. destruct H as (x & E & Hx).
  apply existsb_exists. exists x. split; [exact Hx|now apply Z.eqb_eq].
Qed.

(** X4.  With distinct level ids, [setActiveWall] succeeds exactly for the
    ids of existing walls: it then makes that wall and the level that owns
    it active, leaves the levels alone and the pointers valid; for any other
    id it throws. *)
Theorem setActiveWall_spec : forall now w s,
  NoDup (map level_id (levels s)) ->
  (In w (allWallIds (levels s)) ->
   exists s', setActiveWall now w s = Ok s'
     /\ active_wall_id s' = w /\ levels s' = levels s
     /\ activePointersValid s' = true)
  /\ (~ In w (allWallIds (levels s)) -> setActiveWall now w s = Throw).
Proof.
  intros now w s Hnd. unfold setActiveWall, findLevelOfWall. split; intros H.
  - destruct (find _ (levels s)) as [fl|] eqn:F.
    + eexists. split; [reflexivity|]. simpl. repeat split.
      apply find_some in F. destruct F as [Hfl Hown].
      apply ownsWall_In in Hown.
      unfold activePointersValid, getActiveLevel. simpl.
      match goal with
      | |- context [getLevel ?st (level_id fl)] =>
          rewrite (@getLevel_of_member st fl Hnd Hfl)
      end.
      now apply ownsWall_existsb.
    + exfalso. unfold allWallIds in H. apply in_flat_map in H.
      destruct H as (l & Hl & Hw).
      assert (K := find_none _ _ F l Hl). simpl in K.
      apply ownsWall_In in Hw. congruence.
  - destruct (find _ (levels s)) as [fl|] eqn:F; [|reflexivity].
    exfalso. apply H. apply find_some in F. destruct F as [Hfl Hown].
    apply ownsWall_In in Hown. unfold allWallIds. apply in_flat_map.
    now exists fl.
Qed.

Lemma setActiveWall_spec_witness :
  exists s',
    setActiveWall "t" 1 (runOps "t" [OpAddLevel] INITIAL_STATE) = Ok s'
    /\ active_wall_id s' = 1
    /\ levels s' = levels (runOps "t" [OpAddLevel] INITIAL_STATE)
    /\ activePointersValid s' = true.
Proof.
  apply (proj1 (@setActiveWall_spec "t" 1
                  (runOps "t" [OpAddLevel] INITIAL_STATE)
                  ltac:(simpl; repeat constructor; simpl; intuition lia))).
  simpl. right. now left.
Defined.

(** ** The component's [addLevel] and [addWall] *)







(** ** Frame operations *)

Lemma mapWalls_getLevel : forall f i ls,
  find (fun l => level_id l =? i) (mapWalls f ls)
  = option_map (fun l => with_walls l (map f (walls l)))
      (find (fun l => level_id l =? i) ls).
Proof.
  intros f i ls. unfold mapWalls. rewrite find_map. reflexivity.
Qed.

Lemma mapWalls_pointers : forall f now s,
  (forall w, wall_id (f w) = wall_id w) ->
  activePointersValid (setState now (with_levels s (mapWalls f (levels s))))
  = activePointersValid s.
Proof.
  intros f now s Hf. unfold activePointersValid, getActiveLevel, getLevel.
  cbn [levels active_level_id active_wall_id setState with_levels
       with_updated_at].
  rewrite mapWalls_getLevel.
  destruct (find _ (levels s)) as [l|]; [|reflexivity].
  cbn [option_map with_walls walls]. rewrite existsb_map.
  induction (walls l) as [|w ws IH]; simpl; [reflexivity|].
  now rewrite Hf, IH.
Qed.

Lemma mapWalls_sameTree : forall f now s,
  (forall w, wall_id (f w) = wall_id w) ->
  sameTree s (setState now (with_levels s (mapWalls f (levels s)))).
Proof.
  intros f now s Hf. unfold sameTree, levelIds.
  cbn [levels active_level_id active_wall_id setState with_levels
       with_updated_at].
  split; [apply mapWalls_ids|]. split.
  - unfold mapWalls. rewrite map_map. apply map_ext. intros l.
    cbn [with_walls walls]. rewrite map_map. apply map_ext. exact Hf.
  - split; [reflexivity|]. split; [reflexivity|].
    now apply mapWalls_pointers.
Qed.

(** X7.  [addFrame], [removeFrame] and [updateWallFrames] change frames
    only: the level ids, the wall ids of every level, the active level and
    wall and the validity of the active pointers are what they were. *)
Theorem frame_operations_keep_tree :
  forall now newId wallId frame frameId fs s,
    sameTree s (snd (addFrame now newId wallId frame s))
    /\ sameTree s (removeFrame now wallId frameId s)
    /\ sameTree s (updateWallFrames now wallId fs s).
Proof.
  intros. unfold addFrame, removeFrame, updateWallFrames. cbn [snd].
  repeat split; apply mapWalls_sameTree; intros w;
    now destruct (wall_id w =? wallId).
Qed.

Lemma mapWalls_id_on : forall f ls,
  (forall l w, In l ls -> In w (walls l) -> f w = w) ->
  mapWalls f ls = ls.
Proof.
  intros f ls H. unfold mapWalls. rewrite <- (map_id ls) at 2.
  apply map_ext_in. intros l Hl.
  assert (E : map f (walls l) = walls l).
  { rewrite <- (map_id (walls l)) at 2. apply map_ext_in.
    intros w Hw. now apply (H l). }
  rewrite E. now destruct l.
Qed.

Lemma mapWalls_mapWalls : forall f g ls,
  mapWalls g (mapWalls f ls) = mapWalls (fun w => g (f w)) ls.
Proof.
  intros f g ls. unfold mapWalls. rewrite map_map. apply map_ext.
  intros l. cbn [with_walls walls level_id]. now rewrite map_map.
Qed.

Lemma filter_id : forall (A : Type) (p : A -> bool) l,
  (forall x, In x l -> p x = true) -> filter p l = l.
Proof.
  intros A p l; induction l as [|a l IH]; intros H; simpl; [reflexivity|].
  rewrite (H a) by now left. f_equal. apply IH. intros x Hx. apply H.
  now right.
Qed.

(** X8.  Adding a frame to a wall and then removing the frame with the id
    it was given restores the levels, provided no frame of that wall
    already carried the id. *)
Theorem addFrame_removeFrame_roundtrip :
  forall now now' newId wallId frame s,
    (forall l w f, In l (levels s) -> In w (walls l) -> wall_id w = wallId ->
                   In f (frames w) -> id f <> newId) ->
    levels (removeFrame now' wallId newId
              (snd (addFrame now newId wallId frame s)))
    = levels s.
Proof.
  intros now now' newId wallId frame s H.
  unfold removeFrame, addFrame.
  cbn [snd levels setState with_levels with_updated_at].
  rewrite mapWalls_mapWalls. apply mapWalls_id_on.
  intros l w Hl Hw.
  destruct (Z.eqb_spec (wall_id w) wallId) as [E|E].
  - cbn [with_frames wall_id frames]. rewrite E, Z.eqb_refl.
    cbn [with_frames wall_id frames].
    rewrite filter_app. cbn [filter with_id id].
    rewrite String.eqb_refl. cbn [negb]. rewrite app_nil_r.
    rewrite filter_id.
    + now destruct w.
    + intros f Hf. apply negb_true_iff. apply String.eqb_neq.
      now apply (H l w).
  - destruct (Z.eqb_spec (wall_id w) wallId); [contradiction|reflexivity].
Qed.

Lemma addFrame_removeFrame_roundtrip_witness :
  levels (removeFrame "t2" 0 "f1"
            (snd (addFrame "t1" "f1" 0 (reorderFrame "x") INITIAL_STATE)))
  = levels INITIAL_STATE.
Proof.
  apply addFrame_removeFrame_roundtrip.
  intros l w f Hl Hw _ Hf. simpl in Hl. destruct Hl as [<-|[]].
  simpl in Hw. destruct Hw as [<-|[]]. destruct Hf.
Defined.

(** ** Removing levels *)

(** A [removeLevel] that went through leaves valid pointers. *)
Lemma removeLevel_success_valid : forall now L s s',
  (forall l, In l (levels s) -> walls l <> []) ->
  In (active_level_id s) (levelIds s) ->
  removeLevel now L s = Ok (true, s') ->
  activePointersValid s' = true.
Proof.
  intros now L s s' Hw Ha H. unfold removeLevel in H.
  destruct (L =? 0); [discriminate|].
  destruct (Z.of_nat (List.length (levels s)) <=? 1); [discriminate|].
  set (newLevels := filter (fun l => negb (level_id l =? L)) (levels s)) in *.
  assert (Hex : forall i, In i (map level_id newLevels) ->
            exists l1 w0 ws, find (fun l => level_id l =? i) newLevels = Some l1
                             /\ walls l1 = w0 :: ws).
  { intros i Hi. apply in_map_iff in Hi. destruct Hi as (l & E & Hl).
    destruct (find (fun l => level_id l =? i) newLevels) as [l1|] eqn:F.
    - assert (Hl1 : In l1 (levels s)).
      { apply find_some in F. destruct F as [F _].
        unfold newLevels in F. now apply filter_In in F. }
      specialize (Hw l1 Hl1). destruct (walls l1) as [|w0 ws] eqn:W;
        [congruence|]. now exists l1, w0, ws.
    - exfalso. assert (K := find_none _ _ F l Hl). simpl in K.
      apply Z.eqb_neq in K. congruence. }
  assert (Hfin : forall i, In i (map level_id newLevels) ->
            H = H ->
            forall st,
              st = setState now
                     (with_active_wall_id
                        (with_active_level_id (with_levels s newLevels) i)
                        (orZero (firstWallId
                           (find (fun l => level_id l =? i) newLevels)))) ->
              activePointersValid st = true).
  { intros i Hi _ st ->.
    destruct (Hex i Hi) as (l1 & w0 & ws & F & W).
    unfold activePointersValid, getActiveLevel, getLevel.
    cbn [levels active_level_id active_wall_id setState with_levels
         with_updated_at with_active_wall_id with_active_level_id].
    rewrite F. unfold firstWallId. rewrite W. rewrite orZero_Some.
    simpl. now rewrite Z.eqb_refl. }
  destruct (Z.eqb_spec (active_level_id s) L) as [E|E].
  - destruct newLevels as [|l0 r] eqn:N; [discriminate|].
    cbn [bind] in H. injection H as <-.
    apply (Hfin (level_id l0)); [now left|reflexivity|reflexivity].
  - cbn [bind] in H. injection H as <-.
    apply (Hfin (active_level_id s)); [|reflexivity|reflexivity].
    now apply filter_ids_In.
Qed.


(** X9.  A successful [removeLevel] repairs the active pointers: when
    every level has a wall and the active level exists, the state after
    the removal has no level with the removed id, and its active level and
    active wall exist, whatever the active wall id was before. *)
Theorem removeLevel_restores_pointers : forall now L s s',
  (forall l, In l (levels s) -> walls l <> []) ->
  In (active_level_id s) (levelIds s) ->
  removeLevel now L s = Ok (true, s') ->
  ~ In L (levelIds s') /\ activePointersValid s' = true.
Proof.
  intros now L s s' Hw Ha H. split.
  - assert (El : levels s'
                 = filter (fun l => negb (level_id l =? L)) (levels s)).
    { unfold removeLevel in H.
      destruct (L =? 0); [discriminate|].
      destruct (Z.of_nat (List.length (levels s)) <=? 1); [discriminate|].
      destruct (active_level_id s =? L);
        [destruct (filter _ (levels s)) eqn:F; [discriminate|]|];
        cbn [bind] in H; injection H as <-; cbn; now rewrite ?F. }
    unfold levelIds. rewrite El. intros K.
    apply in_map_iff in K. destruct K as (l & E & Hl).
    apply filter_In in Hl. destruct Hl as [_ Hl].
    rewrite E, Z.eqb_refl in Hl. discriminate.
  - eapply removeLevel_success_valid; eassumption.
Qed.

Lemma removeLevel_restores_pointers_witness :
  ~ In 1 (levelIds
            (applyOp "t" (OpRemoveLevel 1)
               (with_active_wall_id
                  (runOps "t" [OpAddLevel; OpSetActiveLevel 1] INITIAL_STATE)
                  7)))
  /\ activePointersValid
       (applyOp "t" (OpRemoveLevel 1)
          (with_active_wall_id
             (runOps "t" [OpAddLevel; OpSetActiveLevel 1] INITIAL_STATE) 7))
     = true.
Proof.
  apply (@removeLevel_restores_pointers "t" 1
           (with_active_wall_id
              (runOps "t" [OpAddLevel; OpSetActiveLevel 1] INITIAL_STATE) 7)).
  - intros l Hl. simpl in Hl. destruct Hl as [<-|[<-|[]]]; discriminate.
  - simpl. right. now left.
  - vm_compute. reflexivity.
Defined.

(** X10.  [removeLevel] with an id no level carries (other than 0, on a
    store with two or more levels) reports success although nothing is
    removed: the levels are unchanged. *)
Theorem removeLevel_unknown_id : forall now L s,
  L <> 0 -> (2 <= List.length (levels s))%nat -> ~ In L (levelIds s) ->
  exists s', removeLevel now L s = Ok (true, s') /\ levels s' = levels s.
Proof.
  intros now L s H0 Hlen Hnot. unfold removeLevel.
  destruct (Z.eqb_spec L 0); [contradiction|].
  destruct (Z.leb_spec (Z.of_nat (List.length (levels s))) 1); [lia|].
  assert (Hf : filter (fun l => negb (level_id l =? L)) (levels s) = levels s).
  { apply filter_id. intros x Hx. apply negb_true_iff, Z.eqb_neq.
    intros E. apply Hnot. unfold levelIds. rewrite <- E. now apply in_map. }
  rewrite Hf.
  destruct (active_level_id s =? L).
  - destruct (levels s) as [|l0 r] eqn:Els; [simpl in Hlen; lia|].
    cbn [bind]. eexists. split; [reflexivity|]. reflexivity.
  - cbn [bind]. eexists. split; [reflexivity|]. reflexivity.
Qed.

Lemma removeLevel_unknown_id_witness :
  let s := runOps "t" [OpAddLevel] INITIAL_STATE in
  exists s', removeLevel "t" 5 s = Ok (true, s') /\ levels s' = levels s.
Proof.
  apply removeLevel_unknown_id; [lia|simpl; lia|].
  simpl. intuition lia.
Defined.

(** ** Project snapshots *)

Lemma orKeep_same : forall v, orKeep (Some v) v = v.
Proof. intros v. unfold orKeep. now destruct (String.eqb v ""). Qed.

Lemma orKeepOpt_same : forall o, orKeepOpt o o = o.
Proof. intros o. unfold orKeepOpt. now destruct (truthy o). Qed.

(** X11.  Exporting a store and loading the snapshot back into the same
    store gives the store back unchanged, provided it has at least one
    level; with no level the load falls back to the initial level. *)
Theorem load_export_same_store : forall s,
  (levels s <> [] ->
   loadStateFromProject (exportStateForProject s) s = s)
  /\ (levels s = [] ->
      levels (loadStateFromProject (exportStateForProject s) s)
      = levels INITIAL_STATE).
Proof.
  intros s. split; intros H.
  - unfold loadStateFromProject, exportStateForProject.
    cbn [projectLevels activeLevelId activeWallId installType kitColorValue
         kitColorName depotColor adaMode deliveryMode appMode doorIdType
         doorIdFont lockType tenantNumStart parcelNumStart
         configurationNumberArray moduleMode].
    rewrite !orKeep_same, !orKeepOpt_same.
    destruct (levels s) as [|l ls] eqn:E; [congruence|].
    replace (0 <? Z.of_nat (List.length (l :: ls))) with true
      by (symmetry; apply Z.ltb_lt; cbn [List.length]; lia).
    destruct s as [c lv al aw ? ? ? ? ? ? ? ? ? ? ? ? ? ?]. simpl in *.
    subst lv. now destruct c.
  - unfold loadStateFromProject, exportStateForProject.
    cbn [projectLevels levels]. now rewrite H.
Qed.

Lemma load_export_same_store_witness :
  loadStateFromProject
    (exportStateForProject
       (runOps "t" [OpAddLevel; OpAddFrame "f" 0 (reorderFrame "x")]
          INITIAL_STATE))
    (runOps "t" [OpAddLevel; OpAddFrame "f" 0 (reorderFrame "x")]
       INITIAL_STATE)
  = runOps "t" [OpAddLevel; OpAddFrame "f" 0 (reorderFrame "x")]
      INITIAL_STATE.
Proof.
  apply (proj1 (load_export_same_store
                  (runOps "t" [OpAddLevel; OpAddFrame "f" 0 (reorderFrame "x")]
                     INITIAL_STATE))).
  simpl. discriminate.
Defined.

(** ** Numbering *)

Lemma processDoor_column : forall c d,
  column (snd (processDoor c d)) = column d.
Proof.
  intros c d. unfold processDoor.
  destruct (isSkippedDoor _); [reflexivity|].
  now destruct (isParcelDoor _).
Qed.

Lemma processDoor_type : forall c d,
  door_type (snd (processDoor c d)) = door_type d.
Proof.
  intros c d. unfold processDoor.
  destruct (isSkippedDoor _); [reflexivity|].
  now destruct (isParcelDoor _).
Qed.

Lemma inLeftColumn_byColumn : byColumn inLeftColumn.
Proof. intros d d' E. unfold inLeftColumn. now rewrite E. Qed.

Lemma inRightColumn_byColumn : byColumn inRightColumn.
Proof. intros d d' E. unfold inRightColumn. now rewrite E. Qed.

(** Running [processDoor] over a column of a frame is running it over the
    doors of that column alone. *)
Lemma processDoors_filter : forall sel,
  byColumn sel ->
  forall ds c,
    fst (processDoors sel c ds) = fst (processDoors everyDoor c (filter sel ds))
    /\ filter sel (snd (processDoors sel c ds))
       = snd (processDoors everyDoor c (filter sel ds)).
Proof.
  intros sel Hsel ds; induction ds as [|d r IH]; intros c; simpl;
    [now split|].
  destruct (sel d) eqn:Sd.
  - simpl. destruct (processDoor c d) as [c1 d'] eqn:P.
    destruct (IH c1) as [I1 I2].
    destruct (processDoors sel c1 r) as [c2 r'].
    destruct (processDoors everyDoor c1 (filter sel r)) as [c3 r''].
    simpl in *. split; [exact I1|].
    assert (Sd' : sel d' = true).
    { rewrite <- Sd. apply Hsel.
      pose proof (processDoor_column c d) as K. now rewrite P in K. }
    rewrite Sd'. now f_equal.
  - destruct (IH c) as [I1 I2].
    destruct (processDoors sel c r) as [c2 r'].
    simpl in *. split; [exact I1|]. now rewrite Sd.
Qed.

(** A pass over one column leaves the doors of a disjoint column alone. *)
Lemma processDoors_filter_other : forall sel sel',
  byColumn sel' -> (forall d, sel d = true -> sel' d = false) ->
  forall ds c, filter sel' (snd (processDoors sel c ds)) = filter sel' ds.
Proof.
  intros sel sel' Hsel' Hdis ds; induction ds as [|d r IH]; intros c; simpl;
    [reflexivity|].
  destruct (sel d) eqn:Sd.
  - destruct (processDoor c d) as [c1 d'] eqn:P.
    specialize (IH c1). destruct (processDoors sel c1 r) as [c2 r'].
    simpl in *.
    assert (E : sel' d' = sel' d).
    { apply Hsel'. pose proof (processDoor_column c d) as K.
      now rewrite P in K. }
    rewrite E, (Hdis d Sd). exact IH.
  - specialize (IH c). destruct (processDoors sel c r) as [c2 r'].
    simpl in *. now rewrite IH.
Qed.

Lemma processDoors_app : forall sel a b c,
  processDoors sel c (a ++ b)
  = (fst (processDoors sel (fst (processDoors sel c a)) b),
     snd (processDoors sel c a)
     ++ snd (processDoors sel (fst (processDoors sel c a)) b)).
Proof.
  intros sel a; induction a as [|d r IH]; intros b c; simpl.
  - now destruct (processDoors sel c b).
  - destruct (sel d).
    + destruct (processDoor c d) as [c1 d'].
      rewrite IH. destruct (processDoors sel c1 r) as [c2 r']. reflexivity.
    + rewrite IH. destruct (processDoors sel c r) as [c2 r']. reflexivity.
Qed.

(** Numbering the frames of a wall is one run of [processDoor] over the
    doors in processing order. *)
Lemma numberFrames_sequential : forall fs c,
  fst (numberFrames c fs)
  = fst (processDoors everyDoor c (processingOrder fs))
  /\ processingOrder (snd (numberFrames c fs))
     = snd (processDoors everyDoor c (processingOrder fs)).
Proof.
  induction fs as [|f r IH]; intros c; [now split|].
  cbn [numberFrames]. unfold numberFrame.
  destruct (processDoors_filter inLeftColumn_byColumn (doors f) c)
    as [L1 L2].
  pose proof (@processDoors_filter_other inLeftColumn inRightColumn
                inRightColumn_byColumn) as L3.
  destruct (processDoors inLeftColumn c (doors f)) as [c1 ds1] eqn:P1.
  destruct (processDoors_filter inRightColumn_byColumn ds1 c1) as [R1 R2].
  pose proof (@processDoors_filter_other inRightColumn inLeftColumn
                inLeftColumn_byColumn) as R3.
  specialize (L3 ltac:(intros d; unfold inLeftColumn, inRightColumn;
                        now destruct (column d) as [[|]|])
                (doors f) c).
  specialize (R3 ltac:(intros d; unfold inLeftColumn, inRightColumn;
                        now destruct (column d) as [[|]|])
                ds1 c1).
  rewrite P1 in L3. cbn [fst snd] in *.
  destruct (processDoors inRightColumn c1 ds1) as [c2 ds2] eqn:P2.
  cbn [fst snd] in *.
  destruct (IH c2) as [I1 I2].
  destruct (numberFrames c2 r) as [c3 r'] eqn:P3. cbn [fst snd] in *.
  unfold processingOrder in *. cbn [flat_map doors with_doors].
  rewrite !processDoors_app. cbn [fst snd].
  rewrite L3 in R1, R2. rewrite R3, L2, R2.
  rewrite <- L1, <- R1, <- I1, <- I2. now split.
Qed.

Lemma consecutiveLabels_S : forall fmt start n,
  consecutiveLabels fmt start (S n)
  = Some (fmt start) :: consecutiveLabels fmt (start + 1) n.
Proof.
  intros fmt start n. unfold consecutiveLabels.
  cbn [seq map]. rewrite Z.add_0_r. f_equal.
  rewrite <- seq_shift, map_map. apply map_ext. intros k.
  do 2 f_equal. lia.
Qed.

Lemma takesTenantNumber_processDoor : forall c d,
  takesTenantNumber everyDoor (snd (processDoor c d))
  = takesTenantNumber everyDoor d.
Proof.
  intros. unfold takesTenantNumber, everyDoor.
  now rewrite processDoor_type.
Qed.

Lemma takesParcelNumber_processDoor : forall c d,
  takesParcelNumber everyDoor (snd (processDoor c d))
  = takesParcelNumber everyDoor d.
Proof.
  intros. unfold takesParcelNumber, everyDoor.
  now rewrite processDoor_type.
Qed.

Lemma sequential_tenantLabels : forall ds c,
  tenantLabels (snd (processDoors everyDoor c ds))
  = consecutiveLabels tenantFormat (tenantCounter c)
      (List.length (filter (takesTenantNumber everyDoor) ds)).
Proof.
  unfold tenantLabels.
  induction ds as [|d r IH]; intros c; [reflexivity|].
  cbn [processDoors everyDoor].
  pose proof (takesTenantNumber_processDoor c d) as T.
  assert (P : processDoor c d
              = if takesTenantNumber everyDoor d
                then (mkCounters (tenantCounter c + 1) (parcelCounter c),
                      with_label d (Some (tenantFormat (tenantCounter c))))
                else (mkCounters (tenantCounter c)
                        (tenantCounter (fst (processDoor c d))
                         - tenantCounter c + parcelCounter (fst (processDoor c d))),
                      snd (processDoor c d))).
  { unfold takesTenantNumber, everyDoor, processDoor.
    destruct (isSkippedDoor _); simpl; [destruct c; simpl; f_equal; f_equal; lia|].
    destruct (isParcelDoor _); simpl; [f_equal; f_equal; lia|reflexivity]. }
  destruct (processDoor c d) as [c1 d'] eqn:E. cbn [fst snd] in *.
  specialize (IH c1).
  destruct (processDoors everyDoor c1 r) as [c2 r']. cbn [snd filter] in *.
  rewrite T. destruct (takesTenantNumber everyDoor d).
  - injection P as -> ->. cbn [List.length map label with_label].
    rewrite consecutiveLabels_S. f_equal. exact IH.
  - apply (f_equal (fun x => tenantCounter (fst x))) in P.
    cbn [fst tenantCounter] in P. rewrite P in IH. exact IH.
Qed.

Lemma sequential_parcelLabels : forall ds c,
  parcelLabels (snd (processDoors everyDoor c ds))
  = consecutiveLabels parcelFormat (parcelCounter c)
      (List.length (filter (takesParcelNumber everyDoor) ds)).
Proof.
  unfold parcelLabels.
  induction ds as [|d r IH]; intros c; [reflexivity|].
  cbn [processDoors everyDoor].
  pose proof (takesParcelNumber_processDoor c d) as T.
  assert (P : processDoor c d
              = if takesParcelNumber everyDoor d
                then (mkCounters (tenantCounter c) (parcelCounter c + 1),
                      with_label d (Some (parcelFormat (parcelCounter c))))
                else (mkCounters
                        (parcelCounter (fst (processDoor c d))
                         - parcelCounter c + tenantCounter (fst (processDoor c d)))
                        (parcelCounter c),
                      snd (processDoor c d))).
  { unfold takesParcelNumber, everyDoor, processDoor.
    destruct (isSkippedDoor _); simpl; [destruct c; simpl; f_equal; f_equal; lia|].
    destruct (isParcelDoor _); simpl; [reflexivity|f_equal; f_equal; lia]. }
  destruct (processDoor c d) as [c1 d'] eqn:E. cbn [fst snd] in *.
  specialize (IH c1).
  destruct (processDoors everyDoor c1 r) as [c2 r']. cbn [snd filter] in *.
  rewrite T. destruct (takesParcelNumber everyDoor d).
  - injection P as -> ->. cbn [List.length map label with_label].
    rewrite consecutiveLabels_S. f_equal. exact IH.
  - apply (f_equal (fun x => parcelCounter (fst x))) in P.
    cbn [fst parcelCounter] in P. rewrite P in IH. exact IH.
Qed.

Lemma to_int_not_nil : forall z,
  Z.to_int z <> Decimal.Pos Decimal.Nil
  /\ Z.to_int z <> Decimal.Neg Decimal.Nil.
Proof.
  intros z. split; intros E;
    (assert (Hz : z = 0) by (now rewrite <- (DecimalZ.of_to z), E));
    subst z; vm_compute in E; discriminate.
Qed.

Lemma String_of_number_inj : forall a b,
  String_of_number a = String_of_number b -> a = b.
Proof.
  intros a b E. unfold String_of_number in E.
  apply (f_equal NilZero.int_of_string) in E.
  destruct (to_int_not_nil a), (to_int_not_nil b).
  rewrite !NilZero.isi in E by assumption.
  injection E as E. now apply DecimalZ.to_int_inj.
Qed.

Lemma append_inj_l : forall (s t u : string),
  (s ++ u = t ++ u)%string -> s = t.
Proof.
  assert (Hlen : forall a b : string,
            String.length (a ++ b)%string
            = (String.length a + String.length b)%nat).
  { induction a as [|x a IH]; intros b; simpl; [reflexivity|].
    now rewrite IH. }
  induction s as [|x s IH]; intros [|y t] u E; simpl in E.
  - reflexivity.
  - exfalso. apply (f_equal String.length) in E. simpl in E.
    rewrite Hlen in E. lia.
  - exfalso. apply (f_equal String.length) in E. simpl in E.
    rewrite Hlen in E. lia.
  - injection E as -> E. f_equal. now apply (IH t u).
Qed.

Lemma consecutiveLabels_NoDup : forall fmt start n,
  (forall a b, fmt a = fmt b -> a = b) ->
  NoDup (consecutiveLabels fmt start n).
Proof.
  intros fmt start n Hinj. unfold consecutiveLabels.
  generalize (seq_NoDup n 0). generalize (seq 0 n) as l.
  induction l as [|k l IH]; intros Hnd; simpl; [constructor|].
  inversion Hnd as [|x xs Hnotin Hnd']; subst. constructor; [|now apply IH].
  intros Hin. apply in_map_iff in Hin. destruct Hin as (j & E & Hj).
  injection E as E. apply Hinj in E.
  assert (j = k) by lia. subst j. contradiction.
Qed.

Lemma sameDoor_fields : forall d d',
  with_label d None = with_label d' None ->
  door_type d = door_type d' /\ column d = column d'.
Proof.
  intros d d' E. split.
  - now apply (f_equal door_type) in E.
  - now apply (f_equal column) in E.
Qed.

Lemma processDoor_relabel : forall c d d',
  with_label d None = with_label d' None ->
  processDoor c d = (fst (processDoor c d'),
                     with_label d' (label (snd (processDoor c d')))).
Proof.
  intros c d d' E. destruct (sameDoor_fields E) as [Et _].
  assert (W : forall l, with_label d l = with_label d' l).
  { intros l. destruct d, d'. unfold with_label in *. simpl in *.
    injection E as -> -> -> ->. reflexivity. }
  unfold processDoor. rewrite Et.
  destruct (isSkippedDoor _); [now rewrite W|].
  destruct (isParcelDoor _); now rewrite W.
Qed.

Lemma processDoor_snd : forall c d,
  snd (processDoor c d) = with_label d (label (snd (processDoor c d))).
Proof.
  intros c d. unfold processDoor.
  destruct (isSkippedDoor _); [reflexivity|].
  now destruct (isParcelDoor _).
Qed.

(** One pass over a column decides the labels of that column and depends
    on nothing but the labels decided before. *)
Lemma processDoors_relabel : forall sel decided,
  byColumn sel -> byColumn decided ->
  forall ds ds',
    Forall2 (sameDoorButLabel decided) ds ds' ->
    forall c,
      fst (processDoors sel c ds) = fst (processDoors sel c ds')
      /\ Forall2 (sameDoorButLabel (fun d => decided d || sel d))
           (snd (processDoors sel c ds)) (snd (processDoors sel c ds')).
Proof.
  intros sel decided Hsel Hdec ds ds' H.
  induction H as [|d d' r r' [E L] Hr IH]; intros c; simpl;
    [split; [reflexivity|constructor]|].
  destruct (sameDoor_fields E) as [Et Ec].
  rewrite <- (Hsel d d' Ec).
  destruct (sel d) eqn:Sd.
  - rewrite (processDoor_relabel c E).
    pose proof (processDoor_snd c d') as K.
    destruct (processDoor c d') as [c1 e]. cbn [fst snd] in *.
    rewrite <- K.
    destruct (IH c1) as [I1 I2].
    destruct (processDoors sel c1 r) as [c2 o].
    destruct (processDoors sel c1 r') as [c2' o']. cbn [fst snd] in *.
    split; [exact I1|]. constructor; [|exact I2].
    split; reflexivity.
  - destruct (IH c) as [I1 I2].
    destruct (processDoors sel c r) as [c2 o].
    destruct (processDoors sel c r') as [c2' o']. cbn [fst snd] in *.
    split; [exact I1|]. constructor; [|exact I2].
    split; [exact E|]. rewrite Sd, orb_false_r. exact L.
Qed.

Lemma sameDoor_all_eq : forall ds ds',
  Forall2 (sameDoorButLabel
             (fun d => ((fun _ => false) d || inLeftColumn d)
                       || inRightColumn d)) ds ds' ->
  ds = ds'.
Proof.
  intros ds ds' H. induction H as [|d d' r r' [E L] _ IH]; [reflexivity|].
  f_equal; [|exact IH].
  assert (Hl : label d = label d').
  { apply L. unfold inLeftColumn, inRightColumn.
    now destruct (column d) as [[|]|]. }
  destruct d, d'. unfold with_label in E. simpl in *.
  injection E as -> -> -> ->. now rewrite Hl.
Qed.

Lemma numberFrame_relabel : forall c f f',
  sameFrameButLabels f f' -> numberFrame c f = numberFrame c f'.
Proof.
  intros c f f' [Ef Hd]. unfold numberFrame.
  destruct (@processDoors_relabel inLeftColumn (fun _ => false)
              inLeftColumn_byColumn (fun _ _ _ => eq_refl) _ _ Hd c)
    as [L1 L2].
  destruct (processDoors inLeftColumn c (doors f)) as [c1 ds1].
  destruct (processDoors inLeftColumn c (doors f')) as [c1' ds1'].
  cbn [fst snd] in *. subst c1'.
  assert (D1 : byColumn (fun d => (fun _ : Door => false) d || inLeftColumn d)).
  { intros d d' E. simpl. now apply inLeftColumn_byColumn. }
  destruct (@processDoors_relabel inRightColumn _ inRightColumn_byColumn
              D1 _ _ L2 c1) as [R1 R2].
  destruct (processDoors inRightColumn c1 ds1) as [c2 ds2].
  destruct (processDoors inRightColumn c1 ds1') as [c2' ds2'].
  cbn [fst snd] in *. subst c2'.
  apply sameDoor_all_eq in R2. subst ds2'. f_equal.
  destruct f, f'. unfold with_doors in *. simpl in *.
  injection Ef as -> -> -> -> -> -> ->. reflexivity.
Qed.

Lemma numberFrames_relabel : forall fs fs',
  Forall2 sameFrameButLabels fs fs' ->
  forall c, numberFrames c fs = numberFrames c fs'.
Proof.
  intros fs fs' H. induction H as [|f f' r r' Hf _ IH]; intros c;
    [reflexivity|].
  cbn [numberFrames]. rewrite (numberFrame_relabel c Hf).
  destruct (numberFrame c f') as [c1 g]. now rewrite IH.
Qed.

(** Numbering changes labels only. *)
Lemma processDoors_sameButLabel : forall sel ds c,
  Forall2 (sameDoorButLabel (fun _ => false))
    (snd (processDoors sel c ds)) ds.
Proof.
  intros sel ds; induction ds as [|d r IH]; intros c; simpl; [constructor|].
  destruct (sel d).
  - pose proof (processDoor_snd c d) as K.
    destruct (processDoor c d) as [c1 e]. cbn [snd] in K.
    specialize (IH c1). destruct (processDoors sel c1 r) as [c2 o].
    cbn [snd] in *. constructor; [|exact IH].
    split; [|discriminate]. rewrite K. reflexivity.
  - specialize (IH c). destruct (processDoors sel c r) as [c2 o].
    cbn [snd] in *. constructor; [|exact IH]. split; [reflexivity|discriminate].
Qed.

Lemma sameDoorButLabel_trans : forall a b c,
  Forall2 (sameDoorButLabel (fun _ => false)) a b ->
  Forall2 (sameDoorButLabel (fun _ => false)) b c ->
  Forall2 (sameDoorButLabel (fun _ => false)) a c.
Proof.
  intros a b c H. revert c. induction H as [|x y r r' [E _] _ IH];
    intros c Hc; inversion Hc as [|y' z r'' t [E' _] Ht]; subst;
    constructor.
  - split; [congruence|discriminate].
  - now apply IH.
Qed.

Lemma numberFrames_sameButLabels : forall fs c,
  Forall2 sameFrameButLabels (snd (numberFrames c fs)) fs.
Proof.
  induction fs as [|f r IH]; intros c; [constructor|].
  cbn [numberFrames]. unfold numberFrame.
  pose proof (processDoors_sameButLabel inLeftColumn (doors f) c) as H1.
  destruct (processDoors inLeftColumn c (doors f)) as [c1 ds1].
  pose proof (processDoors_sameButLabel inRightColumn ds1 c1) as H2.
  destruct (processDoors inRightColumn c1 ds1) as [c2 ds2].
  specialize (IH c2). destruct (numberFrames c2 r) as [c3 r'].
  cbn [snd] in *. constructor; [|exact IH].
  split; [now destruct f|]. cbn [doors with_doors].
  destruct f; simpl in *. eapply sameDoorButLabel_trans; eauto.
Qed.

Lemma resetDoors_sameButLabels : forall fs,
  Forall2 sameFrameButLabels
    (map (fun f => with_doors f (map resetDoor (doors f))) fs) fs.
Proof.
  induction fs as [|f r IH]; simpl; constructor; [|exact IH].
  split; [now destruct f|].
  destruct f as [? ? ? ? ? ? ? ds]; simpl.
  induction ds as [|d ds IHd]; simpl; constructor; [|exact IHd].
  split; [|discriminate]. unfold resetDoor.
  destruct (negb _); reflexivity.
Qed.

(** The active wall after its frames were replaced. *)
Lemma getActiveWall_updateWallFrames : forall now s wall fs,
  getActiveWall s = Some wall ->
  getActiveWall (updateWallFrames now (wall_id wall) fs s)
  = Some (with_frames wall fs).
Proof.
  intros now s wall fs H. unfold getActiveWall, getActiveLevel, getLevel in *.
  unfold updateWallFrames.
  cbn [levels active_level_id active_wall_id setState with_levels
       with_updated_at].
  rewrite mapWalls_getLevel.
  destruct (find _ (levels s)) as [l|]; [|discriminate].
  cbn [option_map with_walls walls]. rewrite find_map.
  erewrite find_ext_in; [rewrite H|].
  - cbn [option_map]. now rewrite Z.eqb_refl.
  - intros w _. cbn beta. now destruct (wall_id w =? wall_id wall).
Qed.

Lemma updateWallFrames_twice : forall wallId fs0 fs ls,
  mapWalls (fun w => if wall_id w =? wallId then with_frames w fs else w)
    (mapWalls (fun w => if wall_id w =? wallId then with_frames w fs0 else w)
       ls)
  = mapWalls (fun w => if wall_id w =? wallId then with_frames w fs else w)
      ls.
Proof.
  intros. rewrite mapWalls_mapWalls. unfold mapWalls.
  apply map_ext. intros l. f_equal. apply map_ext. intros w.
  destruct (wall_id w =? wallId) eqn:E; cbn [wall_id with_frames];
    now rewrite E.
Qed.

(** Numbering a wall whose frames were replaced by frames that differ in
    labels only. *)
Lemma numbering_after_relabel : forall now now' t p s wall fs0,
  getActiveWall s = Some wall ->
  Forall2 sameFrameButLabels fs0 (frames wall) ->
  updateAutoNumbering now t p (updateWallFrames now' (wall_id wall) fs0 s)
  = updateAutoNumbering now t p s.
Proof.
  intros now now' t p s wall fs0 H Hsame. unfold updateAutoNumbering.
  rewrite (@getActiveWall_updateWallFrames now' s wall fs0 H), H.
  cbn [frames with_frames wall_id].
  rewrite (numberFrames_relabel Hsame).
  destruct (numberFrames _ (frames wall)) as [c fs]. f_equal.
  destruct s.
  unfold updateWallFrames, setParcelNumStart, setTenantNumStart, setState.
  cbn -[mapWalls Z.eqb]. now rewrite updateWallFrames_twice.
Qed.

(** The counters after a pass: each advanced by the number of doors that
    took a number of its kind. *)
Lemma sequential_counters : forall ds c,
  tenantCounter (fst (processDoors everyDoor c ds))
  = tenantCounter c
    + Z.of_nat (List.length (filter (takesTenantNumber everyDoor) ds))
  /\ parcelCounter (fst (processDoors everyDoor c ds))
     = parcelCounter c
       + Z.of_nat (List.length (filter (takesParcelNumber everyDoor) ds)).
Proof.
  induction ds as [|d r IH]; intros c; [cbn; lia|].
  cbn [processDoors everyDoor filter].
  assert (P : tenantCounter (fst (processDoor c d))
              = tenantCounter c
                + (if takesTenantNumber everyDoor d then 1 else 0)
              /\ parcelCounter (fst (processDoor c d))
                 = parcelCounter c
                   + (if takesParcelNumber everyDoor d then 1 else 0)).
  { unfold takesTenantNumber, takesParcelNumber, everyDoor, processDoor.
    destruct (isSkippedDoor _); cbn; [lia|].
    destruct (isParcelDoor _); cbn; lia. }
  destruct (processDoor c d) as [c1 d']. cbn [fst] in P.
  specialize (IH c1).
  destruct (processDoors everyDoor c1 r) as [c2 r']. cbn [fst] in *.
  destruct P as [P1 P2], IH as [I1 I2]. rewrite I1, I2, P1, P2.
  destruct (takesTenantNumber everyDoor d),
           (takesParcelNumber everyDoor d);
    cbn [List.length]; lia.
Qed.

(** X12.  [updateAutoNumbering] numbers the active wall without gaps or
    repeats, from the start values it is given.  As long as the counters
    stay whole numbers that doubles count exactly (between [-2^53] and
    [2^53]): the wall keeps its id and its frames differ from the old ones
    in labels only; read frame by frame, left column before right column,
    the doors that take a tenant number carry [tenantStart],
    [tenantStart + 1], ..., the doors that take a parcel number carry
    [parcelStart] followed by P, [parcelStart + 1] followed by P, ...; no
    two doors of either kind share a label; and the next number reported
    is [tenantStart] plus the number of tenant doors. *)
Theorem numbering_is_consecutive :
  forall now tenantStart parcelStart s wall,
    getActiveWall s = Some wall ->
    let tenants :=
      List.length (filter (takesTenantNumber everyDoor)
                     (processingOrder (frames wall))) in
    let parcels :=
      List.length (filter (takesParcelNumber everyDoor)
                     (processingOrder (frames wall))) in
    - MAX_SAFE_COUNTER <= tenantStart ->
    tenantStart + Z.of_nat tenants <= MAX_SAFE_COUNTER ->
    - MAX_SAFE_COUNTER <= parcelStart ->
    parcelStart + Z.of_nat parcels <= MAX_SAFE_COUNTER ->
    exists numbered,
      getActiveWall
        (fst (updateAutoNumbering now tenantStart parcelStart s))
      = Some numbered
      /\ wall_id numbered = wall_id wall
      /\ Forall2 sameFrameButLabels (frames numbered) (frames wall)
      /\ tenantLabels (processingOrder (frames numbered))
         = consecutiveLabels tenantFormat tenantStart tenants
      /\ parcelLabels (processingOrder (frames numbered))
         = consecutiveLabels parcelFormat parcelStart parcels
      /\ NoDup (tenantLabels (processingOrder (frames numbered)))
      /\ NoDup (parcelLabels (processingOrder (frames numbered)))
      /\ snd (updateAutoNumbering now tenantStart parcelStart s)
         = Some (tenantStart + Z.of_nat tenants).
Proof.
  intros now tenantStart parcelStart s wall H tenants parcels _ _ _ _.
  pose proof (numberFrames_sequential (frames wall)
                (mkCounters tenantStart parcelStart)) as [Ec Ed].
  pose proof (numberFrames_sameButLabels (frames wall)
                (mkCounters tenantStart parcelStart)) as Hsame.
  pose proof (sequential_counters (processingOrder (frames wall))
                (mkCounters tenantStart parcelStart)) as [Ht _].
  unfold updateAutoNumbering. rewrite H.
  destruct (numberFrames (mkCounters tenantStart parcelStart) (frames wall))
    as [c fs].
  cbn [fst snd tenantCounter] in *.
  exists (with_frames wall fs). split.
  { apply getActiveWall_updateWallFrames. exact H. }
  cbn [wall_id frames with_frames].
  split; [reflexivity|]. split; [exact Hsame|].
  rewrite Ed, sequential_tenantLabels, sequential_parcelLabels.
  cbn [tenantCounter parcelCounter]. fold tenants parcels.
  split; [reflexivity|]. split; [reflexivity|]. split.
  { apply consecutiveLabels_NoDup. exact String_of_number_inj. }
  split.
  { apply consecutiveLabels_NoDup. intros a b K. unfold parcelFormat in K.
    apply append_inj_l in K. now apply String_of_number_inj. }
  rewrite Ec, Ht. reflexivity.
Qed.

Lemma numbering_is_consecutive_witness :
  exists numbered,
    getActiveWall (fst (updateAutoNumbering "t" 101 7 numberingWallStore))
    = Some numbered
    /\ wall_id numbered = wall_id (mkWall 0 "Wall 1" numberingWallFrames)
    /\ Forall2 sameFrameButLabels (frames numbered)
         (frames (mkWall 0 "Wall 1" numberingWallFrames))
    /\ tenantLabels (processingOrder (frames numbered))
       = consecutiveLabels tenantFormat 101
           (List.length
              (filter (takesTenantNumber everyDoor)
                 (processingOrder
                    (frames (mkWall 0 "Wall 1" numberingWallFrames)))))
    /\ parcelLabels (processingOrder (frames numbered))
       = consecutiveLabels parcelFormat 7
           (List.length
              (filter (takesParcelNumber everyDoor)
                 (processingOrder
                    (frames (mkWall 0 "Wall 1" numberingWallFrames)))))
    /\ NoDup (tenantLabels (processingOrder (frames numbered)))
    /\ NoDup (parcelLabels (processingOrder (frames numbered)))
    /\ snd (updateAutoNumbering "t" 101 7 numberingWallStore)
       = Some
           (101
            + Z.of_nat
                (List.length
                   (filter (takesTenantNumber everyDoor)
                      (processingOrder
                         (frames (mkWall 0 "Wall 1" numberingWallFrames)))))).
Proof.
  apply (@numbering_is_consecutive "t" 101 7 numberingWallStore
           (mkWall 0 "Wall 1" numberingWallFrames)).
  - reflexivity.
  - vm_compute. discriminate.
  - vm_compute. discriminate.
  - vm_compute. discriminate.
  - vm_compute. discriminate.
Defined.

(** X13.  Numbering overwrites whatever labels were there: running
    [updateAutoNumbering] after [resetNumbering] gives the same store and
    the same next number as running it directly. *)
Theorem numbering_ignores_reset : forall now now' t p s,
  updateAutoNumbering now t p (resetNumbering now' s)
  = updateAutoNumbering now t p s.
Proof.
  intros now now' t p s. unfold resetNumbering.
  destruct (getActiveWall s) as [wall|] eqn:H; [|reflexivity].
  apply numbering_after_relabel; [exact H|].
  apply resetDoors_sameButLabels.
Qed.

(** X14.  [updateAutoNumbering] is idempotent: numbering a store that was
    just numbered with the same start values changes nothing and reports
    the same next number. *)
Theorem numbering_idempotent : forall now t p s,
  updateAutoNumbering now t p (fst (updateAutoNumbering now t p s))
  = updateAutoNumbering now t p s.
Proof.
  intros now t p s.
  destruct (getActiveWall s) as [wall|] eqn:H.
  - pose proof (numberFrames_sameButLabels (frames wall) (mkCounters t p))
      as Hsame.
    pose proof (@numbering_after_relabel now now t p
                  (setParcelNumStart now (Some p)
                     (setTenantNumStart now (Some t) s))
                  wall _ H Hsame) as K.
    unfold updateAutoNumbering at 2. rewrite H.
    unfold updateAutoNumbering at 2 in K.
    destruct (numberFrames (mkCounters t p) (frames wall)) as [c fs].
    cbn [fst snd] in *. rewrite K.
    unfold updateAutoNumbering.
    replace (getActiveWall
               (setParcelNumStart now (Some p)
                  (setTenantNumStart now (Some t) s)))
      with (Some wall) by (symmetry; exact H).
    rewrite H.
    destruct (numberFrames (mkCounters t p) (frames wall)) as [c' fs'].
    reflexivity.
  - unfold updateAutoNumbering. rewrite H. cbn [fst]. now rewrite H.
Qed.

(** ** Canvas statistics *)

Lemma frameFlags_fold : forall ds a b,
  fold_left doorFlags ds (a, b)
  = (a || existsb (fun d => countedDoor d
                            && negb (statsParcelDoor
                                       (toLowerCase (door_type d)))) ds,
     b || existsb (fun d => countedDoor d
                            && statsParcelDoor (toLowerCase (door_type d)))
            ds).
Proof.
  induction ds as [|d r IH]; intros a b; simpl.
  - now rewrite !orb_false_r.
  - unfold doorFlags at 2, countedDoor at 1 3. cbn [fst snd].
    destruct (includes _ _); cbn [negb andb orb].
    + apply IH.
    + destruct (statsParcelDoor _); cbn [negb]; rewrite IH;
        cbn [orb]; now rewrite ?orb_true_r, ?orb_false_r, ?orb_assoc.
Qed.

Lemma frameFlags_spec : forall f,
  frameFlags f = (hasTenantDoor f, hasParcelDoor f).
Proof. intros f. unfold frameFlags. now rewrite frameFlags_fold. Qed.

Lemma statsStep_fold : forall fs st,
  let st' := fold_left statsStep fs st in
  parcelCabinets st' = parcelCabinets st + countFrames hasParcelDoor fs
  /\ tenantCabinets st'
     = tenantCabinets st
       + countFrames (fun f => hasTenantDoor f || negb (hasParcelDoor f)) fs
  /\ (maxHeight st <= maxHeight st')%Q
  /\ (forall f, In f fs -> (height f <= maxHeight st')%Q).
Proof.
  unfold countFrames.
  induction fs as [|f r IH]; intros st; cbn [fold_left].
  - cbn. split; [lia|]. split; [lia|].
    split; [apply Qle_refl|intros f []].
  - destruct (IH (statsStep st f)) as (I1 & I2 & I3 & I4).
    cbv zeta. rewrite I1, I2. clear I1 I2.
    assert (Hh : (maxHeight st <= maxHeight (statsStep st f))%Q
                 /\ (height f <= maxHeight (statsStep st f))%Q).
    { assert (K : maxHeight (statsStep st f)
                  = if Qltb (maxHeight st) (height f)
                    then height f else maxHeight st).
      { unfold statsStep. destruct (frameFlags f) as [[|] [|]]; reflexivity. }
      rewrite K. destruct (Qltb (maxHeight st) (height f)) eqn:L.
      - apply Qltb_lt in L. split; [now apply Qlt_le_weak|apply Qle_refl].
      - apply Qltb_ge in L. split; [apply Qle_refl|exact L]. }
    destruct Hh as [H1 H2].
    assert (Kp : parcelCabinets (statsStep st f)
                 = parcelCabinets st + if hasParcelDoor f then 1 else 0).
    { unfold statsStep. rewrite frameFlags_spec.
      destruct (hasTenantDoor f), (hasParcelDoor f); simpl; lia. }
    assert (Kt : tenantCabinets (statsStep st f)
                 = tenantCabinets st
                   + if hasTenantDoor f || negb (hasParcelDoor f)
                     then 1 else 0).
    { unfold statsStep. rewrite frameFlags_spec.
      destruct (hasTenantDoor f), (hasParcelDoor f); simpl; lia. }
    rewrite Kp, Kt. cbn [filter].
    repeat split.
    + destruct (hasParcelDoor f); cbn [List.length]; lia.
    + destruct (hasTenantDoor f || negb (hasParcelDoor f));
        cbn [List.length]; lia.
    + eapply Qle_trans; eauto.
    + intros g [<-|Hg]; [eapply Qle_trans; eauto|now apply I4].
Qed.

Lemma countFrames_bounds : forall fs,
  Z.of_nat (List.length fs)
  <= countFrames (fun f => hasTenantDoor f || negb (hasParcelDoor f)) fs
     + countFrames hasParcelDoor fs
  <= 2 * Z.of_nat (List.length fs).
Proof.
  unfold countFrames. induction fs as [|f r IH]; [simpl; lia|].
  cbn [filter]. cbn beta.
  destruct (hasTenantDoor f), (hasParcelDoor f);
    cbn [negb orb List.length]; lia.
Qed.

(** X15.  The figures of the info panel: a frame counts as a parcel
    cabinet exactly when it holds a counted parcel door, and as a tenant
    cabinet when it holds a counted tenant door or no counted parcel door
    at all (so an empty frame is a tenant cabinet); every frame is counted
    once or twice, and [maxHeight] is at least the height of every frame. *)
Theorem canvasStats_counts : forall w st,
  updateCanvasStats (Some w) = Some st ->
  parcelCabinets st = countFrames hasParcelDoor (frames w)
  /\ tenantCabinets st
     = countFrames (fun f => hasTenantDoor f || negb (hasParcelDoor f))
         (frames w)
  /\ Z.of_nat (List.length (frames w))
     <= tenantCabinets st + parcelCabinets st
     <= 2 * Z.of_nat (List.length (frames w))
  /\ (forall f, In f (frames w) -> (height f <= maxHeight st)%Q).
Proof.
  intros w st H. unfold updateCanvasStats in H.
  assert (E : st = fold_left statsStep (frames w) (mkCanvasStats 0 0 0 0))
    by (destruct (frames w); [discriminate|now injection H]).
  clear H. subst st.
  destruct (statsStep_fold (frames w) (mkCanvasStats 0 0 0 0))
    as (I1 & I2 & _ & I4).
  cbv zeta in *. cbn [parcelCabinets tenantCabinets] in *.
  rewrite I1, I2. split; [reflexivity|]. split; [reflexivity|].
  split; [|exact I4].
  pose proof (countFrames_bounds (frames w)). lia.
Qed.

Lemma canvasStats_counts_witness :
  parcelCabinets (mkCanvasStats 1 0 17 21) = 0
  /\ tenantCabinets (mkCanvasStats 1 0 17 21) = 1.
Proof.
  destruct (@canvasStats_counts
              (mkWall 0 "" [mkFrame "" "empty" "sd" 17 21 0 15 []])
              (mkCanvasStats 1 0 17 21) eq_refl) as (H1 & H2 & _).
  split; [exact H1|exact H2].
Defined.

(** ** Counters of the store *)

Lemma countDoor_fold : forall ds a,
  let a' := fold_left countDoor ds a in
  sum_tenant a' + sum_parcel a'
  = sum_tenant a + sum_parcel a + Z.of_nat (List.length ds)
  /\ sum_parcel a'
     = sum_parcel a + Z.of_nat (List.length (filter countedAsParcel ds))
  /\ sum_max_height a' = sum_max_height a.
Proof.
  induction ds as [|d r IH]; intros a; cbn [fold_left].
  - cbn. repeat split; lia.
  - destruct (IH (countDoor a d)) as (I1 & I2 & I3). cbv zeta.
    rewrite I1, I2, I3. cbn [filter List.length].
    unfold countDoor, countedAsParcel.
    destruct (serviceIsParcelDoor (door_type d) || _);
      cbn [sum_tenant sum_parcel sum_max_height List.length];
      repeat split; lia.
Qed.

Lemma Math_max_ge_l : forall a b, (a <= Math_max a b)%Q.
Proof.
  intros a b. unfold Math_max. destruct (Qle_bool a b) eqn:E.
  - now apply Qle_bool_iff.
  - apply Qle_refl.
Qed.

Lemma countFrame_fold : forall fs a,
  let a' := fold_left countFrame fs a in
  sum_tenant a' + sum_parcel a'
  = sum_tenant a + sum_parcel a
    + Z.of_nat (List.length (flat_map doors fs))
  /\ sum_parcel a'
     = sum_parcel a
       + Z.of_nat (List.length (filter countedAsParcel (flat_map doors fs)))
  /\ (sum_max_height a <= sum_max_height a')%Q.
Proof.
  induction fs as [|f r IH]; intros a; cbn [fold_left flat_map].
  - cbn. split; [lia|]. split; [lia|]. apply Qle_refl.
  - destruct (IH (countFrame a f)) as (I1 & I2 & I3). cbv zeta.
    rewrite I1, I2. unfold countFrame in *.
    match goal with
    | |- context [fold_left countDoor (doors f) ?x] =>
        destruct (countDoor_fold (doors f) x) as (D1 & D2 & D3)
    end.
    cbv zeta in D1, D2, D3. rewrite D3 in I3. rewrite D1, D2.
    cbn [sum_tenant sum_parcel sum_max_height] in *.
    rewrite filter_app, !length_app, !Nat2Z.inj_add.
    repeat split; try lia.
    eapply Qle_trans; [apply Math_max_ge_l|exact I3].
Qed.

Lemma countWall_fold : forall ws a,
  let a' := fold_left countWall ws a in
  sum_tenant a' + sum_parcel a'
  = sum_tenant a + sum_parcel a
    + Z.of_nat (List.length
                  (flat_map (fun w => flat_map doors (frames w)) ws))
  /\ sum_parcel a'
     = sum_parcel a
       + Z.of_nat (List.length
                     (filter countedAsParcel
                        (flat_map (fun w => flat_map doors (frames w)) ws)))
  /\ (sum_max_height a <= sum_max_height a')%Q.
Proof.
  induction ws as [|w r IH]; intros a; cbn [fold_left flat_map].
  - cbn. split; [lia|]. split; [lia|]. apply Qle_refl.
  - destruct (IH (countWall a w)) as (I1 & I2 & I3). cbv zeta.
    rewrite I1, I2. unfold countWall in *.
    destruct (countFrame_fold (frames w) a) as (D1 & D2 & D3).
    cbv zeta in D1, D2, D3. rewrite D1, D2.
    rewrite filter_app, !length_app, !Nat2Z.inj_add.
    repeat split; try lia.
    eapply Qle_trans; [exact D3|exact I3].
Qed.

Lemma countLevel_fold : forall ls a,
  let a' := fold_left countLevel ls a in
  sum_tenant a' + sum_parcel a'
  = sum_tenant a + sum_parcel a
    + Z.of_nat
        (List.length
           (flat_map
              (fun l => flat_map (fun w => flat_map doors (frames w))
                          (walls l)) ls))
  /\ sum_parcel a'
     = sum_parcel a
       + Z.of_nat
           (List.length
              (filter countedAsParcel
                 (flat_map
                    (fun l => flat_map (fun w => flat_map doors (frames w))
                                (walls l)) ls)))
  /\ (sum_max_height a <= sum_max_height a')%Q.
Proof.
  induction ls as [|l r IH]; intros a; cbn [fold_left flat_map].
  - cbn. split; [lia|]. split; [lia|]. apply Qle_refl.
  - destruct (IH (countLevel a l)) as (I1 & I2 & I3). cbv zeta.
    rewrite I1, I2. unfold countLevel in *.
    destruct (countWall_fold (walls l) a) as (D1 & D2 & D3).
    cbv zeta in D1, D2, D3. rewrite D1, D2.
    rewrite filter_app, !length_app, !Nat2Z.inj_add.
    repeat split; try lia.
    eapply Qle_trans; [exact D3|exact I3].
Qed.

Lemma mod12_range : forall x, (0 <= mod12 x /\ mod12 x < 12)%Q.
Proof.
  intros x. unfold mod12.
  assert (E : (x == 12 * (x / 12))%Q) by (field).
  pose proof (Qfloor_le (x / 12)) as H1.
  pose proof (Qlt_floor (x / 12)) as H2.
  rewrite inject_Z_plus in H2.
  change (inject_Z 1) with 1%Q in H2.
  split; lra.
Qed.

Lemma Math_round_range : forall x n,
  (0 <= x)%Q -> (x < inject_Z n)%Q -> 0 <= Math_round x <= n.
Proof.
  intros x n H0 Hn. unfold Math_round. split.
  - assert (K : (inject_Z 0 <= x + (1 # 2))%Q)
      by (change (inject_Z 0) with 0%Q; lra).
    apply Qfloor_resp_le in K. now rewrite Qfloor_Z in K.
  - pose proof (Qfloor_le (x + (1 # 2))) as K.
    assert (L : (inject_Z (Qfloor (x + (1 # 2))) < inject_Z (n + 1))%Q).
    { rewrite inject_Z_plus. change (inject_Z 1) with 1%Q. lra. }
    rewrite <- Zlt_Qlt in L. lia.
Qed.

(** X16.  The counters of the store count every door exactly once, as a
    parcel door when its type or its substitute is one of p2..p6, sp, lp
    and as a tenant door otherwise; the inches of the total height lie
    between 0 and 12, and 12 does occur (a store whose tallest frame ends
    at 11.5 inches shows 0 feet 12 inches). *)
Theorem calculateCounters_totals : forall s,
  let c := calculateCounters s in
  tenant_doors c + parcel_doors c = Z.of_nat (List.length (allDoors s))
  /\ parcel_doors c
     = Z.of_nat (List.length (filter countedAsParcel (allDoors s)))
  /\ 0 <= total_height_ft c
  /\ 0 <= total_height_in c <= 12
  /\ (total_height_ft (calculateCounters lowFrameStore) = 0
      /\ total_height_in (calculateCounters lowFrameStore) = 12).
Proof.
  intros s c. unfold c, calculateCounters, allDoors.
  destruct (countLevel_fold (levels s) (mkCounterSums 0 0 0 0))
    as (I1 & I2 & I3).
  cbv zeta in *.
  cbn [tenant_doors parcel_doors total_height_ft total_height_in
       sum_tenant sum_parcel sum_max_height] in *.
  split; [lia|]. split; [lia|]. split; [|split].
  - set (m := sum_max_height _) in *.
    assert (K : (inject_Z 0 <= m / 12)%Q).
    { change (inject_Z 0) with 0%Q.
      assert (E : (m / 12 == m * (1 # 12))%Q) by field. rewrite E. lra. }
    apply Qfloor_resp_le in K. now rewrite Qfloor_Z in K.
  - apply Math_round_range; [apply mod12_range|].
    change (inject_Z 12) with 12%Q. apply mod12_range.
  - split; vm_compute; reflexivity.
Qed.

(** ** The measuring tool *)

(** No measurement is in progress: no point is set, or both are. *)
Lemma idle_click : forall Math_pow groups c first second done,
  (first = None /\ second = None) \/ (first <> None /\ second <> None) ->
  handleMeasureClick Math_pow groups c (mkMeasureTool first second done)
  = mkMeasureTool (Some (clickPos Math_pow groups c)) None done.
Proof.
  intros Math_pow groups c first second done H.
  unfold handleMeasureClick. cbn.
  destruct first as [f|]; destruct second as [x|]; try reflexivity;
    destruct H as [[H1 H2]|[H1 H2]]; congruence.
Qed.

Lemma measureClicks_pairs : forall Math_pow groups clicks,
  (forall first second done,
     (first = None /\ second = None) \/ (first <> None /\ second <> None) ->
     completedMeasurements
       (measureClicks Math_pow groups clicks
          (mkMeasureTool first second (Some done)))
     = Some (done ++ pairUp (map (clickPos Math_pow groups) clicks)))
  /\ (forall a done,
        completedMeasurements
          (measureClicks Math_pow groups clicks
             (mkMeasureTool (Some a) None (Some done)))
        = Some (done ++ pairUp (a :: map (clickPos Math_pow groups) clicks))).
Proof.
  intros Math_pow groups clicks. unfold measureClicks.
  induction clicks as [|c r [IHA IHB]].
  - split; intros; simpl; now rewrite app_nil_r.
  - split.
    + intros first second done H. cbn [fold_left map].
      rewrite (idle_click Math_pow groups c (Some done) H). apply IHB.
    + intros a done. cbn [fold_left map].
      assert (E : handleMeasureClick Math_pow groups c
                    (mkMeasureTool (Some a) None (Some done))
                  = mkMeasureTool (Some a) (Some (clickPos Math_pow groups c))
                      (Some (done ++ [(a, clickPos Math_pow groups c)])))
        by reflexivity.
      rewrite E, IHA by (right; split; discriminate).
      cbn [pairUp]. now rewrite <- app_assoc.
Qed.

(** X17.  In measuring mode the clicks are paired up in order: after any
    number of clicks the completed measurements are the lines from the
    first to the second, from the third to the fourth click position and so
    on (each position snapped when a snap point is near), and a click
    without partner is pending as the first point. *)
Theorem measure_clicks_pair_up : forall Math_pow groups clicks,
  let m := measureClicks Math_pow groups clicks measureModeEntered in
  completedMeasurements m
  = Some (pairUp (map (clickPos Math_pow groups) clicks))
  /\ (Nat.odd (List.length clicks) = true ->
      measureFirstPoint m
      = option_map (clickPos Math_pow groups)
          (nth_error clicks (List.length clicks - 1))
      /\ measureSecondPoint m = None).
Proof.
  intros Math_pow groups clicks m. split.
  - destruct (measureClicks_pairs Math_pow groups clicks) as [A _].
    apply (A None None []). left. now split.
  - unfold m, measureModeEntered. clear m.
    assert (G : forall n clicks first second done,
              (List.length clicks <= n)%nat ->
              (first = None /\ second = None)
              \/ (first <> None /\ second <> None) ->
              Nat.odd (List.length clicks) = true ->
              let m := measureClicks Math_pow groups clicks
                         (mkMeasureTool first second done) in
              measureFirstPoint m
              = option_map (clickPos Math_pow groups)
                  (nth_error clicks (List.length clicks - 1))
              /\ measureSecondPoint m = None).
    { induction n as [|n IH]; intros cl first second done Hlen Hidle Hodd.
      - destruct cl; [discriminate|simpl in Hlen; lia].
      - destruct cl as [|c [|c2 r]]; [discriminate| |].
        + unfold measureClicks. cbn [fold_left].
          rewrite (idle_click Math_pow groups c done Hidle). now split.
        + unfold measureClicks. cbn [fold_left].
          rewrite (idle_click Math_pow groups c done Hidle).
          assert (E2 : exists done',
                     handleMeasureClick Math_pow groups c2
                       (mkMeasureTool (Some (clickPos Math_pow groups c))
                          None done)
                     = mkMeasureTool (Some (clickPos Math_pow groups c))
                         (Some (clickPos Math_pow groups c2)) done').
          { unfold handleMeasureClick, completeMeasurement. cbn.
            destruct done; eexists; reflexivity. }
          destruct E2 as [done' E2]. rewrite E2.
          destruct (IH r (Some (clickPos Math_pow groups c))
                      (Some (clickPos Math_pow groups c2)) done') as [I1 I2].
          * simpl in Hlen. lia.
          * right. split; discriminate.
          * cbn [List.length] in Hodd. now rewrite Nat.odd_succ_succ in Hodd.
          * unfold measureClicks in I1, I2. cbv zeta in I1, I2.
            rewrite I1, I2. split; [|reflexivity].
            destruct r as [|c3 r']; [discriminate|].
            cbn [List.length]. f_equal.
            replace (S (S (S (List.length r'))) - 1)%nat
              with (S (S (List.length r'))) by lia.
            replace (S (List.length r') - 1)%nat
              with (List.length r') by lia.
            reflexivity. }
    intros Hodd.
    apply (G (List.length clicks) clicks None None (Some []));
      [lia|left; now split|exact Hodd].
Qed.

(** ** Reordering frames *)

Lemma spliceOut_spec : forall (A : Type) (l : list A) start moved rest' tl,
  spliceOut l start = (moved :: tl, rest') ->
  tl = []
  /\ exists k, (k < List.length l)%nat
       /\ k = spliceStart (Z.of_nat (List.length l)) start
       /\ rest' = firstn k l ++ skipn (S k) l
       /\ l = firstn k l ++ moved :: skipn (S k) l.
Proof.
  intros A l start moved rest' tl H. unfold spliceOut in H.
  set (k := spliceStart (Z.of_nat (List.length l)) start) in *.
  injection H as H1 H2.
  assert (Hsk : skipn k l = moved :: skipn (S k) l).
  { destruct (skipn k l) as [|x xs] eqn:E; [discriminate|].
    simpl in H1. injection H1 as -> _.
    f_equal. change (S k) with (1 + k)%nat.
    rewrite <- skipn_skipn, E. reflexivity. }
  split.
  - destruct (skipn k l) as [|x [|y xs]]; simpl in H1; try discriminate;
      now injection H1.
  - exists k. repeat split; [| now symmetry |].
    + destruct (Nat.lt_ge_cases k (List.length l)) as [Hlt|Hge]; [exact Hlt|].
      rewrite skipn_all2 in Hsk by exact Hge. discriminate.
    + rewrite <- Hsk. symmetry. apply firstn_skipn.
Qed.

Lemma spliceIn_perm : forall (A : Type) (l : list A) start item,
  Permutation (spliceIn l start item) (item :: l).
Proof.
  intros A l start item. unfold spliceIn.
  set (k := spliceStart _ _).
  rewrite <- (firstn_skipn k l) at 3.
  apply Permutation_sym, Permutation_middle.
Qed.

(** X18.  Reordering never loses or duplicates a frame: for any pair of
    indices, in range or not, the active wall after [reorderFrames] keeps
    its id and holds a permutation of the frames it held before. *)
Theorem reorderFrames_permutes : forall now oldIndex newIndex s w,
  getActiveWall s = Some w ->
  exists w',
    getActiveWall (reorderFrames now oldIndex newIndex s) = Some w'
    /\ wall_id w' = wall_id w
    /\ Permutation (frames w') (frames w).
Proof.
  intros now oldIndex newIndex s w H. unfold reorderFrames. rewrite H.
  destruct (spliceOut (frames w) oldIndex) as [[|moved tl] rest'] eqn:E.
  - exists w. now repeat split.
  - exists (with_frames w (spliceIn rest' newIndex moved)).
    split; [now apply getActiveWall_updateWallFrames|].
    split; [reflexivity|]. cbn [frames with_frames].
    apply spliceOut_spec in E. destruct E as (_ & k & _ & _ & -> & El).
    eapply Permutation_trans; [apply spliceIn_perm|].
    rewrite El at 3. apply Permutation_middle.
Qed.

Lemma reorderFrames_permutes_witness :
  exists w',
    getActiveWall (reorderFrames "t" 0 (-7) reorderScenarioStore) = Some w'
    /\ wall_id w' = 0
    /\ Permutation (frames w')
         [reorderFrame "A"; reorderFrame "B"; reorderFrame "C"].
Proof.
  exact (@reorderFrames_permutes "t" 0 (-7) reorderScenarioStore
           (mkWall 0 "Wall 1"
              [reorderFrame "A"; reorderFrame "B"; reorderFrame "C"])
           eq_refl).
Defined.

(** Taking the element at an index out and putting it back at the same
    index restores the array. *)
Lemma splice_same_index : forall (A : Type) (l : list A) (i : nat),
  (i < List.length l)%nat ->
  exists moved,
    spliceOut l (Z.of_nat i) = ([moved], firstn i l ++ skipn (S i) l)
    /\ spliceIn (firstn i l ++ skipn (S i) l) (Z.of_nat i) moved = l.
Proof.
  intros A l i Hi.
  assert (Hk : spliceStart (Z.of_nat (List.length l)) (Z.of_nat i) = i).
  { unfold spliceStart.
    destruct (Z.ltb_spec (Z.of_nat i) 0); [lia|].
    rewrite Z.min_l by lia. apply Nat2Z.id. }
  destruct (skipn i l) as [|moved tl] eqn:E.
  - exfalso. apply (f_equal (@List.length A)) in E.
    rewrite length_skipn in E. simpl in E. lia.
  - assert (Etl : tl = skipn (S i) l).
    { change (S i) with (1 + i)%nat. now rewrite <- skipn_skipn, E. }
    exists moved. split.
    + unfold spliceOut. rewrite Hk, E. reflexivity.
    + unfold spliceIn.
      assert (Hlen : List.length (firstn i l ++ skipn (S i) l)
                     = (List.length l - 1)%nat).
      { rewrite length_app, length_firstn, length_skipn. lia. }
      assert (Hk' : spliceStart
                      (Z.of_nat (List.length (firstn i l ++ skipn (S i) l)))
                      (Z.of_nat i) = i).
      { unfold spliceStart. rewrite Hlen.
        destruct (Z.ltb_spec (Z.of_nat i) 0); [lia|].
        rewrite Z.min_l by lia. apply Nat2Z.id. }
      rewrite Hk'.
      assert (Hfl : List.length (firstn i l) = i)
        by (rewrite length_firstn; lia).
      rewrite firstn_app, skipn_app, Hfl, Nat.sub_diag.
      rewrite firstn_O, skipn_O, app_nil_r.
      rewrite firstn_all2 by lia.
      rewrite skipn_all2 by lia. cbn [app].
      rewrite <- Etl, <- E. apply firstn_skipn.
Qed.

(** Taking out at the index where an element was just put in gives the
    element and the array as it was. *)
Lemma spliceOut_spliceIn : forall (A : Type) (r : list A) (j : nat) (m : A),
  (j <= List.length r)%nat ->
  spliceOut (spliceIn r (Z.of_nat j) m) (Z.of_nat j) = ([m], r).
Proof.
  intros A r j m Hj.
  assert (Hk : forall n : nat, (j <= n)%nat ->
            spliceStart (Z.of_nat n) (Z.of_nat j) = j).
  { intros n Hn. unfold spliceStart.
    destruct (Z.ltb_spec (Z.of_nat j) 0); [lia|].
    rewrite Z.min_l by lia. apply Nat2Z.id. }
  unfold spliceIn. rewrite (Hk _ Hj). unfold spliceOut.
  assert (Hfl : List.length (firstn j r) = j)
    by (rewrite length_firstn; lia).
  assert (Hlen : List.length (firstn j r ++ m :: skipn j r)
                 = S (List.length r)).
  { rewrite length_app, Hfl. cbn [List.length]. rewrite length_skipn. lia. }
  rewrite Hlen, (Hk (S (List.length r))) by lia.
  assert (S1 : skipn j (firstn j r ++ m :: skipn j r) = m :: skipn j r).
  { rewrite skipn_app, Hfl, Nat.sub_diag, skipn_O.
    now rewrite skipn_all2 by lia. }
  assert (S2 : skipn (S j) (firstn j r ++ m :: skipn j r) = skipn j r).
  { change (S j) with (1 + j)%nat. now rewrite <- skipn_skipn, S1. }
  assert (F1 : firstn j (firstn j r ++ m :: skipn j r) = firstn j r).
  { rewrite firstn_app, Hfl, Nat.sub_diag, firstn_O, app_nil_r.
    now rewrite firstn_all2 by lia. }
  rewrite S1, S2, F1. cbn [firstn]. now rewrite firstn_skipn.
Qed.

(** X31.  A move by [reorderFrames] is undone by the move back: for
    indices [i] and [j] of the active wall's frames, moving the frame at
    [i] to [j] and then the frame at [j] to [i] leaves the active wall as
    it was; and moving a frame to the index it is at changes nothing. *)
Theorem reorderFrames_move_back : forall now now' i j s w,
  getActiveWall s = Some w ->
  0 <= i < Z.of_nat (List.length (frames w)) ->
  0 <= j < Z.of_nat (List.length (frames w)) ->
  getActiveWall (reorderFrames now' j i (reorderFrames now i j s)) = Some w
  /\ getActiveWall (reorderFrames now i i s) = Some w.
Proof.
  intros now now' i j s w H Hi Hj.
  assert (Hi' : (Z.to_nat i < List.length (frames w))%nat) by lia.
  destruct (splice_same_index (frames w) Hi') as (moved & E1 & E2).
  rewrite Z2Nat.id in E1, E2 by lia.
  set (rest := firstn (Z.to_nat i) (frames w)
               ++ skipn (S (Z.to_nat i)) (frames w)) in *.
  assert (Hrest : List.length rest = (List.length (frames w) - 1)%nat).
  { unfold rest. rewrite length_app, length_firstn, length_skipn. lia. }
  split.
  - unfold reorderFrames at 2. rewrite H, E1.
    pose proof (@getActiveWall_updateWallFrames now s w
                  (spliceIn rest j moved) H) as H1.
    unfold reorderFrames. rewrite H1. cbn [frames with_frames wall_id].
    assert (Eo : spliceOut (spliceIn rest j moved) j = ([moved], rest)).
    { rewrite <- (Z2Nat.id j) by lia. apply spliceOut_spliceIn. lia. }
    rewrite Eo, E2.
    pose proof (@getActiveWall_updateWallFrames now' _ _ (frames w) H1)
      as H2.
    cbn [wall_id with_frames] in H2. rewrite H2. now destruct w.
  - unfold reorderFrames. rewrite H, E1, E2.
    rewrite (@getActiveWall_updateWallFrames now s w (frames w) H).
    now destruct w.
Qed.

Lemma reorderFrames_move_back_witness :
  getActiveWall
    (reorderFrames "t2" 2 0 (reorderFrames "t1" 0 2 reorderScenarioStore))
  = Some (mkWall 0 "Wall 1"
            [reorderFrame "A"; reorderFrame "B"; reorderFrame "C"])
  /\ getActiveWall (reorderFrames "t1" 0 0 reorderScenarioStore)
     = Some (mkWall 0 "Wall 1"
               [reorderFrame "A"; reorderFrame "B"; reorderFrame "C"]).
Proof.
  apply (@reorderFrames_move_back "t1" "t2" 0 2 reorderScenarioStore
           (mkWall 0 "Wall 1"
              [reorderFrame "A"; reorderFrame "B"; reorderFrame "C"])).
  - reflexivity.
  - cbn. lia.
  - cbn. lia.
Defined.

(** ** The cabinet editor: slots *)

Lemma arrayIndex_compat : forall q q', (q == q')%Q ->
  arrayIndex q = arrayIndex q'.
Proof.
  intros q q' E. unfold arrayIndex.
  assert (F : Qfloor q = Qfloor q') by (now rewrite E).
  rewrite F.
  assert (B : Qeq_bool (inject_Z (Qfloor q')) q
              = Qeq_bool (inject_Z (Qfloor q')) q').
  { destruct (Qeq_bool (inject_Z (Qfloor q')) q') eqn:K.
    - apply Qeq_bool_iff. apply Qeq_bool_iff in K. now rewrite E.
    - destruct (Qeq_bool (inject_Z (Qfloor q')) q) eqn:K'; [|reflexivity].
      apply Qeq_bool_iff in K'. rewrite E in K'.
      apply Qeq_bool_iff in K'. congruence. }
  now rewrite B.
Qed.

Lemma countUpTo_head : forall u, (0 < u)%Q ->
  exists r, countUpTo u = 0 :: r.
Proof.
  intros u Hu. unfold countUpTo.
  assert (H : 0 < Qceiling u).
  { assert (K : (inject_Z 0 < inject_Z (Qceiling u))%Q).
    { eapply Qlt_le_trans; [exact Hu|apply Qle_ceiling]. }
    now rewrite <- Zlt_Qlt in K. }
  destruct (Z.to_nat (Qceiling u)) as [|n] eqn:E; [lia|].
  cbn [seq map]. now eexists.
Qed.

(** A door whose position names no slot although it lies below the number
    of slots makes [placeDoorInSlots] die on its first write. *)
Lemma placeDoorInSlots_off_grid : forall door c e,
  arrayIndex (position door) = None ->
  (position door < inject_Z (Z.of_nat (List.length (slotsOf e c))))%Q ->
  exists e', placeDoorInSlots door c e = Crashed e'.
Proof.
  intros door c e Hidx Hlt. unfold placeDoorInSlots.
  destruct (countUpTo_head (getDoorUnits_pos (toLowerCase (door_type door))))
    as [r Hr].
  unfold doorUnits. rewrite Hr. cbn [forEachO].
  assert (E : placeUnit door (slotsOf e c) 0 = Crashed (slotsOf e c)).
  { unfold placeUnit.
    assert (Q0 : (position door + inject_Z 0 == position door)%Q)
      by (change (inject_Z 0) with 0%Q; ring).
    rewrite (arrayIndex_compat Q0), Hidx.
    assert (L : Qltb (position door + inject_Z 0)
                  (inject_Z (Z.of_nat (List.length (slotsOf e c)))) = true).
    { apply Qltb_lt. rewrite Q0. exact Hlt. }
    now rewrite L. }
  rewrite E. now eexists.
Qed.

Lemma forEachO_crashes :
  forall (A S : Type) (P : S -> Prop) (body : S -> A -> outcome S) (a : A),
    (forall s x, P s -> P (stateOf (body s x))) ->
    (forall s, P s -> exists s', body s a = Crashed s') ->
    forall l s, In a l -> P s -> exists s', forEachO body l s = Crashed s'.
Proof.
  intros A S P body a Hpres Hcrash l.
  induction l as [|x r IH]; intros s Hin Hs; [destruct Hin|].
  cbn [forEachO]. destruct (body s x) as [s1|s1] eqn:E.
  - destruct Hin as [->|Hin].
    + destruct (Hcrash s Hs) as [s' K]. congruence.
    + apply IH; [exact Hin|].
      specialize (Hpres s x Hs). now rewrite E in Hpres.
  - now eexists.
Qed.

Lemma column_crashes : forall n total c door l e,
  slotsReady n total e ->
  arrayIndex (position door) = None ->
  (position door < inject_Z (Z.of_nat n))%Q ->
  In door l ->
  exists e', forEachO (fun st d => placeDoorInSlots d c st) l e = Crashed e'.
Proof.
  intros n total c door l e Hready Hidx Hlt Hin.
  apply (forEachO_crashes (slotsReady n total)
           (fun st d => placeDoorInSlots d c st) door); auto.
  - intros s x Hs. now apply placeDoorInSlots_ready.
  - intros s (Hl & Hr & _). apply placeDoorInSlots_off_grid; [exact Hidx|].
    destruct c; cbn [slotsOf]; now rewrite ?Hl, ?Hr.
Qed.

(** X20.  The editor cannot build its slots for a door whose position is
    not a slot index although it lies below the number of units of the
    frame (a fraction such as 4.5, or a negative number): [initializeSlots]
    dies with a [TypeError] on the write to [slots[position]].  Positions
    become fractions when a column is normalized with a door of 2.5, 4.5,
    5.5 or 7.5 units below another door. *)
Theorem initializeSlots_off_grid_crashes : forall e door,
  In door (doors (frame e)) ->
  arrayIndex (position door) = None ->
  (position door < inject_Z (Math_round (height (frame e) / DOOR_UNIT)))%Q ->
  exists e', initializeSlots e = Crashed e'.
Proof.
  intros e door Hin Hidx Hlt. unfold initializeSlots.
  set (total := Math_round (height (frame e) / DOOR_UNIT)) in *.
  set (e0 := mkEditor (frame e) _ _ _ _ _).
  assert (Hlt' : (position door < inject_Z (Z.of_nat (Z.to_nat total)))%Q).
  { destruct (Z.le_gt_cases 0 total) as [Hp|Hn].
    - now rewrite Z2Nat.id.
    - eapply Qlt_trans; [exact Hlt|].
      rewrite <- Zlt_Qlt. lia. }
  assert (R0 : slotsReady (Z.to_nat total) total e0).
  { unfold slotsReady, e0, emptySlots. cbn.
    now rewrite !length_map, !length_seq. }
  destruct (inLeftColumn door) eqn:Hcol.
  - destruct (@column_crashes (Z.to_nat total) total Left door
                (getLeftDoors e0) e0 R0 Hidx Hlt') as [e1 H1].
    { unfold getLeftDoors. apply filter_In. now split. }
    rewrite H1. cbn [andThen]. now eexists.
  - pose proof (forEachO_preserves (slotsReady (Z.to_nat total) total)
                  (fun st d => placeDoorInSlots d Left st)
                  (fun s x Hs => placeDoorInSlots_ready x Left Hs)
                  (getLeftDoors e0) e0 R0) as R1.
    pose proof (forEachO_preserves (fun st => frame st = frame e)
                  (fun st d => placeDoorInSlots d Left st)
                  (fun s x (Hs : frame s = frame e) =>
                     eq_trans (placeDoorInSlots_frame x Left s) Hs)
                  (getLeftDoors e0) e0 eq_refl) as F1.
    destruct (forEachO (fun st d => placeDoorInSlots d Left st)
                (getLeftDoors e0) e0) as [e1|e1]; cbn [andThen stateOf] in *.
    + apply (@column_crashes (Z.to_nat total) total Right door); auto.
      unfold getRightDoors. rewrite F1. apply filter_In. split; [exact Hin|].
      now rewrite inRightColumn_not_left, Hcol.
    + now eexists.
Qed.

Lemma initializeSlots_off_grid_crashes_witness :
  exists e', openEditor spareParcelFrame = Crashed e'.
Proof.
  unfold openEditor.
  apply (@initializeSlots_off_grid_crashes _
           (mkDoor (9 # 2) "SD" None None (Some Left))).
  - vm_compute. right. left. reflexivity.
  - vm_compute. reflexivity.
  - vm_compute. reflexivity.
Defined.

(** X21.  A door dropped on an empty slot of the left column is created
    without a column, and [trySwapDoors] reads a missing column of its
    second door as the right one: so a swap of any left-column door onto
    the new door is refused and changes nothing. *)
Theorem created_left_door_refuses_swap :
  forall slotIndex doorType e i1 d1,
    let e' := stateOf (createDoorAtSlot slotIndex Left doorType e) in
    nth_error (doors (frame e')) i1 = Some d1 ->
    inLeftColumn d1 = true ->
    trySwapDoors i1 (List.length (doors (frame e))) e' = Done (false, e').
Proof.
  intros slotIndex doorType e i1 d1 e' H1 Hcol.
  assert (Hd : doors (frame e')
               = doors (frame e)
                 ++ [mkDoor (inject_Z slotIndex) (toUpperCase doorType)
                       None None None]).
  { unfold e', createDoorAtSlot. now rewrite initializeSlots_frame. }
  unfold trySwapDoors. rewrite H1.
  assert (H2 : nth_error (doors (frame e')) (List.length (doors (frame e)))
               = Some (mkDoor (inject_Z slotIndex) (toUpperCase doorType)
                         None None None)).
  { rewrite Hd, nth_error_app2 by lia. now rewrite Nat.sub_diag. }
  rewrite H2. cbn [column].
  unfold inLeftColumn in Hcol.
  destruct (column d1) as [[|]|]; try discriminate; reflexivity.
Qed.

Lemma created_left_door_refuses_swap_witness :
  trySwapDoors 0 2
    (stateOf (createDoorAtSlot 3 Left "sd" packingScenarioEditor))
  = Done (false,
          stateOf (createDoorAtSlot 3 Left "sd" packingScenarioEditor)).
Proof.
  apply (@created_left_door_refuses_swap 3 "sd" packingScenarioEditor 0%nat
           (mkDoor 0 "dd" None None (Some Left))).
  - vm_compute. reflexivity.
  - reflexivity.
Defined.

(** ** The cabinet editor: saving *)

Lemma insertCmp_perm : forall (A : Type) (le : A -> A -> bool) a l,
  Permutation (insertCmp le a l) (a :: l).
Proof.
  intros A le a l; induction l as [|b r IH]; simpl; [reflexivity|].
  destruct (le a b); [reflexivity|].
  eapply Permutation_trans; [apply perm_skip, IH|apply perm_swap].
Qed.

Lemma sortCmp_perm : forall (A : Type) (le : A -> A -> bool) l,
  Permutation (sortCmp le l) l.
Proof.
  intros A le l; induction l as [|a r IH]; simpl; [reflexivity|].
  eapply Permutation_trans; [apply insertCmp_perm|now apply perm_skip].
Qed.

Lemma insertCmp_sorted : forall (A : Type) (le : A -> A -> bool),
  (forall a b, le a b = false -> le b a = true) ->
  (forall a b c, le a b = true -> le b c = true -> le a c = true) ->
  forall a l,
    StronglySorted (fun x y => le x y = true) l ->
    StronglySorted (fun x y => le x y = true) (insertCmp le a l).
Proof.
  intros A le Htot Htrans a l H.
  induction H as [|b r Hr IH Hb]; simpl.
  - constructor; constructor.
  - destruct (le a b) eqn:E.
    + constructor; [now constructor|].
      constructor; [exact E|].
      eapply Forall_impl; [|exact Hb]. intros c Hc. now apply (Htrans a b c).
    + constructor; [exact IH|].
      apply (Permutation_Forall (Permutation_sym (insertCmp_perm le a r))).
      constructor; [now apply Htot|exact Hb].
Qed.

Lemma sortCmp_sorted : forall (A : Type) (le : A -> A -> bool),
  (forall a b, le a b = false -> le b a = true) ->
  (forall a b c, le a b = true -> le b c = true -> le a c = true) ->
  forall l, StronglySorted (fun x y => le x y = true) (sortCmp le l).
Proof.
  intros A le Htot Htrans l; induction l as [|a r IH]; simpl.
  - constructor.
  - now apply insertCmp_sorted.
Qed.

Lemma saveOrder_total : forall a b,
  saveOrder a b = false -> saveOrder b a = true.
Proof.
  intros a b. unfold saveOrder.
  destruct (doorColumn a), (doorColumn b); cbn; try discriminate;
    try reflexivity; intros H.
  - apply Qle_bool_iff. apply Qlt_le_weak.
    apply Qnot_le_lt. intros K. apply Qle_bool_iff in K. congruence.
  - apply Qle_bool_iff. apply Qlt_le_weak.
    apply Qnot_le_lt. intros K. apply Qle_bool_iff in K. congruence.
Qed.

Lemma saveOrder_trans : forall a b c,
  saveOrder a b = true -> saveOrder b c = true -> saveOrder a c = true.
Proof.
  intros a b c. unfold saveOrder.
  destruct (doorColumn a), (doorColumn b), (doorColumn c); cbn;
    try discriminate; try reflexivity; intros H1 H2;
    apply Qle_bool_iff; apply Qle_bool_iff in H1; apply Qle_bool_iff in H2;
    eapply Qle_trans; eauto.
Qed.

Lemma denormalize_positions : forall ds d,
  In d (denormalizeDoorPositions ds) ->
  exists k, position d = inject_Z k /\ 0 <= k < Z.of_nat (List.length ds).
Proof.
  intros ds d Hin. apply In_nth_error in Hin. destruct Hin as [i Hi].
  assert (Hlen : (i < List.length ds)%nat).
  { assert (K : nth_error (denormalizeDoorPositions ds) i <> None)
      by congruence.
    apply nth_error_Some in K. unfold denormalizeDoorPositions in K.
    now rewrite length_map in K. }
  destruct (nth_error ds i) as [d0|] eqn:E0;
    [|apply nth_error_None in E0; lia].
  destruct (denormalize_nth ds i E0) as (k & Hk & Hr).
  rewrite Hk in Hi. injection Hi as <-. exists k. split; [reflexivity|].
  split; [lia|]. eapply Z.lt_le_trans; [apply Hr|].
  apply Nat2Z.inj_le. apply filter_length_le.
Qed.

(** X22.  [onSave] refuses to save while a slot is empty and then leaves
    the editor alone.  Otherwise the frame it emits is the edited frame
    with its doors denormalized and rearranged, none lost or added: every
    left-column door comes before every right-column door, within a column
    the positions ascend, and every position is a whole number from 0 up
    to the number of doors. *)
Theorem onSave_emits_sorted_doors : forall e,
  match snd (onSave e) with
  | None => canSave e = false /\ fst (onSave e) = e
  | Some f =>
      canSave e = true
      /\ with_doors f [] = with_doors (frame e) []
      /\ Permutation (doors f) (denormalizeDoorPositions (doors (frame e)))
      /\ StronglySorted (fun a b => saveOrder a b = true) (doors f)
      /\ (forall d, In d (doors f) ->
            exists k, position d = inject_Z k
                      /\ 0 <= k < Z.of_nat (List.length (doors f)))
  end.
Proof.
  intros e. unfold onSave. destruct (canSave e); cbn [negb snd fst].
  - split; [reflexivity|]. cbn [frame with_frame_doors doors with_doors].
    split; [now destruct (frame e)|].
    split; [apply sortCmp_perm|].
    split; [apply sortCmp_sorted;
            [exact saveOrder_total|exact saveOrder_trans]|].
    intros d Hd.
    pose proof (sortCmp_perm saveOrder
                  (denormalizeDoorPositions (doors (frame e)))) as P.
    apply (Permutation_in _ P) in Hd.
    destruct (denormalize_positions _ _ Hd) as (k & Hk & Hr).
    exists k. split; [exact Hk|].
    rewrite (Permutation_length P).
    unfold denormalizeDoorPositions. now rewrite length_map.
  - now split.
Qed.

(** ** Saving an edited cabinet *)

Lemma findIndex_unique : forall (l : list Frame) k f,
  NoDup (map id l) -> nth_error l k = Some f ->
  findIndex (fun g => String.eqb (id g) (id f)) l = Some k.
Proof.
  induction l as [|a r IH]; intros k f Hnd Hk; [destruct k; discriminate|].
  simpl in Hnd. inversion Hnd as [|x xs Hnotin Hnd']; subst.
  destruct k as [|k]; cbn [nth_error findIndex] in *.
  - injection Hk as ->. now rewrite String.eqb_refl.
  - destruct (String.eqb_spec (id a) (id f)) as [E|E].
    + exfalso. apply Hnotin. rewrite E. apply in_map.
      now apply nth_error_In in Hk.
    + now rewrite (IH k f Hnd' Hk).
Qed.

Lemma updateAt_at : forall (A : Type) (F G : A -> A) l k a,
  nth_error l k = Some a -> F a = G a -> updateAt k F l = updateAt k G l.
Proof.
  intros A F G l; induction l as [|x r IH]; intros k a Hk E;
    [destruct k; discriminate|].
  destruct k as [|k]; cbn [nth_error updateAt] in *.
  - injection Hk as ->. now rewrite E.
  - f_equal. now apply (IH k a).
Qed.

(** X23.  Saving the editor rewrites the doors of the edited frame and
    nothing else: when the frame ids of the active wall are distinct and
    the editor works on the frame at index [k], the frame that [onSave]
    emits, handed to [saveEditedCabinet], leaves every other frame of the
    wall and all other fields of the edited frame as they were. *)
Theorem save_edited_cabinet_replaces_doors :
  forall now s w k f e f',
    getActiveWall s = Some w ->
    NoDup (map id (frames w)) ->
    nth_error (frames w) k = Some f ->
    with_doors (frame e) [] = with_doors f [] ->
    snd (onSave e) = Some f' ->
    getActiveWall (saveEditedCabinet now f' s)
    = Some (with_frames w
              (updateAt k (fun g => with_doors g (doors f')) (frames w))).
Proof.
  intros now s w k f e f' Hw Hnd Hk He Hs.
  assert (Hf' : f' = with_doors f (doors f')).
  { unfold onSave in Hs. destruct (canSave e); [|discriminate].
    cbn [negb snd] in Hs. injection Hs as <-.
    cbn [frame with_frame_doors].
    destruct (frame e), f. unfold with_doors in *. cbn in *.
    injection He as -> -> -> -> -> -> ->. reflexivity. }
  assert (Hid : id f' = id f) by (rewrite Hf'; now destruct f).
  unfold saveEditedCabinet. rewrite Hw, Hid.
  rewrite (findIndex_unique (frames w) k Hnd Hk).
  rewrite (@getActiveWall_updateWallFrames now s w _ Hw). do 2 f_equal.
  apply (@updateAt_at _ _ _ (frames w) k f Hk). exact Hf'.
Qed.

Lemma save_edited_cabinet_replaces_doors_witness :
  getActiveWall
    (saveEditedCabinet "t"
       (with_doors saveScenarioFrame
          [ mkDoor 0 "sd" None (Some "2") (Some Left);
            mkDoor 1 "sd" None (Some "1") (Some Left);
            mkDoor 2 "sd" None (Some "3") (Some Left);
            mkDoor 0 "td" None (Some "4") (Some Right) ])
       saveScenarioStore)
  = Some (with_frames
            (mkWall 0 "Wall 1"
               [reorderFrame "A"; saveScenarioFrame; reorderFrame "C"])
            (updateAt 1
               (fun g =>
                  with_doors g
                    (doors
                       (with_doors saveScenarioFrame
                          [ mkDoor 0 "sd" None (Some "2") (Some Left);
                            mkDoor 1 "sd" None (Some "1") (Some Left);
                            mkDoor 2 "sd" None (Some "3") (Some Left);
                            mkDoor 0 "td" None (Some "4") (Some Right) ])))
               [reorderFrame "A"; saveScenarioFrame; reorderFrame "C"])).
Proof.
  apply (@save_edited_cabinet_replaces_doors "t" saveScenarioStore
           (mkWall 0 "Wall 1"
              [reorderFrame "A"; saveScenarioFrame; reorderFrame "C"])
           1%nat saveScenarioFrame saveScenarioEditor
           (with_doors saveScenarioFrame
              [ mkDoor 0 "sd" None (Some "2") (Some Left);
                mkDoor 1 "sd" None (Some "1") (Some Left);
                mkDoor 2 "sd" None (Some "3") (Some Left);
                mkDoor 0 "td" None (Some "4") (Some Right) ])).
  - reflexivity.
  - vm_compute. repeat constructor; simpl; intuition discriminate.
  - reflexivity.
  - reflexivity.
  - vm_compute. reflexivity.
Defined.

(** ** Duplicating a cabinet *)

Lemma find_findIndex : forall (A : Type) (p : A -> bool) l k,
  findIndex p l = Some k ->
  exists a, find p l = Some a /\ nth_error l k = Some a
            /\ (k < List.length l)%nat.
Proof.
  intros A p l; induction l as [|x r IH]; intros k H; [discriminate|].
  cbn [findIndex find] in *. destruct (p x).
  - injection H as <-. exists x. cbn. repeat split. lia.
  - destruct (findIndex p r) as [j|]; [|discriminate].
    injection H as <-. destruct (IH j eq_refl) as (a & F & N & L).
    exists a. cbn. repeat split; auto. lia.
Qed.

(** X24.  [duplicateCabinet] puts a copy of the frame, equal to it but
    for the new id, right after the original and keeps every other frame
    in place; when the new id is not in use on the wall, removing the copy
    again with [removeFrame] gives the active wall back. *)
Theorem duplicateCabinet_inserts_copy :
  forall now now' newId frameId s w k,
    getActiveWall s = Some w ->
    findIndex (fun f => String.eqb (id f) frameId) (frames w) = Some k ->
    ~ In newId (map id (frames w)) ->
    exists f,
      nth_error (frames w) k = Some f
      /\ getActiveWall (duplicateCabinet now newId frameId s)
         = Some (with_frames w
                   (firstn (S k) (frames w)
                    ++ with_id f newId :: skipn (S k) (frames w)))
      /\ getActiveWall
           (removeFrame now' (wall_id w) newId
              (duplicateCabinet now newId frameId s))
         = Some w.
Proof.
  intros now now' newId frameId s w k Hw Hk Hfresh.
  destruct (find_findIndex _ _ Hk) as (f & Hfind & Hnth & Hlt).
  exists f. split; [exact Hnth|].
  unfold duplicateCabinet. rewrite Hw, Hfind, Hk.
  assert (Hs : spliceIn (frames w) (Z.of_nat k + 1) (with_id f newId)
               = firstn (S k) (frames w)
                 ++ with_id f newId :: skipn (S k) (frames w)).
  { unfold spliceIn, spliceStart.
    destruct (Z.ltb_spec (Z.of_nat k + 1) 0); [lia|].
    rewrite Z.min_l by lia.
    replace (Z.to_nat (Z.of_nat k + 1)) with (S k) by lia. reflexivity. }
  rewrite Hs.
  rewrite (@getActiveWall_updateWallFrames now s w _ Hw).
  split; [reflexivity|].
  unfold removeFrame, updateWallFrames.
  unfold getActiveWall, getActiveLevel, getLevel in *.
  cbn [levels active_level_id active_wall_id setState with_levels
       with_updated_at].
  rewrite mapWalls_mapWalls, mapWalls_getLevel.
  destruct (find _ (levels s)) as [l|]; [|discriminate].
  cbn [option_map with_walls walls]. rewrite find_map.
  erewrite find_ext_in; [rewrite Hw|].
  - cbn [option_map]. rewrite Z.eqb_refl. cbn [wall_id with_frames].
    rewrite Z.eqb_refl. cbn [frames with_frames].
    rewrite filter_app. cbn [filter id with_id].
    rewrite String.eqb_refl. cbn [negb].
    rewrite <- filter_app, firstn_skipn.
    rewrite filter_id; [now destruct w|].
    intros g Hg. apply negb_true_iff, String.eqb_neq. intros E.
    apply Hfresh. rewrite <- E. now apply in_map.
  - intros x _. cbn beta.
    destruct (wall_id x =? wall_id w) eqn:E; cbn [wall_id with_frames];
      now rewrite ?E.
Qed.

Lemma duplicateCabinet_inserts_copy_witness :
  exists f,
    nth_error [reorderFrame "A"; reorderFrame "B"; reorderFrame "C"] 1
    = Some f
    /\ getActiveWall (duplicateCabinet "t" "B2" "B" reorderScenarioStore)
       = Some (with_frames
                 (mkWall 0 "Wall 1"
                    [reorderFrame "A"; reorderFrame "B"; reorderFrame "C"])
                 (firstn 2
                    [reorderFrame "A"; reorderFrame "B"; reorderFrame "C"]
                  ++ with_id f "B2"
                     :: skipn 2
                          [reorderFrame "A"; reorderFrame "B";
                           reorderFrame "C"]))
    /\ getActiveWall
         (removeFrame "t2" 0 "B2"
            (duplicateCabinet "t" "B2" "B" reorderScenarioStore))
       = Some (mkWall 0 "Wall 1"
                 [reorderFrame "A"; reorderFrame "B"; reorderFrame "C"]).
Proof.
  apply (@duplicateCabinet_inserts_copy "t" "t2" "B2" "B"
           reorderScenarioStore
           (mkWall 0 "Wall 1"
              [reorderFrame "A"; reorderFrame "B"; reorderFrame "C"])
           1%nat).
  - reflexivity.
  - vm_compute. reflexivity.
  - vm_compute. intuition discriminate.
Defined.

(** ** The cabinet editor: the door under a slot, deleting a door *)

(** X25.  For a slot index of the column, [findDoorOccupyingSlot] returns
    the door of the nearest slot at or below the index that holds a door,
    and [null] exactly when no slot from 0 to the index holds one. *)
Theorem findDoorOccupyingSlot_spec : forall slots k,
  (k < List.length slots)%nat ->
  match findDoorOccupyingSlot slots k with
  | Some d =>
      exists j sl,
        (j <= k)%nat /\ nth_error slots j = Some sl /\ slot_door sl = Some d
        /\ forall i sl', (j < i <= k)%nat -> nth_error slots i = Some sl' ->
                         slot_door sl' = None
  | None =>
      forall i sl', (i <= k)%nat -> nth_error slots i = Some sl' ->
                    slot_door sl' = None
  end.
Proof.
  intros slots k Hk. induction k as [|k IH].
  - cbn [findDoorOccupyingSlot].
    destruct (nth_error slots 0) as [[u c [d|] o]|] eqn:E.
    + exists 0%nat, (mkSlot u c (Some d) o). repeat split; auto. intros; lia.
    + intros i sl' Hi Hs. assert (i = 0)%nat by lia. subst i.
      rewrite E in Hs. now injection Hs as <-.
    + apply nth_error_None in E. lia.
  - cbn [findDoorOccupyingSlot].
    destruct (nth_error slots (S k)) as [[u c [d|] o]|] eqn:E.
    + exists (S k), (mkSlot u c (Some d) o). repeat split; auto. intros; lia.
    + specialize (IH ltac:(lia)).
      destruct (findDoorOccupyingSlot slots k) as [d|].
      * destruct IH as (j & sl & Hj & Hn & Hd & Hgap).
        exists j, sl. repeat split; auto.
        intros i sl' Hi Hs.
        destruct (Nat.eq_dec i (S k)) as [->|Hne].
        -- rewrite E in Hs. now injection Hs as <-.
        -- apply (Hgap i); [lia|exact Hs].
      * intros i sl' Hi Hs.
        destruct (Nat.eq_dec i (S k)) as [->|Hne].
        -- rewrite E in Hs. now injection Hs as <-.
        -- apply (IH i); [lia|exact Hs].
    + apply nth_error_None in E. lia.
Qed.

Lemma findDoorOccupyingSlot_spec_witness :
  match findDoorOccupyingSlot (leftSlots packingScenarioEditor) 1 with
  | Some d =>
      exists j sl,
        (j <= 1)%nat
        /\ nth_error (leftSlots packingScenarioEditor) j = Some sl
        /\ slot_door sl = Some d
        /\ forall i sl', (j < i <= 1)%nat ->
             nth_error (leftSlots packingScenarioEditor) i = Some sl' ->
             slot_door sl' = None
  | None =>
      forall i sl', (i <= 1)%nat ->
        nth_error (leftSlots packingScenarioEditor) i = Some sl' ->
        slot_door sl' = None
  end.
Proof.
  apply findDoorOccupyingSlot_spec. vm_compute. lia.
Defined.

Lemma remove_indexed_from : forall (A : Type) (l : list A) (s i : nat),
  map snd (filter (fun r => negb (Nat.eqb (fst r) (s + i)))
             (combine (seq s (List.length l)) l))
  = firstn i l ++ skipn (S i) l.
Proof.
  intros A l; induction l as [|a r IH]; intros s i.
  - now destruct i.
  - cbn [List.length seq combine filter fst].
    destruct i as [|i].
    + rewrite Nat.add_0_r, Nat.eqb_refl. cbn [negb firstn skipn app].
      rewrite filter_id.
      * clear. generalize (S s). induction r as [|b r IH]; intros n;
          cbn [List.length seq combine map snd]; [reflexivity|].
        now rewrite IH.
      * intros [j x] Hx. cbn [fst]. apply negb_true_iff, Nat.eqb_neq.
        apply in_combine_l in Hx. apply in_seq in Hx. lia.
    + destruct (Nat.eqb_spec s (s + S i)) as [E|E]; [lia|].
      cbn [negb map snd firstn skipn app]. f_equal.
      replace (s + S i)%nat with (S s + i)%nat by lia. apply IH.
Qed.

Lemma nth_error_removed : forall (A : Type) (l : list A) (i j : nat),
  nth_error (firstn i l ++ skipn (S i) l) j
  = nth_error l (if (j <? i)%nat then j else S j).
Proof.
  intros A l; induction l as [|a r IH]; intros i j.
  - rewrite firstn_nil, skipn_nil. cbn [app]. now rewrite !nth_error_nil.
  - destruct i as [|i]; [reflexivity|].
    destruct j as [|j]; [reflexivity|].
    cbn [firstn skipn app nth_error]. rewrite IH.
    change (S j <? S i)%nat with (j <? i)%nat.
    now destruct (j <? i)%nat.
Qed.

(** X26.  [deleteSelectedDoor] takes the selected door out of the array
    and keeps the other doors as they are, in their order; doors that did
    not overlap before do not overlap afterwards. *)
Theorem deleteSelectedDoor_keeps_others : forall i e,
  let ds := doors (frame e) in
  let e' := stateOf (deleteSelectedDoor i e) in
  doors (frame e') = firstn i ds ++ skipn (S i) ds
  /\ with_doors (frame e') [] = with_doors (frame e) []
  /\ (noOverlap ds -> noOverlap (doors (frame e'))).
Proof.
  intros i e ds e'.
  assert (Hf : frame e'
               = with_doors (frame e) (firstn i ds ++ skipn (S i) ds)).
  { unfold e', deleteSelectedDoor. rewrite initializeSlots_frame.
    cbn [frame with_frame_doors]. f_equal. unfold indexed.
    apply (remove_indexed_from (doors (frame e)) 0 i). }
  rewrite Hf. cbn [doors with_doors].
  split; [now destruct (frame e)|]. split; [now destruct (frame e)|].
  intros Hno j1 j2 a b Hne H1 H2 Hcol.
  rewrite nth_error_removed in H1, H2.
  assert (Hidx : (if (j1 <? i)%nat then j1 else S j1)
                 <> (if (j2 <? i)%nat then j2 else S j2)).
  { destruct (Nat.ltb_spec j1 i), (Nat.ltb_spec j2 i); lia. }
  exact (Hno _ _ a b Hidx H1 H2 Hcol).
Qed.

(** ** Which operations keep the active pointers valid *)

Lemma find_app_found : forall (A : Type) (p : A -> bool) l l' x,
  find p l = Some x -> find p (l ++ l') = Some x.
Proof.
  intros A p l l' x; induction l as [|a r IH]; intros H; [discriminate|].
  simpl in *. destruct (p a); [exact H|now apply IH].
Qed.

Lemma find_existsb : forall (A : Type) (p : A -> bool) l x,
  find p l = Some x -> existsb p l = true.
Proof.
  intros A p l x H. apply find_some in H. apply existsb_exists.
  now exists x.
Qed.

Lemma valid_active_level : forall s,
  activePointersValid s = true ->
  exists l, getActiveLevel s = Some l
            /\ existsb (fun w => wall_id w =? active_wall_id s) (walls l)
               = true.
Proof.
  intros s H. unfold activePointersValid in H.
  destruct (getActiveLevel s) as [l|]; [|discriminate]. now exists l.
Qed.

Lemma addLevel_valid : forall now s,
  activePointersValid s = true ->
  activePointersValid (snd (addLevel now s)) = true.
Proof.
  intros now s H. destruct (valid_active_level s H) as (l & Hl & Hw).
  unfold activePointersValid, getActiveLevel, getLevel, addLevel in *.
  cbn [snd levels active_level_id active_wall_id setState with_levels
       with_updated_at].
  now rewrite (find_app_found _ _ _ Hl).
Qed.

Lemma removeLevel_refused : forall now L s s',
  removeLevel now L s = Ok (false, s') -> s' = s.
Proof.
  intros now L s s' H. unfold removeLevel in H.
  destruct (L =? 0); [now injection H|].
  destruct (Z.of_nat (List.length (levels s)) <=? 1); [now injection H|].
  destruct (active_level_id s =? L).
  - destruct (filter _ (levels s)); cbn [bind] in H; discriminate.
  - cbn [bind] in H. discriminate.
Qed.

Lemma addWall_valid : forall now L s w s',
  addWall now L s = Ok (w, s') ->
  activePointersValid s = true -> activePointersValid s' = true.
Proof.
  intros now L s w s' H Hv. destruct (valid_active_level s Hv) as (l & Hl & Hw).
  unfold addWall in H.
  destruct (find (fun l0 => level_id l0 =? L) (levels s)); [|discriminate].
  injection H as _ <-.
  unfold activePointersValid, getActiveLevel, getLevel in *.
  cbn [levels active_level_id active_wall_id setState with_levels
       with_updated_at].
  rewrite find_map.
  erewrite find_ext_in; [rewrite Hl|].
  - cbn [option_map]. destruct (level_id l =? L); [|exact Hw].
    cbn [walls with_walls]. now rewrite existsb_app, Hw.
  - intros x _. cbn beta. now destruct (level_id x =? L).
Qed.

Lemma setActiveLevel_valid : forall now L s s',
  (forall l, In l (levels s) -> walls l <> []) ->
  setActiveLevel now L s = Ok s' -> activePointersValid s' = true.
Proof.
  intros now L s s' Hw H. unfold setActiveLevel in H.
  destruct (getLevel s L) as [l|] eqn:E; [|discriminate].
  injection H as <-.
  unfold activePointersValid, getActiveLevel, getLevel in *.
  cbn [levels active_level_id active_wall_id setState with_levels
       with_updated_at with_active_wall_id with_active_level_id].
  rewrite E. assert (Hl : In l (levels s)) by now apply find_some in E.
  specialize (Hw l Hl). unfold firstWallId.
  destruct (walls l) as [|w0 ws]; [congruence|].
  rewrite orZero_Some. simpl. now rewrite Z.eqb_refl.
Qed.

Lemma setActiveWall_valid : forall now w s s',
  NoDup (map level_id (levels s)) ->
  setActiveWall now w s = Ok s' -> activePointersValid s' = true.
Proof.
  intros now w s s' Hnd H. unfold setActiveWall, findLevelOfWall in H.
  destruct (find _ (levels s)) as [fl|] eqn:F; [|discriminate].
  injection H as <-. apply find_some in F. destruct F as [Hfl Hown].
  apply ownsWall_In in Hown.
  unfold activePointersValid, getActiveLevel. simpl.
  match goal with
  | |- context [getLevel ?st (level_id fl)] =>
      rewrite (@getLevel_of_member st fl Hnd Hfl)
  end.
  now apply ownsWall_existsb.
Qed.

(** The state after a [removeWall] that went through. *)
Lemma removeWall_result : forall now L w s b s',
  removeWall now L w s = Ok (b, s') ->
  s' = s
  \/ exists lv,
       find (fun l => level_id l =? L) (levels s) = Some lv
       /\ (2 <= List.length (walls lv))%nat
       /\ let updatedLevels :=
            map (fun l => if level_id l =? L
                          then with_walls l
                                 (filter (fun x => negb (wall_id x =? w))
                                    (walls l))
                          else l) (levels s) in
          let updatedLevel :=
            find (fun l => level_id l =? L) updatedLevels in
          levels s' = updatedLevels
          /\ active_level_id s' = active_level_id s
          /\ active_wall_id s'
             = if match updatedLevel with
                  | Some ul =>
                      match find (fun x => wall_id x =? active_wall_id s)
                              (walls ul) with
                      | Some _ => true
                      | None => false
                      end
                  | None => false
                  end
               then active_wall_id s
               else orZero (firstWallId updatedLevel).
Proof.
  intros now L w s b s' H. unfold removeWall in H.
  destruct (find (fun l => level_id l =? L) (levels s)) as [lv|] eqn:F;
    [|injection H as _ <-; now left].
  destruct (Z.leb_spec (Z.of_nat (List.length (walls lv))) 1) as [Hle|Hgt];
    [injection H as _ <-; now left|].
  match type of H with
  | (bind (mapR ?f _) _ = _) =>
      destruct (mapR f (levels s)) as [ls'|] eqn:Em; simpl in H;
        [|discriminate];
      apply (mapR_pure f
               (fun l => if level_id l =? L
                         then with_walls l
                                (filter (fun x => negb (wall_id x =? w))
                                   (walls l))
                         else l)) in Em
  end.
  - injection H as _ <-. right. exists lv.
    split; [reflexivity|]. split; [lia|]. cbv zeta. subst ls'.
    cbn [levels active_level_id active_wall_id setState with_levels
         with_updated_at with_active_wall_id].
    repeat split.
  - intros a c Hac. destruct (level_id a =? L); [|congruence].
    destruct (active_wall_id s =? w);
      [destruct (filter _ (walls a)); simpl in Hac; [discriminate|]|];
      simpl in Hac; injection Hac as <-; reflexivity.
Qed.

Lemma removeWall_active_level_valid : forall now w s b s',
  treeWellFormed (levels s) ->
  removeWall now (active_level_id s) w s = Ok (b, s') ->
  activePointersValid s = true -> activePointersValid s' = true.
Proof.
  intros now w s b s' (H1 & H2 & H3) H Hv.
  apply removeWall_result in H.
  destruct H as [->|(lv & F & Hlen & El & Eal & Eaw)]; [exact Hv|].
  cbv zeta in El, Eaw.
  set (g := fun l => if level_id l =? active_level_id s
                     then with_walls l
                            (filter (fun x => negb (wall_id x =? w))
                               (walls l))
                     else l) in *.
  assert (Hfind : find (fun l => level_id l =? active_level_id s)
                    (map g (levels s))
                  = Some (with_walls lv
                            (filter (fun x => negb (wall_id x =? w))
                               (walls lv)))).
  { rewrite find_map. erewrite find_ext_in; [rewrite F|].
    - cbn [option_map]. unfold g.
      apply find_some in F. destruct F as [_ E]. now rewrite E.
    - intros x _. cbn beta. unfold g.
      destruct (level_id x =? active_level_id s) eqn:Ex;
        cbn [level_id with_walls]; now rewrite ?Ex. }
  rewrite Hfind in Eaw. cbn [walls with_walls] in Eaw.
  assert (Hne : filter (fun x => negb (wall_id x =? w)) (walls lv) <> []).
  { apply (filter_neq_nonempty wall_id); [|exact Hlen].
    apply (allWallIds_level lv (levels s)); [|exact H2].
    now apply find_some in F. }
  unfold activePointersValid, getActiveLevel, getLevel.
  rewrite El, Eal, Hfind. cbn [walls with_walls]. rewrite Eaw.
  destruct (find (fun x => wall_id x =? active_wall_id s)
              (filter (fun x => negb (wall_id x =? w)) (walls lv)))
    as [x|] eqn:K.
  - now apply find_existsb in K.
  - unfold firstWallId. cbn [walls with_walls].
    destruct (filter (fun x => negb (wall_id x =? w)) (walls lv))
      as [|w0 ws]; [congruence|].
    rewrite orZero_Some. simpl. now rewrite Z.eqb_refl.
Qed.

(** X27.  On a reachable store whose active pointers are valid, every
    mutation keeps them valid, with one exception: [removeWall] on a level
    other than the active one. *)
Theorem operations_keep_pointers_valid : forall now op s,
  reachable s ->
  activePointersValid s = true ->
  keepsPointers s op = true ->
  activePointersValid (applyOp now op s) = true.
Proof.
  intros now op s Hr.
  assert (WF : treeWellFormed (levels s)).
  { clear op. induction Hr; [exact INITIAL_STATE_wellFormed
                            |now apply applyOp_wellFormed]. }
  intros Hv Hop.
  destruct WF as (H1 & H2 & H3).
  destruct op as [|L|L|L w|L|w|i w f|w f]; cbn [applyOp].
  - now apply addLevel_valid.
  - destruct (removeLevel now L s) as [[[|] s']|] eqn:E; [| |exact Hv].
    + destruct (valid_active_level s Hv) as (l & Hl & _).
      apply (@removeLevel_success_valid now L s s' H3); [|exact E].
      apply getLevel_In_ids. now exists l.
    + apply removeLevel_refused in E. now subst s'.
  - destruct (addWall now L s) as [[nw s']|] eqn:E; [|exact Hv].
    eapply addWall_valid; eauto.
  - destruct (removeWall now L w s) as [[b s']|] eqn:E; [|exact Hv].
    cbn [keepsPointers] in Hop. apply Z.eqb_eq in Hop. subst L.
    eapply removeWall_active_level_valid; eauto. now repeat split.
  - destruct (setActiveLevel now L s) as [s'|] eqn:E; [|exact Hv].
    eapply setActiveLevel_valid; eauto.
  - destruct (setActiveWall now w s) as [s'|] eqn:E; [|exact Hv].
    eapply setActiveWall_valid; eauto.
  - unfold addFrame. cbn [snd]. rewrite mapWalls_pointers; [exact Hv|].
    intros x. now destruct (wall_id x =? w).
  - unfold removeFrame. rewrite mapWalls_pointers; [exact Hv|].
    intros x. now destruct (wall_id x =? w).
Qed.

Lemma operations_keep_pointers_valid_witness :
  activePointersValid
    (applyOp "t" (OpRemoveWall 1 2)
       (runOps "t" [OpAddLevel; OpAddWall 1; OpSetActiveWall 2]
          INITIAL_STATE))
  = true.
Proof.
  apply operations_keep_pointers_valid.
  - apply reachable_runOps. constructor.
  - vm_compute. reflexivity.
  - vm_compute. reflexivity.
Defined.

(** ** The cabinet editor: the door a drop creates *)

Lemma lowerChar_upperChar : forall c, lowerChar (upperChar c) = lowerChar c.
Proof.
  intros [[|] [|] [|] [|] [|] [|] [|] [|]]; vm_compute; reflexivity.
Qed.

Lemma toLowerCase_toUpperCase : forall s,
  toLowerCase (toUpperCase s) = toLowerCase s.
Proof.
  unfold toLowerCase, toUpperCase.
  induction s as [|c r IH]; cbn [mapString]; [reflexivity|].
  now rewrite lowerChar_upperChar, IH.
Qed.

(** X28.  The door [createDoorAtSlot] adds is the last door of the frame,
    sits at the slot and in the column it was dropped on, and occupies the
    units of the lower-cased palette name: exactly the units the hover
    check validated when the palette name is written in lower case. *)
Theorem createDoorAtSlot_door : forall slotIndex c doorType e,
  let e' := stateOf (createDoorAtSlot slotIndex c doorType e) in
  exists d,
    doors (frame e') = doors (frame e) ++ [d]
    /\ position d = inject_Z slotIndex
    /\ doorColumn d = c
    /\ doorUnits d = getDoorUnits (toLowerCase doorType)
    /\ (toLowerCase doorType = doorType ->
        doorUnits d = getDoorUnits doorType).
Proof.
  intros slotIndex c doorType e e'.
  exists (mkDoor (inject_Z slotIndex) (toUpperCase doorType) None None
            (match c with Right => Some Right | Left => None end)).
  split.
  - unfold e', createDoorAtSlot. rewrite initializeSlots_frame.
    cbn [frame with_frame_doors]. now destruct (frame e).
  - split; [reflexivity|]. split; [now destruct c|].
    unfold doorUnits. cbn [door_type]. rewrite toLowerCase_toUpperCase.
    split; [reflexivity|]. now intros ->.
Qed.

(** ** The cabinet editor: when saving is possible *)

Lemma filter_nil_iff : forall (A : Type) (p : A -> bool) l,
  filter p l = [] <-> forall x, In x l -> p x = false.
Proof.
  intros A p l; induction l as [|a r IH]; simpl.
  - split; [intros _ x []|reflexivity].
  - destruct (p a) eqn:E.
    + split; [discriminate|]. intros H. specialize (H a (or_introl eq_refl)).
      congruence.
    + rewrite IH. split.
      * intros H x [<-|Hx]; [exact E|now apply H].
      * intros H x Hx. apply H. now right.
Qed.

Lemma getEmptySlots_nil : forall e c,
  List.length (getEmptySlots e c) = 0%nat
  <-> forall j sl, nth_error (slotsOf e c) j = Some sl -> occupied sl = true.
Proof.
  intros e c. unfold getEmptySlots. rewrite length_map, length_zero_iff_nil.
  rewrite filter_nil_iff. split.
  - intros H j sl Hj. specialize (H (j, sl)). cbn [snd] in H.
    rewrite indexed_In in H. specialize (H Hj). unfold occupied.
    destruct (isSome (slot_door sl)), (isOccupiedByAbove sl);
      try reflexivity; discriminate.
  - intros H [j sl] Hin. cbn [snd]. apply indexed_In in Hin.
    specialize (H j sl Hin). unfold occupied in H.
    destruct (isSome (slot_door sl)), (isOccupiedByAbove sl);
      try reflexivity; discriminate.
Qed.

Lemma canSave_iff_occupied : forall e,
  canSave e = true
  <-> forall c j sl, nth_error (slotsOf e c) j = Some sl ->
                     occupied sl = true.
Proof.
  intros e. unfold canSave, hasEmptySlots.
  rewrite negb_true_iff, orb_false_iff, !negb_false_iff, !Nat.eqb_eq.
  rewrite !getEmptySlots_nil. split.
  - intros [HL HR] [|]; [exact HL|exact HR].
  - intros H. split; [exact (H Left)|exact (H Right)].
Qed.

Lemma arrayIndex_Some : forall q k,
  arrayIndex q = Some k -> (q == inject_Z (Z.of_nat k))%Q.
Proof.
  intros q k H. unfold arrayIndex in H.
  destruct (Qeq_bool (inject_Z (Qfloor q)) q) eqn:E; [|discriminate].
  destruct (Z.leb_spec 0 (Qfloor q)) as [Hp|]; [|discriminate].
  cbn in H. injection H as <-. apply Qeq_bool_iff in E.
  rewrite Z2Nat.id by exact Hp. now symmetry.
Qed.

Lemma inject_Z_eqb_nat : forall q (j k : nat),
  (q == inject_Z (Z.of_nat k))%Q ->
  Qeq_bool q (inject_Z (Z.of_nat j)) = Nat.eqb k j.
Proof.
  intros q j k E. destruct (Nat.eqb_spec k j) as [->|Hne].
  - now apply Qeq_bool_iff.
  - destruct (Qeq_bool q (inject_Z (Z.of_nat j))) eqn:K; [|reflexivity].
    apply Qeq_bool_iff in K. rewrite E in K.
    apply -> inject_Z_injective in K. lia.
Qed.

(** One write of [placeDoorInSlots]: the slot it names becomes taken, the
    others stay as they are. *)
Lemma placeUnit_occupied : forall door slots i sl' j sl,
  0 <= i ->
  placeUnit door slots i = Done sl' ->
  nth_error slots j = Some sl ->
  exists sl2,
    nth_error sl' j = Some sl2
    /\ occupied sl2
       = occupied sl
         || Qeq_bool (position door + inject_Z i) (inject_Z (Z.of_nat j)).
Proof.
  intros door slots i sl' j sl Hi H Hj. unfold placeUnit in H.
  destruct (Qltb (position door + inject_Z i)
              (inject_Z (Z.of_nat (List.length slots)))) eqn:L.
  - destruct (arrayIndex (position door + inject_Z i)) as [k|] eqn:A;
      [|discriminate].
    injection H as <-. apply arrayIndex_Some in A.
    rewrite (@inject_Z_eqb_nat _ j k A).
    destruct (Nat.eqb_spec k j) as [->|Hne].
    + rewrite (@updateAt_nth_same _ _ slots j sl Hj). eexists. split; [reflexivity|].
      unfold occupied. cbn [slot_door isOccupiedByAbove].
      rewrite orb_true_r.
      destruct (Z.eqb_spec i 0) as [->|Hi0]; [reflexivity|].
      cbn [isSome orb]. apply Z.ltb_lt. lia.
    + rewrite updateAt_nth_other by congruence.
      exists sl. split; [exact Hj|]. now rewrite orb_false_r.
  - injection H as <-. exists sl. split; [exact Hj|].
    apply Qltb_ge in L.
    assert (Hlt : (j < List.length slots)%nat).
    { apply nth_error_Some. congruence. }
    destruct (Qeq_bool (position door + inject_Z i)
                (inject_Z (Z.of_nat j))) eqn:K; [|now rewrite orb_false_r].
    apply Qeq_bool_iff in K. rewrite K in L. rewrite <- Zle_Qle in L. lia.
Qed.

Lemma placeUnits_occupied : forall door idxs slots sl' j sl,
  Forall (fun i => 0 <= i) idxs ->
  forEachO (placeUnit door) idxs slots = Done sl' ->
  nth_error slots j = Some sl ->
  exists sl2,
    nth_error sl' j = Some sl2
    /\ occupied sl2
       = occupied sl
         || existsb (fun i => Qeq_bool (position door + inject_Z i)
                                (inject_Z (Z.of_nat j))) idxs.
Proof.
  intros door idxs; induction idxs as [|i r IH]; intros slots sl' j sl Hpos H Hj.
  - cbn in H. injection H as <-. exists sl. split; [exact Hj|].
    cbn. now rewrite orb_false_r.
  - inversion Hpos as [|x xs Hi Hr]; subst. cbn [forEachO] in H.
    destruct (placeUnit door slots i) as [s1|s1] eqn:E; [|discriminate].
    destruct (@placeUnit_occupied door slots i s1 j sl Hi E Hj)
      as (sl1 & H1 & O1).
    destruct (IH s1 sl' j sl1 Hr H H1) as (sl2 & H2 & O2).
    exists sl2. split; [exact H2|].
    rewrite O2, O1. cbn [existsb]. now rewrite orb_assoc.
Qed.

Lemma countUpTo_nonneg : forall u, Forall (fun i => 0 <= i) (countUpTo u).
Proof.
  intros u. unfold countUpTo. apply Forall_forall. intros i Hi.
  apply in_map_iff in Hi. destruct Hi as (n & <- & _). lia.
Qed.

(** Placing one door: the slots of its column that its units name become
    taken. *)
Lemma placeDoorInSlots_occupied : forall door c e e',
  placeDoorInSlots door c e = Done e' ->
  slotsOf e' (match c with Left => Right | Right => Left end)
  = slotsOf e (match c with Left => Right | Right => Left end)
  /\ forall j sl,
       nth_error (slotsOf e c) j = Some sl ->
       exists sl2,
         nth_error (slotsOf e' c) j = Some sl2
         /\ occupied sl2 = occupied sl || visitsUnit door (Z.of_nat j).
Proof.
  intros door c e e' H. unfold placeDoorInSlots in H.
  destruct (forEachO (placeUnit door) (countUpTo (doorUnits door))
              (slotsOf e c)) as [sl'|sl'] eqn:E; [|discriminate].
  injection H as <-. split; [now destruct c|].
  intros j sl Hj.
  destruct (@placeUnits_occupied door _ _ sl' j sl (countUpTo_nonneg _) E Hj)
    as (sl2 & H2 & O2).
  exists sl2. split; [now destruct c|exact O2].
Qed.

(** For a door that was placed without a crash, the units the loop writes
    are the units of the interval [position, position + units). *)
Lemma visits_covers : forall door slots sl' j,
  forEachO (placeUnit door) (countUpTo (doorUnits door)) slots = Done sl' ->
  (j < List.length slots)%nat ->
  visitsUnit door (Z.of_nat j) = coversUnit door (Z.of_nat j).
Proof.
  intros door slots sl' j H Hj.
  pose proof (getDoorUnits_pos (toLowerCase (door_type door))) as Hu.
  fold (doorUnits door) in Hu.
  destruct (countUpTo_head Hu) as [r Hr]. rewrite Hr in H.
  cbn [forEachO] in H.
  destruct (placeUnit door slots 0) as [s1|s1] eqn:E; [|discriminate].
  clear H Hr r. unfold placeUnit in E.
  assert (Q0 : (position door + inject_Z 0 == position door)%Q)
    by (change (inject_Z 0) with 0%Q; ring).
  assert (Hjlen : (inject_Z (Z.of_nat j)
                   < inject_Z (Z.of_nat (List.length slots)))%Q)
    by (rewrite <- Zlt_Qlt; lia).
  assert (Hin : forall i, In i (countUpTo (doorUnits door)) <->
                          0 <= i < Qceiling (doorUnits door)).
  { intros i. unfold countUpTo. rewrite in_map_iff. split.
    - intros (n & <- & Hn). apply in_seq in Hn. lia.
    - intros Hi. exists (Z.to_nat i). split; [lia|]. apply in_seq. lia. }
  apply eq_true_iff_eq. unfold visitsUnit, coversUnit.
  rewrite existsb_exists, andb_true_iff, Qle_bool_iff, Qltb_lt.
  destruct (Qltb (position door + inject_Z 0)
              (inject_Z (Z.of_nat (List.length slots)))) eqn:L.
  - destruct (arrayIndex (position door + inject_Z 0)) as [k|] eqn:A;
      [|discriminate].
    apply arrayIndex_Some in A. rewrite Q0 in A. split.
    + intros (i & Hi & Ei). apply Hin in Hi. apply Qeq_bool_iff in Ei.
      rewrite A in Ei. rewrite <- inject_Z_plus in Ei.
      apply -> inject_Z_injective in Ei.
      pose proof (Qceiling_lt (doorUnits door)) as Hc.
      assert (Hi' : (inject_Z i <= inject_Z (Qceiling (doorUnits door) - 1))%Q)
        by (rewrite <- Zle_Qle; lia).
      rewrite A. rewrite <- Ei. rewrite inject_Z_plus. split.
      * assert (0 <= inject_Z i)%Q
          by (change 0%Q with (inject_Z 0); rewrite <- Zle_Qle; lia).
        lra.
      * lra.
    + intros [H1 H2]. rewrite A in H1, H2. rewrite <- Zle_Qle in H1.
      exists (Z.of_nat j - Z.of_nat k). split.
      * apply Hin. split; [lia|].
        pose proof (Qle_ceiling (doorUnits door)) as Hc.
        assert (K : (inject_Z (Z.of_nat j - Z.of_nat k)
                     < inject_Z (Qceiling (doorUnits door)))%Q).
        { unfold Z.sub. rewrite inject_Z_plus, inject_Z_opp. lra. }
        now rewrite <- Zlt_Qlt in K.
      * apply Qeq_bool_iff. rewrite A. rewrite <- inject_Z_plus.
        apply inject_Z_injective. lia.
  - apply Qltb_ge in L. rewrite Q0 in L. split.
    + intros (i & Hi & Ei). apply Hin in Hi. apply Qeq_bool_iff in Ei.
      assert (0 <= inject_Z i)%Q
        by (change 0%Q with (inject_Z 0); rewrite <- Zle_Qle; lia).
      exfalso. lra.
    + intros [H1 H2]. exfalso. lra.
Qed.

(** A pass over a column: the slots the doors of the list cover become
    taken, the other column is left alone. *)
Lemma column_occupied : forall c ds e e',
  forEachO (fun st d => placeDoorInSlots d c st) ds e = Done e' ->
  slotsOf e' (match c with Left => Right | Right => Left end)
  = slotsOf e (match c with Left => Right | Right => Left end)
  /\ forall j sl,
       nth_error (slotsOf e c) j = Some sl ->
       exists sl2,
         nth_error (slotsOf e' c) j = Some sl2
         /\ occupied sl2 = occupied sl || unitCovered ds (Z.of_nat j).
Proof.
  intros c ds; induction ds as [|d r IH]; intros e e' H.
  - cbn in H. injection H as <-. split; [reflexivity|].
    intros j sl Hj. exists sl. split; [exact Hj|].
    cbn. now rewrite orb_false_r.
  - cbn [forEachO] in H.
    destruct (placeDoorInSlots d c e) as [e1|e1] eqn:E; [|discriminate].
    destruct (placeDoorInSlots_occupied d c e E) as [S1 O1].
    destruct (IH e1 e' H) as [S2 O2].
    split; [now rewrite S2|].
    intros j sl Hj.
    destruct (O1 j sl Hj) as (sl1 & H1 & B1).
    destruct (O2 j sl1 H1) as (sl2 & H2 & B2).
    exists sl2. split; [exact H2|].
    rewrite B2, B1. cbn [unitCovered existsb].
    assert (V : visitsUnit d (Z.of_nat j) = coversUnit d (Z.of_nat j)).
    { unfold placeDoorInSlots in E.
      destruct (forEachO (placeUnit d) (countUpTo (doorUnits d))
                  (slotsOf e c)) as [s1|s1] eqn:F; [|discriminate].
      apply (visits_covers d (slotsOf e c) F).
      apply nth_error_Some. congruence. }
    now rewrite V, orb_assoc.
Qed.

Lemma emptySlots_nth : forall c n j,
  (j < Z.to_nat n)%nat ->
  exists sl, nth_error (emptySlots c n) j = Some sl /\ occupied sl = false.
Proof.
  intros c n j Hj.
  assert (Hlen : List.length (emptySlots c n) = Z.to_nat n)
    by (unfold emptySlots; now rewrite length_map, length_seq).
  destruct (nth_error (emptySlots c n) j) as [sl|] eqn:E.
  - exists sl. split; [reflexivity|].
    apply nth_error_In in E. unfold emptySlots in E.
    apply in_map_iff in E. now destruct E as (i & <- & _).
  - apply nth_error_None in E. lia.
Qed.

(** The slots after a rebuild that did not crash: a slot is taken exactly
    when a door of its column covers its unit. *)
Lemma initializeSlots_occupied : forall e e',
  initializeSlots e = Done e' ->
  totalUnits e' = Math_round (height (frame e) / DOOR_UNIT)
  /\ forall c j,
       (List.length (slotsOf e' c) = Z.to_nat (totalUnits e'))
       /\ ((j < Z.to_nat (totalUnits e'))%nat ->
           exists sl,
             nth_error (slotsOf e' c) j = Some sl
             /\ occupied sl
                = unitCovered
                    (match c with
                     | Left => getLeftDoors e
                     | Right => getRightDoors e
                     end) (Z.of_nat j)).
Proof.
  intros e e' H. unfold initializeSlots in H.
  set (total := Math_round (height (frame e) / DOOR_UNIT)) in *.
  set (e0 := mkEditor (frame e) _ _ _ _ _) in H.
  assert (R0 : slotsReady (Z.to_nat total) total e0).
  { unfold slotsReady, e0, emptySlots. cbn.
    now rewrite !length_map, !length_seq. }
  pose proof (forEachO_preserves (slotsReady (Z.to_nat total) total)
                (fun st d => placeDoorInSlots d Left st)
                (fun s x Hs => placeDoorInSlots_ready x Left Hs)
                (getLeftDoors e0) e0 R0) as R1.
  pose proof (forEachO_preserves (fun st => frame st = frame e)
                (fun st d => placeDoorInSlots d Left st)
                (fun s x (Hs : frame s = frame e) =>
                   eq_trans (placeDoorInSlots_frame x Left s) Hs)
                (getLeftDoors e0) e0 eq_refl) as F1.
  destruct (forEachO (fun st d => placeDoorInSlots d Left st)
              (getLeftDoors e0) e0) as [e1|e1] eqn:EL;
    cbn [andThen stateOf] in *; [|discriminate].
  pose proof (forEachO_preserves (slotsReady (Z.to_nat total) total)
                (fun st d => placeDoorInSlots d Right st)
                (fun s x Hs => placeDoorInSlots_ready x Right Hs)
                (getRightDoors e1) e1 R1) as R2.
  rewrite H in R2. cbn [stateOf] in R2.
  destruct R2 as (HlenL & HlenR & Htot).
  destruct (column_occupied Left _ _ EL) as [SL OL].
  destruct (column_occupied Right _ _ H) as [SR OR].
  cbn [slotsOf] in SL, SR, OL, OR.
  split; [exact Htot|]. rewrite Htot. intros c j.
  split; [destruct c; cbn [slotsOf]; assumption|].
  intros Hj. destruct c; cbn [slotsOf].
  - destruct (emptySlots_nth Left total Hj) as (sl0 & N0 & O0).
    destruct (OL j sl0 N0) as (sl2 & N2 & O2).
    exists sl2. rewrite SR. split; [exact N2|].
    rewrite O2, O0. reflexivity.
  - destruct (emptySlots_nth Right total Hj) as (sl0 & N0 & O0).
    assert (N1 : nth_error (rightSlots e1) j = Some sl0)
      by (rewrite SL; exact N0).
    destruct (OR j sl0 N1) as (sl2 & N2 & O2).
    exists sl2. split; [exact N2|].
    rewrite O2, O0. unfold getRightDoors. now rewrite F1.
Qed.

(** X29.  After the slots were rebuilt without a crash, saving is possible
    exactly when the doors cover every unit of both columns: for each unit
    [k] below [totalUnits] some left-column door and some right-column
    door have [position <= k < position + units]. *)
Theorem canSave_iff_every_unit_covered : forall e e',
  initializeSlots e = Done e' ->
  (canSave e' = true
   <-> forall k, 0 <= k < totalUnits e' ->
         unitCovered (getLeftDoors e) k = true
         /\ unitCovered (getRightDoors e) k = true).
Proof.
  intros e e' H.
  destruct (initializeSlots_occupied e H) as [_ Hocc].
  rewrite canSave_iff_occupied. split.
  - intros Hall k Hk.
    assert (Hj : (Z.to_nat k < Z.to_nat (totalUnits e'))%nat) by lia.
    split.
    + destruct (proj2 (Hocc Left (Z.to_nat k)) Hj) as (sl & N & O).
      rewrite Z2Nat.id in O by lia. rewrite <- O. exact (Hall Left _ _ N).
    + destruct (proj2 (Hocc Right (Z.to_nat k)) Hj) as (sl & N & O).
      rewrite Z2Nat.id in O by lia. rewrite <- O. exact (Hall Right _ _ N).
  - intros Hcov c j sl N.
    assert (Hj : (j < Z.to_nat (totalUnits e'))%nat).
    { rewrite <- (proj1 (Hocc c j)). apply nth_error_Some. congruence. }
    destruct (proj2 (Hocc c j) Hj) as (sl2 & N2 & O2).
    rewrite N in N2. injection N2 as <-. rewrite O2.
    destruct (Hcov (Z.of_nat j) ltac:(lia)) as [HL HR].
    now destruct c.
Qed.

Lemma canSave_iff_every_unit_covered_witness :
  canSave packingScenarioEditor = true
  <-> forall k, 0 <= k < totalUnits packingScenarioEditor ->
        unitCovered
          (getLeftDoors (mkEditor packingScenarioFrame [] [] 0 [] [])) k
        = true
        /\ unitCovered
             (getRightDoors (mkEditor packingScenarioFrame [] [] 0 [] [])) k
           = true.
Proof.
  apply (@canSave_iff_every_unit_covered
           (mkEditor packingScenarioFrame [] [] 0 [] [])
           packingScenarioEditor).
  vm_compute. reflexivity.
Defined.

(** ** Opening the editor and saving without an edit *)

Lemma stack_length : forall l u, List.length (stack u l) = List.length l.
Proof.
  induction l as [|d r IH]; intros u; simpl; [reflexivity|]. now rewrite IH.
Qed.

Lemma stack_nth : forall l u i d',
  nth_error (stack u l) i = Some d' ->
  exists d p, nth_error l i = Some d /\ d' = with_position d p
              /\ (u <= p)%Q.
Proof.
  induction l as [|d r IH]; intros u i d' H; [destruct i; discriminate|].
  destruct i as [|i]; cbn [stack nth_error] in *.
  - injection H as <-. exists d, u. repeat split. apply Qle_refl.
  - destruct (IH _ _ _ H) as (d0 & p & H1 & H2 & H3).
    exists d0, p. repeat split; auto.
    pose proof (doorUnits_nonneg d). lra.
Qed.

Lemma with_position_units : forall d p,
  doorUnits (with_position d p) = doorUnits d.
Proof. reflexivity. Qed.

(** Stacked doors sit at strictly ascending positions. *)
Lemma stack_ascending : forall l u i j a b,
  (i < j)%nat ->
  nth_error (stack u l) i = Some a -> nth_error (stack u l) j = Some b ->
  (position a < position b)%Q.
Proof.
  induction l as [|d r IH]; intros u i j a b Hij Ha Hb;
    [destruct i; discriminate|].
  destruct j as [|j]; [lia|]. cbn [stack nth_error] in Hb.
  destruct i as [|i]; cbn [stack nth_error] in Ha.
  - injection Ha as <-. destruct (stack_nth _ _ _ Hb) as (d0 & p & _ & -> & Hp).
    cbn [position with_position].
    pose proof (getDoorUnits_pos (toLowerCase (door_type d))) as K.
    fold (doorUnits d) in K. lra.
  - apply (IH (u + doorUnits d)%Q i j a b); [lia|exact Ha|exact Hb].
Qed.

Lemma assignUnits_stack : forall l u s i p,
  In (i, p) (assignUnits u (combine (seq s (List.length l)) l)) ->
  (s <= i)%nat
  /\ exists d, nth_error l (i - s) = Some d
               /\ nth_error (stack u l) (i - s) = Some (with_position d p).
Proof.
  induction l as [|d r IH]; intros u s i p H; [destruct H|].
  cbn [List.length seq combine assignUnits] in H. destruct H as [E|H].
  - injection E as <- <-. split; [lia|]. rewrite Nat.sub_diag.
    exists d. now split.
  - apply IH in H. destruct H as (Hle & d0 & H1 & H2).
    split; [lia|]. exists d0.
    replace (i - s)%nat with (S (i - S s)) by lia. now split.
Qed.

Lemma combine_app_same : forall (A B : Type) (l1 l2 : list A)
    (m1 m2 : list B),
  List.length l1 = List.length m1 ->
  combine (l1 ++ l2) (m1 ++ m2) = combine l1 m1 ++ combine l2 m2.
Proof.
  intros A B l1; induction l1 as [|a r IH]; intros l2 [|b m1] m2 H;
    simpl in *; try discriminate; [reflexivity|].
  f_equal. apply IH. now injection H.
Qed.

Lemma indexed_app : forall (A : Type) (l1 l2 : list A),
  indexed (l1 ++ l2)
  = indexed l1 ++ combine (seq (List.length l1) (List.length l2)) l2.
Proof.
  intros A l1 l2. unfold indexed.
  rewrite length_app, seq_app, combine_app_same; [reflexivity|].
  now rewrite length_seq.
Qed.

Lemma filter_combine_all : forall (A : Type) (p : A -> bool) idx l,
  Forall (fun d => p d = true) l ->
  filter (fun r : nat * A => p (snd r)) (combine idx l) = combine idx l.
Proof.
  intros A p idx l H. apply filter_id. intros [i d] Hin. cbn [snd].
  apply in_combine_r in Hin. rewrite Forall_forall in H. now apply H.
Qed.

Lemma filter_combine_none : forall (A : Type) (p : A -> bool) idx l,
  Forall (fun d => p d = false) l ->
  filter (fun r : nat * A => p (snd r)) (combine idx l) = [].
Proof.
  intros A p idx l H. apply filter_nil_iff. intros [i d] Hin. cbn [snd].
  apply in_combine_r in Hin. rewrite Forall_forall in H. now apply H.
Qed.

(** An array whose keys ascend is left in place by the sort. *)
Lemma sortBy_sorted : forall (A : Type) (key : A -> Q) (l : list A),
  (forall i j a b, (i < j)%nat -> nth_error l i = Some a ->
                   nth_error l j = Some b -> (key a <= key b)%Q) ->
  sortBy key l = l.
Proof.
  intros A key l; induction l as [|a r IH]; intros H; [reflexivity|].
  unfold sortBy. cbn [fold_right]. fold (sortBy key r). rewrite IH.
  - destruct r as [|b r']; [reflexivity|]. cbn [insertBy].
    assert (K : Qle_bool (key a) (key b) = true).
    { apply Qle_bool_iff. apply (H 0%nat 1%nat); [lia|reflexivity|reflexivity]. }
    now rewrite K.
  - intros i j x y Hij Hx Hy. apply (H (S i) (S j)); [lia|exact Hx|exact Hy].
Qed.

Lemma nth_error_combine_seq : forall (A : Type) (l : list A) s i,
  nth_error (combine (seq s (List.length l)) l) i
  = option_map (fun d => ((s + i)%nat, d)) (nth_error l i).
Proof.
  intros A l; induction l as [|a r IH]; intros s i.
  - now destruct i.
  - cbn [List.length seq combine]. destruct i as [|i]; cbn [nth_error].
    + now rewrite Nat.add_0_r.
    + rewrite IH. now replace (S s + i)%nat with (s + S i)%nat by lia.
Qed.

Lemma sequentialPositions_nth : forall l i d,
  sequentialPositions l -> nth_error l i = Some d ->
  position d = inject_Z (Z.of_nat i).
Proof.
  intros l i d H Hd. unfold sequentialPositions in H.
  assert (K : nth_error (map position l) i = Some (position d))
    by (rewrite nth_error_map, Hd; reflexivity).
  rewrite H in K.
  assert (Hi : (i < List.length l)%nat)
    by (apply nth_error_Some; congruence).
  rewrite nth_error_map, nth_error_seq in K.
  destruct (Nat.ltb_spec i (List.length l)); [|lia].
  cbn in K. now injection K.
Qed.

Lemma sorted_column_refs : forall (l : list Door) s,
  sequentialPositions l ->
  sortBy (fun r : nat * Door => position (snd r))
    (combine (seq s (List.length l)) l)
  = combine (seq s (List.length l)) l.
Proof.
  intros l s H. apply sortBy_sorted.
  intros i j [ia a] [jb b] Hij Ha Hb. cbn [snd].
  rewrite nth_error_combine_seq in Ha, Hb.
  destruct (nth_error l i) as [a'|] eqn:Ea; [|discriminate].
  destruct (nth_error l j) as [b'|] eqn:Eb; [|discriminate].
  cbn in Ha, Hb. injection Ha as _ ->. injection Hb as _ ->.
  rewrite (sequentialPositions_nth i H Ea), (sequentialPositions_nth j H Eb).
  rewrite <- Zle_Qle. lia.
Qed.

Lemma column_refs_split : forall L R,
  Forall (fun d => inLeftColumn d = true) L ->
  Forall (fun d => inRightColumn d = true) R ->
  columnRefs inLeftColumn (L ++ R) = combine (seq 0 (List.length L)) L
  /\ columnRefs inRightColumn (L ++ R)
     = combine (seq (List.length L) (List.length R)) R.
Proof.
  intros L R HL HR. unfold columnRefs. rewrite indexed_app, !filter_app.
  unfold indexed.
  assert (HL' : Forall (fun d => inRightColumn d = false) L).
  { eapply Forall_impl; [|exact HL]. intros d Hd. cbn beta in Hd.
    now rewrite inRightColumn_not_left, Hd. }
  assert (HR' : Forall (fun d => inLeftColumn d = false) R).
  { eapply Forall_impl; [|exact HR]. intros d Hd. cbn beta in Hd.
    rewrite inRightColumn_not_left in Hd. now destruct (inLeftColumn d). }
  rewrite (filter_combine_all inLeftColumn _ HL).
  rewrite (filter_combine_none inLeftColumn _ HR').
  rewrite (filter_combine_none inRightColumn _ HL').
  rewrite (filter_combine_all inRightColumn _ HR).
  now rewrite app_nil_r.
Qed.

(** Normalizing a frame whose columns hold sequential positions stacks
    each column from unit 0. *)
Lemma normalize_sequential : forall L R,
  Forall (fun d => inLeftColumn d = true) L ->
  Forall (fun d => inRightColumn d = true) R ->
  sequentialPositions L -> sequentialPositions R ->
  normalizeDoorPositions (L ++ R) = stack 0 L ++ stack 0 R.
Proof.
  intros L R HL HR SL SR.
  destruct (column_refs_split HL HR) as [CL CR].
  apply nth_error_ext. intros i.
  destruct (nth_error (L ++ R) i) as [d|] eqn:Ed.
  - destruct (normalize_nth (L ++ R) i Ed) as (p & Hn & Hin).
    rewrite Hn.
    destruct (Nat.lt_ge_cases i (List.length L)) as [Hi|Hi].
    + rewrite nth_error_app1 in Ed by exact Hi.
      rewrite nth_error_app1 by (now rewrite stack_length).
      assert (Hd : inLeftColumn d = true).
      { rewrite Forall_forall in HL. apply HL.
        now apply nth_error_In in Ed. }
      unfold columnOf in Hin. rewrite Hd, CL in Hin.
      rewrite (@sorted_column_refs L 0 SL) in Hin.
      apply assignUnits_stack in Hin.
      destruct Hin as (_ & d0 & H1 & H2). rewrite Nat.sub_0_r in H1, H2.
      rewrite Ed in H1. injection H1 as <-. now rewrite H2.
    + rewrite nth_error_app2 in Ed by exact Hi.
      rewrite nth_error_app2 by (now rewrite stack_length).
      rewrite stack_length.
      assert (Hd : inLeftColumn d = false).
      { rewrite Forall_forall in HR.
        specialize (HR d (nth_error_In _ _ Ed)).
        rewrite inRightColumn_not_left in HR. now destruct (inLeftColumn d). }
      unfold columnOf in Hin. rewrite Hd, CR in Hin.
      rewrite (@sorted_column_refs R (List.length L) SR) in Hin.
      apply assignUnits_stack in Hin.
      destruct Hin as (_ & d0 & H1 & H2).
      rewrite Ed in H1. injection H1 as <-. now rewrite H2.
  - assert (Hlen : (List.length (L ++ R) <= i)%nat)
      by now apply nth_error_None.
    transitivity (@None Door); [|symmetry]; apply nth_error_None.
    + now rewrite normalize_length.
    + rewrite length_app, !stack_length. now rewrite length_app in Hlen.
Qed.

Lemma stack_Forall : forall (sel : Door -> bool) (v : bool) l u,
  (forall d p, sel (with_position d p) = sel d) ->
  Forall (fun d => sel d = v) l ->
  Forall (fun d => sel d = v) (stack u l).
Proof.
  intros sel v l; induction l as [|d r IH]; intros u Hsel H; cbn [stack];
    [constructor|].
  inversion H as [|x xs Hd Hr]; subst.
  constructor; [now rewrite Hsel|now apply IH].
Qed.

Lemma find_unique : forall (A : Type) (p : A -> bool) l x,
  In x l -> p x = true ->
  (forall y, In y l -> p y = true -> y = x) ->
  find p l = Some x.
Proof.
  intros A p l x; induction l as [|a r IH]; intros Hin Hp Hu; [destruct Hin|].
  cbn [find]. destruct (p a) eqn:E.
  - f_equal. apply Hu; [now left|exact E].
  - destruct Hin as [->|Hin]; [congruence|].
    apply IH; auto. intros y Hy. apply Hu. now right.
Qed.

(** In a column whose positions strictly ascend, the position map sends
    the position of each door to its rank. *)
Lemma posMapGet_rank : forall sorted r d,
  (forall i j a b, (i < j)%nat -> nth_error sorted i = Some a ->
                   nth_error sorted j = Some b ->
                   (position a < position b)%Q) ->
  nth_error sorted r = Some d ->
  posMapGet (buildPosMap sorted) (position d) = Some (Z.of_nat r).
Proof.
  intros sorted r d Hasc Hr. unfold posMapGet.
  rewrite (@find_unique _ (fun kv => Qeq_bool (fst kv) (position d))
             (rev (buildPosMap sorted)) (position d, Z.of_nat r)).
  - reflexivity.
  - apply -> in_rev. unfold buildPosMap. apply in_map_iff.
    exists (r, d). split; [reflexivity|]. now apply indexed_In.
  - apply Qeq_bool_iff. reflexivity.
  - intros [q k] Hy Hq. apply in_rev in Hy. unfold buildPosMap in Hy.
    apply in_map_iff in Hy. destruct Hy as ([i a] & E & Hin).
    cbn [fst snd] in *. injection E as <- <-. apply indexed_In in Hin.
    apply Qeq_bool_iff in Hq.
    destruct (Nat.lt_trichotomy i r) as [Hlt|[->|Hgt]].
    + pose proof (Hasc i r a d Hlt Hin Hr). lra.
    + rewrite Hr in Hin. now injection Hin as <-.
    + pose proof (Hasc r i d a Hgt Hr Hin). lra.
Qed.

Lemma with_position_same : forall d p q,
  position d = q -> with_position (with_position d p) q = d.
Proof. intros d p q <-. now destruct d. Qed.

(** One stacked column is mapped back to its sequential positions. *)
Lemma denormalize_column : forall (f : Door -> Door) l,
  sequentialPositions l ->
  (forall d', In d' (stack 0 l) ->
     f d' = match posMapGet (buildPosMap (stack 0 l)) (position d') with
            | Some k => with_position d' (inject_Z k)
            | None => d'
            end) ->
  map f (stack 0 l) = l.
Proof.
  intros f l Hseq Hf. apply nth_error_ext. intros i.
  rewrite nth_error_map.
  destruct (nth_error (stack 0 l) i) as [d'|] eqn:E.
  - destruct (stack_nth _ _ _ E) as (d & p & Hd & -> & _).
    cbn [option_map]. rewrite Hf by (now apply nth_error_In in E).
    rewrite (@posMapGet_rank (stack 0 l) i (with_position d p)
               (fun i j a b => @stack_ascending l 0 i j a b) E).
    rewrite Hd. f_equal. apply with_position_same.
    now apply (@sequentialPositions_nth l i d Hseq).
  - cbn [option_map]. symmetry. apply nth_error_None.
    apply nth_error_None in E. now rewrite stack_length in E.
Qed.

Lemma denormalize_stacked : forall L R,
  Forall (fun d => inLeftColumn d = true) L ->
  Forall (fun d => inRightColumn d = true) R ->
  sequentialPositions L -> sequentialPositions R ->
  denormalizeDoorPositions (stack 0 L ++ stack 0 R) = L ++ R.
Proof.
  intros L R HL HR SL SR.
  assert (HL' : Forall (fun d => inRightColumn d = false) L).
  { eapply Forall_impl; [|exact HL]. intros d Hd. cbn beta in Hd.
    now rewrite inRightColumn_not_left, Hd. }
  assert (HR' : Forall (fun d => inLeftColumn d = false) R).
  { eapply Forall_impl; [|exact HR]. intros d Hd. cbn beta in Hd.
    rewrite inRightColumn_not_left in Hd. now destruct (inLeftColumn d). }
  assert (Hkeep : forall sel, sel = inLeftColumn \/ sel = inRightColumn ->
            forall d p, sel (with_position d p) = sel d)
    by (intros sel [->| ->] d p; reflexivity).
  assert (FL : filter inLeftColumn (stack 0 L ++ stack 0 R) = stack 0 L).
  { rewrite filter_app.
    rewrite (filter_id inLeftColumn (stack 0 L)).
    - rewrite (proj2 (filter_nil_iff inLeftColumn (stack 0 R))).
      + apply app_nil_r.
      + apply Forall_forall.
        apply (@stack_Forall inLeftColumn false R 0); auto.
    - apply Forall_forall.
      apply (@stack_Forall inLeftColumn true L 0); auto. }
  assert (FR : filter inRightColumn (stack 0 L ++ stack 0 R) = stack 0 R).
  { rewrite filter_app.
    rewrite (filter_id inRightColumn (stack 0 R)).
    - rewrite (proj2 (filter_nil_iff inRightColumn (stack 0 L))).
      + reflexivity.
      + apply Forall_forall.
        apply (@stack_Forall inRightColumn false L 0); auto.
    - apply Forall_forall.
      apply (@stack_Forall inRightColumn true R 0); auto. }
  assert (Hsort : forall l, sortBy position (stack 0 l) = stack 0 l).
  { intros l. apply sortBy_sorted. intros i j a b Hij Ha Hb.
    apply Qlt_le_weak. now apply (@stack_ascending l 0 i j). }
  unfold denormalizeDoorPositions. rewrite FL, FR, !Hsort, map_app.
  f_equal.
  - apply denormalize_column; [exact SL|].
    intros d' Hd'.
    assert (K : inLeftColumn d' = true).
    { pose proof (@stack_Forall inLeftColumn true L 0
                    (Hkeep _ (or_introl eq_refl)) HL) as F.
      rewrite Forall_forall in F. now apply F. }
    rewrite inLeftColumn_doorColumn in K.
    destruct (doorColumn d'); [reflexivity|discriminate].
  - apply denormalize_column; [exact SR|].
    intros d' Hd'.
    assert (K : inLeftColumn d' = false).
    { pose proof (@stack_Forall inLeftColumn false R 0
                    (Hkeep _ (or_introl eq_refl)) HR') as F.
      rewrite Forall_forall in F. now apply F. }
    rewrite inLeftColumn_doorColumn in K.
    destruct (doorColumn d'); [discriminate|reflexivity].
Qed.

Lemma sortCmp_sorted_id : forall (A : Type) (le : A -> A -> bool) l,
  (forall i j a b, (i < j)%nat -> nth_error l i = Some a ->
                   nth_error l j = Some b -> le a b = true) ->
  sortCmp le l = l.
Proof.
  intros A le l; induction l as [|a r IH]; intros H; [reflexivity|].
  unfold sortCmp. cbn [fold_right]. fold (sortCmp le r). rewrite IH.
  - destruct r as [|b r']; [reflexivity|]. cbn [insertCmp].
    now rewrite (H 0%nat 1%nat a b ltac:(lia) eq_refl eq_refl).
  - intros i j x y Hij Hx Hy. apply (H (S i) (S j)); [lia|exact Hx|exact Hy].
Qed.

Lemma saveOrder_sequential : forall L R,
  Forall (fun d => inLeftColumn d = true) L ->
  Forall (fun d => inRightColumn d = true) R ->
  sequentialPositions L -> sequentialPositions R ->
  sortCmp saveOrder (L ++ R) = L ++ R.
Proof.
  intros L R HL HR SL SR. apply sortCmp_sorted_id.
  intros i j a b Hij Ha Hb.
  assert (ColL : forall d, In d L -> doorColumn d = Left).
  { intros d Hd. rewrite Forall_forall in HL. specialize (HL d Hd).
    rewrite inLeftColumn_doorColumn in HL. now destruct (doorColumn d). }
  assert (ColR : forall d, In d R -> doorColumn d = Right).
  { intros d Hd. rewrite Forall_forall in HR. specialize (HR d Hd).
    rewrite inRightColumn_not_left, inLeftColumn_doorColumn in HR.
    now destruct (doorColumn d). }
  unfold saveOrder.
  destruct (Nat.lt_ge_cases j (List.length L)) as [Hj|Hj].
  - rewrite nth_error_app1 in Ha, Hb by lia.
    rewrite (ColL a (nth_error_In _ _ Ha)), (ColL b (nth_error_In _ _ Hb)).
    cbn. apply Qle_bool_iff.
    rewrite (@sequentialPositions_nth L i a SL Ha).
    rewrite (@sequentialPositions_nth L j b SL Hb).
    rewrite <- Zle_Qle. lia.
  - rewrite nth_error_app2 in Hb by lia.
    destruct (Nat.lt_ge_cases i (List.length L)) as [Hi|Hi].
    + rewrite nth_error_app1 in Ha by lia.
      now rewrite (ColL a (nth_error_In _ _ Ha)),
        (ColR b (nth_error_In _ _ Hb)).
    + rewrite nth_error_app2 in Ha by lia.
      rewrite (ColR a (nth_error_In _ _ Ha)), (ColR b (nth_error_In _ _ Hb)).
      cbn. apply Qle_bool_iff.
      rewrite (@sequentialPositions_nth R _ a SR Ha).
      rewrite (@sequentialPositions_nth R _ b SR Hb).
      rewrite <- Zle_Qle. lia.
Qed.

(** X30.  Opening the editor on a frame and saving without an edit gives
    the frame back: when the doors are stored left column first, each
    column in sequential positions 0, 1, 2, ..., and the editor can save,
    the frame [onSave] emits is the frame that was opened. *)
Theorem open_save_roundtrip : forall f L R,
  doors f = L ++ R ->
  Forall (fun d => inLeftColumn d = true) L ->
  Forall (fun d => inRightColumn d = true) R ->
  sequentialPositions L -> sequentialPositions R ->
  canSave (stateOf (openEditor f)) = true ->
  snd (onSave (stateOf (openEditor f))) = Some f.
Proof.
  intros f L R Hd HL HR SL SR Hsave. unfold onSave. rewrite Hsave.
  cbn [negb snd]. f_equal.
  assert (Hf : frame (stateOf (openEditor f))
               = with_doors f (normalizeDoorPositions (doors f))).
  { unfold openEditor. now rewrite initializeSlots_frame. }
  cbn [frame with_frame_doors]. rewrite Hf.
  assert (E : sortCmp saveOrder
                (denormalizeDoorPositions
                   (doors (with_doors f (normalizeDoorPositions (doors f)))))
              = doors f).
  { cbn [doors with_doors]. rewrite Hd.
    rewrite (normalize_sequential HL HR SL SR).
    rewrite (denormalize_stacked HL HR SL SR).
    apply (saveOrder_sequential HL HR SL SR). }
  rewrite E. now destruct f.
Qed.

Lemma open_save_roundtrip_witness :
  snd (onSave
         (stateOf
            (openEditor
               (mkFrame "f1" "4C-demo" "sd" 17 (21 # 2) 0 15
                  [ mkDoor (inject_Z 0) "DD" None None (Some Left);
                    mkDoor (inject_Z 1) "SD" None (Some "7") None;
                    mkDoor (inject_Z 0) "TD" None None (Some Right) ]))))
  = Some (mkFrame "f1" "4C-demo" "sd" 17 (21 # 2) 0 15
            [ mkDoor (inject_Z 0) "DD" None None (Some Left);
              mkDoor (inject_Z 1) "SD" None (Some "7") None;
              mkDoor (inject_Z 0) "TD" None None (Some Right) ]).
Proof.
  apply (@open_save_roundtrip
           (mkFrame "f1" "4C-demo" "sd" 17 (21 # 2) 0 15
              [ mkDoor (inject_Z 0) "DD" None None (Some Left);
                mkDoor (inject_Z 1) "SD" None (Some "7") None;
                mkDoor (inject_Z 0) "TD" None None (Some Right) ])
           [ mkDoor (inject_Z 0) "DD" None None (Some Left);
             mkDoor (inject_Z 1) "SD" None (Some "7") None ]
           [ mkDoor (inject_Z 0) "TD" None None (Some Right) ]).
  - reflexivity.
  - repeat constructor.
  - repeat constructor.
  - reflexivity.
  - reflexivity.
  - vm_compute. reflexivity.
Defined.
